(** * SID runtime: attribute parser, element registry, context reader,
      legacy operation tracker and interaction executor.

    A shallow embedding of the TypeScript sources of the SID runtime
    (attribute-parser.ts, element-registry.ts, context-parser.ts,
    operation-tracker.ts, interaction-executor.ts) and the properties of
    its specification that are checked against it.

    Conventions of the embedding.
    - A JavaScript string is a [string]; one character stands for one code
      unit below 256.
    - A JavaScript [Map] whose iteration order the code relies on is an
      association list in insertion order ([JsMap]); the executor's
      pending-operation map, which is only looked up, set and deleted, is a
      [gmap].
    - What the browser does and the repository does not define
      ([JSON.parse], [CSS.escape], the printing of large numbers, the
      delay of a timer, the messages of the errors the DOM throws) is taken
      through the class [Host].
    - A JavaScript number that holds an integer is a [Z] or an [N]; what the
      code does with it is written out where it departs from arithmetic
      (the step of a counter at 2^53, the printing of a number).
    - The executor's effects on the page are the native operations it
      issues on DOM nodes, kept in a log; timers and promises of the event
      loop are part of the executor state.
    - Diagnostics written with [console.warn] are left out. *)

From stdpp Require Import base option list strings pretty gmap fin_maps sorting.
From Stdlib Require Import NArith ZArith Ascii String Lia.

Set Warnings "-register-all".

Local Open Scope string_scope.
Local Open Scope list_scope.

(** ** JavaScript strings *)

Module JsString.

(** The double quote character, for selectors and messages. *)
Definition dquote : string := String "034"%char EmptyString.

(** White space and line terminators stripped by [String.prototype.trim],
    restricted to code units below 256. *)
Definition is_whitespace (c : ascii) : bool :=
  let n := N_of_ascii c in
  ((n =? 9) || (n =? 10) || (n =? 11) || (n =? 12) || (n =? 13)
   || (n =? 32) || (n =? 160))%N.

Fixpoint trimStart (s : string) : string :=
  match s with
  | EmptyString => EmptyString
  | String c s' => if is_whitespace c then trimStart s' else s
  end.

Fixpoint trimEnd (s : string) : string :=
  match s with
  | EmptyString => EmptyString
  | String c s' =>
      match trimEnd s' with
      | EmptyString => if is_whitespace c then EmptyString else String c EmptyString
      | r => String c r
      end
  end.

Definition trim (s : string) : string := trimEnd (trimStart s).

(** [toLowerCase] on code units below 256: A-Z and the Latin-1 capitals. *)
Definition lower_char (c : ascii) : ascii :=
  let n := N_of_ascii c in
  if ((65 <=? n) && (n <=? 90))%N then ascii_of_N (n + 32)
  else if ((192 <=? n) && (n <=? 222) && negb (n =? 215))%N then ascii_of_N (n + 32)
  else c.

Fixpoint toLowerCase (s : string) : string :=
  match s with
  | EmptyString => EmptyString
  | String c s' => String (lower_char c) (toLowerCase s')
  end.

(** [s.split(sep)] for a one-character separator: never the empty list. *)
Fixpoint split (sep : ascii) (s : string) : list string :=
  match s with
  | EmptyString => [EmptyString]
  | String c s' =>
      if Ascii.eqb c sep then EmptyString :: split sep s'
      else match split sep s' with
           | [] => [String c EmptyString]
           | p :: ps => String c p :: ps
           end
  end.

(** Truthiness of a string: the empty string is falsy. *)
Definition truthy (s : string) : bool :=
  match s with EmptyString => false | _ => true end.

(** [a || b] on optional strings ([null]/[undefined] and the empty string
    are falsy). *)
Definition or_else (a : option string) (b : string) : string :=
  match a with
  | Some s => if truthy s then s else b
  | None => b
  end.

(** [a || undefined]. *)
Definition or_undefined (a : option string) : option string :=
  match a with
  | Some s => if truthy s then Some s else None
  | None => None
  end.

End JsString.

(** ** JSON values and the host *)

Inductive json : Type :=
  | JNull
  | JBoolean (b : bool)
  | JNumber (lexeme : string)
  | JString (s : string)
  | JArray (items : list json)
  | JObject (fields : list (string * json)).

(** [typeof v] for a value produced by [JSON.parse]. *)
Definition json_typeof (v : json) : string :=
  match v with
  | JNull | JArray _ | JObject _ => "object"
  | JBoolean _ => "boolean"
  | JNumber _ => "number"
  | JString _ => "string"
  end.

(** Property read [v.name]; [None] is [undefined]. The names read by the
    runtime are own properties of objects only. *)
Definition json_get (v : json) (name : string) : option json :=
  match v with
  | JObject fields => snd <$> List.find (fun kv => String.eqb (fst kv) name) fields
  | _ => None
  end.

(** The functions of the browser the runtime calls and does not define.
    - [JSON_parse] returns [None] where [JSON.parse] throws.
    - [Number_toString_large n] is [String(n)] for an integer beyond the
      safe integers, where the host rounds and, from 1e21 on, prints an
      exponent.
    - [setTimeout_delay timeout] is the time, in milliseconds, after which a
      timer set with [setTimeout(f, timeout)] is due. The host keeps the
      delay in a signed 32-bit integer: it is [timeout] below 2^31, and
      what it is from there on is the host's affair.
    - [TypeError_not_a_function name] is the text the executor reports
      ([error.message], or [String(error)] for what is not an [Error]) for
      the error thrown by a call of the method [name] on an object that
      does not have it, and [InvalidStateError_file_value] the text it
      reports for the error thrown when the value of a file input is set
      to a string that is not empty. *)
Class Host := {
  JSON_parse : string -> option json;
  CSS_escape : string -> string;
  Number_toString_large : Z -> string;
  setTimeout_delay : N -> N;
  setTimeout_delay_exact :
    forall timeout : N, (timeout < 2 ^ 31)%N -> setTimeout_delay timeout = timeout;
  TypeError_not_a_function : string -> string;
  InvalidStateError_file_value : string;
}.

(** ** JavaScript numbers that hold integers *)

Module JsNumber.

(** The largest integer up to which every integer is a number. *)
Definition MAX_EXACT : Z := 2 ^ 53.

(** [String(n)]: the decimal digits of a safe integer. *)
Definition toString `{Host} (n : Z) : string :=
  if (Z.abs n <=? MAX_EXACT)%Z then pretty n else Number_toString_large n.

(** [n + 1] as [n++] computes it on a counter that starts at 0: beyond
    2^53 the sum is rounded to the nearest number, which is 2^53 again. *)
Definition increment (n : N) : N :=
  if (n <? 2 ^ 53)%N then (n + 1)%N else n.

End JsNumber.

(** ** The DOM *)

Module Dom.

(** The namespace of an element: only the elements of the HTML namespace
    are instances of [HTMLElement]. *)
Inductive Namespace : Type := Html | Svg | MathML.

Record ElementData := {
  namespace : Namespace;
  nid : nat;                              (* identity of the node *)
  tagName : string;                       (* lower-case local name *)
  attributes : list (string * string);
}.

Inductive Node : Type :=
  | TextNode (data : string)
  | Element (e : ElementData) (children : list Node).

Definition Document := list Node.

Definition getAttribute (e : ElementData) (name : string) : option string :=
  snd <$> List.find (fun kv => String.eqb (fst kv) name) (attributes e).

Definition hasAttribute (e : ElementData) (name : string) : bool :=
  match getAttribute e name with Some _ => true | None => false end.

(** [e instanceof HTMLElement] and the like. *)
Definition is_HTMLElement (e : ElementData) : bool :=
  match namespace e with Html => true | _ => false end.
Definition is_HTMLInputElement (e : ElementData) : bool :=
  is_HTMLElement e && String.eqb (tagName e) "input".
Definition is_HTMLTextAreaElement (e : ElementData) : bool :=
  is_HTMLElement e && String.eqb (tagName e) "textarea".
Definition is_HTMLSelectElement (e : ElementData) : bool :=
  is_HTMLElement e && String.eqb (tagName e) "select".

(** [el.type] of an input, as far as it is compared with ['file']. *)
Definition input_type (e : ElementData) : string :=
  match getAttribute e "type" with
  | Some v => JsString.toLowerCase v
  | None => "text"
  end.

(** Elements of a subtree in document order, each with its children. *)
Fixpoint elements_of (n : Node) : list (ElementData * list Node) :=
  match n with
  | TextNode _ => []
  | Element e children =>
      (e, children) :: (fix go (l : list Node) : list (ElementData * list Node) :=
               match l with
               | [] => []
               | c :: rest => elements_of c ++ go rest
               end) children
  end.

Definition elements_of_list (l : list Node) : list (ElementData * list Node) :=
  flat_map elements_of l.

(** [node.textContent]: the text of all descendants, in order. *)
Fixpoint textContent_node (n : Node) : string :=
  match n with
  | TextNode s => s
  | Element _ children =>
      (fix go (l : list Node) : string :=
         match l with
         | [] => EmptyString
         | c :: rest => textContent_node c +:+ go rest
         end) children
  end.

Definition textContent (children : list Node) : string :=
  fold_right (fun c acc => textContent_node c +:+ acc) EmptyString children.

(** [root.querySelectorAll('[data-sid]')] over the descendants [l]. *)
Definition querySelectorAll_data_sid (l : list Node) : list (ElementData * list Node) :=
  List.filter (fun ec => hasAttribute (fst ec) "data-sid") (elements_of_list l).

End Dom.

(** ** Records of the public types (sid.d.ts) *)

Module InputDefinition.
Record t := mk {
  dataType : string;
  required : bool;
  options : option (list string);
}.
End InputDefinition.

Module ActionDefinition.
Record t := mk {
  type : string;
  input : option InputDefinition.t;
  tracked : bool;
  description : string;
}.
End ActionDefinition.

Module ParsedAttributes.
Record t := mk {
  id : string;
  description : string;
  descriptionLong : option string;
  action : string;
  input : option InputDefinition.t;
  options : option (list string);
  tracking : string;
  destination : option string;
  humanInput : option json;
  disabled : bool;
  disabledDescription : option string;
}.
End ParsedAttributes.

Module SIDElement.
Record t := mk {
  id : string;
  selector : string;
  description : string;
  descriptionLong : option string;
  actions : list ActionDefinition.t;
  disabled : bool;
  disabledDescription : option string;
  humanInput : option json;
}.
End SIDElement.

(** ** attribute-parser.ts *)

Module AttributeParser.

Definition VALID_ACTION_TYPES : list string :=
  ["click"; "fill"; "select"; "check"; "hover"; "upload"].

Definition VALID_INPUT_DATA_TYPES : list string :=
  ["text"; "number"; "date"; "email"; "password"; "file"].

Definition VALID_TRACKING_TYPES : list string :=
  ["async"; "navigation"; "external"; "none"].

(** [Array.prototype.includes] on strings. *)
Definition includes (l : list string) (v : string) : bool :=
  existsb (String.eqb v) l.

Definition isValidActionType (value : string) : bool := includes VALID_ACTION_TYPES value.
Definition isValidInputDataType (value : string) : bool := includes VALID_INPUT_DATA_TYPES value.
Definition isValidTrackingType (value : string) : bool := includes VALID_TRACKING_TYPES value.

Definition parseInputAttribute (value : string) : option InputDefinition.t :=
  if negb (JsString.truthy value) then None
  else
    let trimmedValue := JsString.trim value in
    let parts := JsString.split ","%char trimmedValue in
    match List.map (fun p => JsString.toLowerCase (JsString.trim p)) parts with
    | [dataTypePart; requiredPart] =>
        if negb (isValidInputDataType dataTypePart) then None
        else if negb (String.eqb requiredPart "required")
                && negb (String.eqb requiredPart "optional") then None
        else Some (InputDefinition.mk dataTypePart (String.eqb requiredPart "required") None)
    | _ => None
    end.

Definition parseOptionsAttribute (value : option string) : option (list string) :=
  match value with
  | None => None
  | Some value =>
      if negb (JsString.truthy value) then None
      else
        let trimmedValue := JsString.trim value in
        if negb (JsString.truthy trimmedValue) then None
        else
          let options :=
            List.filter (fun opt => negb (String.length opt =? 0)%nat)
              (List.map JsString.trim (JsString.split ","%char trimmedValue)) in
          match options with
          | [] => None
          | _ => Some options
          end
  end.

Section WithHost.
Context `{Host}.

Definition parseHumanInputAttribute (value : string) : option json :=
  if negb (JsString.truthy value) then None
  else
    let trimmedValue := JsString.trim value in
    if negb (JsString.truthy trimmedValue) then None
    else
      match JSON_parse trimmedValue with
      | None => None                      (* JSON.parse threw *)
      | Some parsed =>
          let reason_is_string :=
            match json_get parsed "reason" with Some (JString _) => true | _ => false end in
          let schema_is_object :=
            match json_get parsed "schema" with
            | Some (JObject _) | Some (JArray _) => true
            | _ => false
            end in
          if negb (String.eqb (json_typeof parsed) "object")
             || match parsed with JNull => true | _ => false end
             || negb reason_is_string
             || negb schema_is_object
          then None
          else Some parsed
      end.

Definition parseAttributes (el : Dom.ElementData) : option ParsedAttributes.t :=
  match Dom.getAttribute el "data-sid" with
  | None => None
  | Some id =>
      if negb (JsString.truthy id) then None
      else
        let description := JsString.or_else (Dom.getAttribute el "data-sid-desc") "" in
        let descriptionLong := JsString.or_undefined (Dom.getAttribute el "data-sid-desc-long") in
        let action :=
          match JsString.or_undefined (Dom.getAttribute el "data-sid-action") with
          | Some actionAttr =>
              let normalizedAction := JsString.toLowerCase (JsString.trim actionAttr) in
              if isValidActionType normalizedAction then normalizedAction else "click"
          | None => "click"
          end in
        let input :=
          match JsString.or_undefined (Dom.getAttribute el "data-sid-input") with
          | Some inputAttr => parseInputAttribute inputAttr
          | None => None
          end in
        let options := parseOptionsAttribute (Dom.getAttribute el "data-sid-options") in
        let input :=
          match input, options with
          | Some i, Some o =>
              Some (InputDefinition.mk (InputDefinition.dataType i) (InputDefinition.required i) (Some o))
          | _, _ => input
          end in
        let tracking :=
          match JsString.or_undefined (Dom.getAttribute el "data-sid-tracking") with
          | Some trackingAttr =>
              let normalizedTracking := JsString.toLowerCase (JsString.trim trackingAttr) in
              if isValidTrackingType normalizedTracking then normalizedTracking else "async"
          | None => "async"
          end in
        let destination := JsString.or_undefined (Dom.getAttribute el "data-sid-destination") in
        let humanInput :=
          match JsString.or_undefined (Dom.getAttribute el "data-sid-human-input") with
          | Some humanInputAttr => parseHumanInputAttribute humanInputAttr
          | None => None
          end in
        let disabled :=
          match Dom.getAttribute el "data-sid-disabled" with
          | Some v => String.eqb v "true"
          | None => false
          end in
        let disabledDescription :=
          JsString.or_undefined (Dom.getAttribute el "data-sid-disabled-desc") in
        Some (ParsedAttributes.mk id description descriptionLong action input options
                tracking destination humanInput disabled disabledDescription)
  end.

End WithHost.

(** The re-encoding of a parsed input constraint named by the
    specification: [dataType + "," + (required ? "required" : "optional")]. *)
Definition encodeInput (i : InputDefinition.t) : string :=
  InputDefinition.dataType i +:+ "," +:+
  (if InputDefinition.required i then "required" else "optional").

End AttributeParser.

(** ** A JavaScript [Map] with string keys, in insertion order *)

Module JsMap.
Section Map.
Context {V : Type}.

Definition t := list (string * V).

Definition get (m : t) (k : string) : option V :=
  snd <$> List.find (fun kv => String.eqb (fst kv) k) m.

Definition has (m : t) (k : string) : bool :=
  match get m k with Some _ => true | None => false end.

(** [set] keeps the position of a key that is already present. *)
Fixpoint set (m : t) (k : string) (v : V) : t :=
  match m with
  | [] => [(k, v)]
  | (k', v') :: rest =>
      if String.eqb k' k then (k, v) :: rest else (k', v') :: set rest k v
  end.

Definition delete (m : t) (k : string) : t :=
  List.filter (fun kv => negb (String.eqb (fst kv) k)) m.

Definition clear (m : t) : t := [].

Definition values (m : t) : list V := List.map snd m.

End Map.
Arguments t : clear implicits.
End JsMap.

(** ** element-registry.ts *)

Module ElementRegistry.

(** A [MutationRecord]; nodes are given in their state at delivery. *)
Inductive MutationRecord : Type :=
  | ChildList (addedNodes removedNodes : list Dom.Node)
  | Attributes (target : Dom.Node) (attributeName : option string)
  | CharacterData (target : Dom.Node).

Record t := mk {
  elements : JsMap.t SIDElement.t;
  observer : bool;                 (* a MutationObserver is installed *)
}.

Section WithHost.
Context `{Host}.

Definition generateSelector (id : string) : string :=
  let escapedId := CSS_escape id in
  "[data-sid=" +:+ JsString.dquote +:+ escapedId +:+ JsString.dquote +:+ "]".

Definition isTracked (tracking : string) : bool :=
  negb (String.eqb tracking "none").

Definition createActionDefinition (attrs : ParsedAttributes.t) : ActionDefinition.t :=
  ActionDefinition.mk
    (ParsedAttributes.action attrs)
    (ParsedAttributes.input attrs)
    (isTracked (ParsedAttributes.tracking attrs))
    (ParsedAttributes.description attrs).

Definition convertToSIDElement (attrs : ParsedAttributes.t) : SIDElement.t :=
  SIDElement.mk
    (ParsedAttributes.id attrs)
    (generateSelector (ParsedAttributes.id attrs))
    (ParsedAttributes.description attrs)
    (ParsedAttributes.descriptionLong attrs)
    [createActionDefinition attrs]
    (ParsedAttributes.disabled attrs)
    (ParsedAttributes.disabledDescription attrs)
    (ParsedAttributes.humanInput attrs).

(** An element matches a selector made by [generateSelector] when its
    [data-sid] value yields that selector. *)
Definition matchesSelector (selector : string) (e : Dom.ElementData) : bool :=
  match Dom.getAttribute e "data-sid" with
  | Some v => String.eqb (generateSelector v) selector
  | None => false
  end.

(** [document.querySelector(selector)] for such a selector: the first
    matching element in document order. *)
Definition querySelector (doc : Dom.Document) (selector : string) : option Dom.ElementData :=
  fst <$> List.find (fun ec => matchesSelector selector (fst ec)) (Dom.elements_of_list doc).

(** [document.querySelectorAll(selector)]: all the nodes the selector
    resolves to. The runtime does not call it on these selectors. *)
Definition querySelectorAll (doc : Dom.Document) (selector : string) : list Dom.ElementData :=
  List.map fst
    (List.filter (fun ec => matchesSelector selector (fst ec)) (Dom.elements_of_list doc)).

Definition parseElement (el : Dom.ElementData) : option SIDElement.t :=
  match AttributeParser.parseAttributes el with
  | None => None
  | Some attrs => Some (convertToSIDElement attrs)
  end.

(** [const s = this.parseElement(el); if (s) this.elements.set(s.id, s)]. *)
Definition register (m : JsMap.t SIDElement.t) (el : Dom.ElementData) : JsMap.t SIDElement.t :=
  match parseElement el with
  | Some sidElement => JsMap.set m (SIDElement.id sidElement) sidElement
  | None => m
  end.

Definition scanDocument (doc : Dom.Document) (r : t) : t :=
  let cleared := JsMap.clear (elements r) in
  let sidElements := Dom.querySelectorAll_data_sid doc in
  mk (fold_left (fun m ec => register m (fst ec)) sidElements cleared) (observer r).

Definition get (r : t) (id : string) : option SIDElement.t := JsMap.get (elements r) id.

Definition getAll (r : t) : list SIDElement.t := JsMap.values (elements r).

Definition startObserving (r : t) : t := mk (elements r) true.

Definition handleAddedNode (e : Dom.ElementData) (children : list Dom.Node)
    (m : JsMap.t SIDElement.t) : JsMap.t SIDElement.t :=
  let m := if Dom.hasAttribute e "data-sid" then register m e else m in
  let descendants := Dom.querySelectorAll_data_sid children in
  fold_left (fun m ec => register m (fst ec)) descendants m.

Definition unregister (m : JsMap.t SIDElement.t) (el : Dom.ElementData) : JsMap.t SIDElement.t :=
  match Dom.getAttribute el "data-sid" with
  | Some id => if JsString.truthy id then JsMap.delete m id else m
  | None => m
  end.

Definition handleRemovedNode (e : Dom.ElementData) (children : list Dom.Node)
    (m : JsMap.t SIDElement.t) : JsMap.t SIDElement.t :=
  let m := unregister m e in
  let descendants := Dom.querySelectorAll_data_sid children in
  fold_left (fun m ec => unregister m (fst ec)) descendants m.

(** The loop over the entries that removes the first one whose selector
    resolves to [element], then stops. *)
Fixpoint removeStale (doc : Dom.Document) (element : Dom.ElementData)
    (entries : list (string * SIDElement.t)) (m : JsMap.t SIDElement.t) : JsMap.t SIDElement.t :=
  match entries with
  | [] => m
  | (id, sidEl) :: rest =>
      match querySelector doc (SIDElement.selector sidEl) with
      | Some domEl =>
          if (Dom.nid domEl =? Dom.nid element)%nat then JsMap.delete m id
          else removeStale doc element rest m
      | None => removeStale doc element rest m
      end
  end.

Definition handleAttributeChange (doc : Dom.Document) (element : Dom.ElementData)
    (attributeName : option string) (m : JsMap.t SIDElement.t) : JsMap.t SIDElement.t :=
  match JsString.or_undefined attributeName with
  | None => m
  | Some attributeName =>
      if String.eqb attributeName "data-sid" then
        match JsString.or_undefined (Dom.getAttribute element "data-sid") with
        | Some newId => register m element
        | None => removeStale doc element m m
        end
      else
        match JsString.or_undefined (Dom.getAttribute element "data-sid") with
        | Some id => if JsMap.has m id then register m element else m
        | None => m
        end
  end.

Definition handleMutation (doc : Dom.Document) (m : JsMap.t SIDElement.t)
    (mutation : MutationRecord) : JsMap.t SIDElement.t :=
  match mutation with
  | ChildList addedNodes removedNodes =>
      let m := fold_left (fun m node =>
                 match node with
                 | Dom.Element e children =>
                     if Dom.is_HTMLElement e then handleAddedNode e children m else m
                 | Dom.TextNode _ => m
                 end) addedNodes m in
      fold_left (fun m node =>
                 match node with
                 | Dom.Element e children =>
                     if Dom.is_HTMLElement e then handleRemovedNode e children m else m
                 | Dom.TextNode _ => m
                 end) removedNodes m
  | Attributes (Dom.Element e _) attributeName =>
      if Dom.is_HTMLElement e then handleAttributeChange doc e attributeName m else m
  | Attributes (Dom.TextNode _) _ => m
  | CharacterData _ => m
  end.

Definition handleMutations (doc : Dom.Document) (mutations : list MutationRecord) (r : t) : t :=
  mk (fold_left (handleMutation doc) mutations (elements r)) (observer r).

Definition destroy (r : t) : t := mk (JsMap.clear (elements r)) false.

(** [new ElementRegistry(observeDOM)] on the document [doc]. *)
Definition create (observeDOM : bool) (doc : Dom.Document) : t :=
  let r := scanDocument doc (mk [] false) in
  if observeDOM then startObserving r else r.

(** What can happen to a registry after its construction. The observer
    callback runs only while an observer is installed. *)
Inductive Call : Type :=
  | CallScanDocument (doc : Dom.Document)
  | CallStartObserving
  | CallObserved (doc : Dom.Document) (mutations : list MutationRecord)
  | CallDestroy.

Definition step (r : t) (c : Call) : t :=
  match c with
  | CallScanDocument doc => scanDocument doc r
  | CallStartObserving => startObserving r
  | CallObserved doc mutations => if observer r then handleMutations doc mutations r else r
  | CallDestroy => destroy r
  end.

Definition run (calls : list Call) (r : t) : t := fold_left step calls r.

End WithHost.
End ElementRegistry.

(** ** operation-tracker.ts *)

Module OperationEffects.
Record t := mk {
  navigatedTo : option string;
  elementsAdded : option (list string);
  elementsRemoved : option (list string);
  changes : option string;
}.
End OperationEffects.

Module Operation.
Record t := mk {
  id : string;
  elementId : string;
  actionType : string;
  status : string;
  message : option string;
  startedAt : N;
  completedAt : option N;
  effects : option OperationEffects.t;
}.
End Operation.

Module OperationTracker.

(** The counter is a JavaScript number holding a non-negative integer: it
    starts at 0 and only [start] changes it, so it is at most 2^53. *)
Record t := mk {
  operations : gmap string Operation.t;
  idCounter : N;
}.

Definition create : t := mk ∅ 0.

(** [start]; [now] is the value of [Date.now()]. *)
Definition start (elementId actionType : string) (now : N) (tr : t) : Operation.t * t :=
  let idCounter' := JsNumber.increment (idCounter tr) in
  let id := "op-" +:+ pretty idCounter' in
  let operation := Operation.mk id elementId actionType "pending" None now None None in
  (operation, mk (<[id := operation]> (operations tr)) idCounter').

Definition complete (id : string) (status : string) (message : option string)
    (effects : option OperationEffects.t) (now : N) (tr : t) : t :=
  match operations tr !! id with
  | None => tr
  | Some operation =>
      if negb (String.eqb (Operation.status operation) "pending") then tr
      else
        let operation' :=
          Operation.mk (Operation.id operation) (Operation.elementId operation)
            (Operation.actionType operation) status
            (match message with Some m => Some m | None => Operation.message operation end)
            (Operation.startedAt operation) (Some now)
            (match effects with Some e => Some e | None => Operation.effects operation end) in
        mk (<[id := operation']> (operations tr)) (idCounter tr)
  end.

Definition get (id : string) (tr : t) : option Operation.t := operations tr !! id.

Definition clear (tr : t) : t := mk ∅ (idCounter tr).

(** Calls on a tracker. [poll] only reads the store and is left out. *)
Inductive Call : Type :=
  | CallStart (elementId actionType : string) (now : N)
  | CallComplete (id status : string) (message : option string)
      (effects : option OperationEffects.t) (now : N)
  | CallGet (id : string)
  | CallClear.

(** One call: the new tracker and the identifier allocated, if any. *)
Definition step (tr : t) (c : Call) : t * option string :=
  match c with
  | CallStart elementId actionType now =>
      let '(operation, tr') := start elementId actionType now tr in
      (tr', Some (Operation.id operation))
  | CallComplete id status message effects now =>
      (complete id status message effects now tr, None)
  | CallGet _ => (tr, None)
  | CallClear => (clear tr, None)
  end.

(** A sequence of calls: the final tracker and the identifiers allocated,
    in order of allocation. *)
Fixpoint run (calls : list Call) (tr : t) : t * list string :=
  match calls with
  | [] => (tr, [])
  | c :: rest =>
      let '(tr', allocated) := step tr c in
      let '(tr'', ids) := run rest tr' in
      (tr'', match allocated with Some id => id :: ids | None => ids end)
  end.

(** [poll]. The promise it returns is rejected with an error, resolved
    with an operation, or still open. *)
Inductive PollOutcome : Type :=
  | PollResolved (operation : Operation.t)
  | PollNotFound (message : string)
  | PollTimeout (message : string) (operationId : string) (timeoutMs : Z)
  | PollOpen.

Definition notFoundMessage (id : string) : string :=
  "Operation " +:+ JsString.dquote +:+ id +:+ JsString.dquote +:+ " not found".

Section WithHost.
Context `{Host}.

(** The message of an [OperationTimeoutError]. *)
Definition timeoutMessage (operationId : string) (timeoutMs : Z) : string :=
  "Operation " +:+ JsString.dquote +:+ operationId +:+ JsString.dquote
    +:+ " timed out after " +:+ JsNumber.toString timeoutMs +:+ "ms".

Definition isCompleted (operation : Operation.t) : bool :=
  String.eqb (Operation.status operation) "success"
  || String.eqb (Operation.status operation) "error".

(** The runs of [checkStatus]. The host runs it [intervalMs] after the call
    of [poll] and after each run that schedules the next one; [checks]
    gives, for each run in turn, the tracker and the value of [Date.now()]
    as they are at that run. When the runs given are used up the next one
    is scheduled and the promise is open. *)
Fixpoint checkStatus (id : string) (timeoutMs : Z) (startTime : N) (checks : list (t * N))
    : PollOutcome :=
  match checks with
  | [] => PollOpen
  | (tr, now) :: rest =>
      match operations tr !! id with
      | None => PollNotFound (notFoundMessage id)
      | Some currentOperation =>
          if isCompleted currentOperation then PollResolved currentOperation
          else
            let elapsed := (Z.of_N now - Z.of_N startTime)%Z in
            if (timeoutMs <=? elapsed)%Z then PollTimeout (timeoutMessage id timeoutMs) id timeoutMs
            else checkStatus id timeoutMs startTime rest
      end
  end.

(** [poll(id, timeoutMs, intervalMs)] on the tracker [tr] at the time
    [startTime], followed by the runs [checks] of [checkStatus]. *)
Definition poll (id : string) (timeoutMs : Z) (tr : t) (startTime : N)
    (checks : list (t * N)) : PollOutcome :=
  match operations tr !! id with
  | None => PollNotFound (notFoundMessage id)
  | Some operation =>
      if isCompleted operation then PollResolved operation
      else checkStatus id timeoutMs startTime checks
  end.

End WithHost.

End OperationTracker.

(** ** context-parser.ts *)

Module SIDContextMetadata.
Record t := mk {
  version : option string;
  app : option string;
  page : option string;
  auth : option string;
}.
(** The object literal [{}]. *)
Definition empty : t := mk None None None None.
End SIDContextMetadata.

Module ContextParser.

(** The module variables [cachedContext] and [contextParsed], and the
    objects the module has created: an object reference is an address in
    [heap], and every object literal allocates a fresh address. *)
Record State := mk {
  cachedContext : option nat;
  contextParsed : bool;
  heap : gmap nat SIDContextMetadata.t;
  nextRef : nat;
}.

Definition initial : State := mk None false ∅ 0.

(** Evaluate an object literal in the state [st], with the module
    variables set to [cached] and [parsed]. *)
Definition alloc (o : SIDContextMetadata.t) (cached : option nat) (parsed : bool)
    (st : State) : nat * State :=
  (nextRef st, mk cached parsed (<[nextRef st := o]> (heap st)) (S (nextRef st))).

(** [document.querySelector('script[type="application/sid+json"]')]. *)
Definition findContextScript (doc : Dom.Document) : option (Dom.ElementData * list Dom.Node) :=
  List.find
    (fun ec => String.eqb (Dom.tagName (fst ec)) "script"
               && match Dom.getAttribute (fst ec) "type" with
                  | Some v => String.eqb (JsString.toLowerCase v) "application/sid+json"
                  | None => false
                  end)
    (Dom.elements_of_list doc).

Definition string_field (parsed : json) (name : string) : option string :=
  match json_get parsed name with
  | Some (JString s) => Some s
  | _ => None
  end.

Section WithHost.
Context `{Host}.

(** [parseContextScript]; [doc] is [None] where [document] is undefined.
    The result is the reference returned. *)
Definition parseContextScript (doc : option Dom.Document) (st : State) : nat * State :=
  if contextParsed st then
    match cachedContext st with
    | Some r => (r, st)
    | None => alloc SIDContextMetadata.empty None true st
    end
  else
    match doc with
    | None => alloc SIDContextMetadata.empty (cachedContext st) true st
    | Some document =>
        match findContextScript document with
        | None => alloc SIDContextMetadata.empty None true st
        | Some (_, children) =>
            let scriptContent := Dom.textContent children in
            if negb (JsString.truthy scriptContent)
               || negb (JsString.truthy (JsString.trim scriptContent))
            then alloc SIDContextMetadata.empty None true st
            else
              match JSON_parse (JsString.trim scriptContent) with
              | None => alloc SIDContextMetadata.empty None true st      (* catch *)
              | Some parsed =>
                  match parsed with
                  | JObject _ =>
                      let o := SIDContextMetadata.mk
                                 (string_field parsed "version") (string_field parsed "app")
                                 (string_field parsed "page") (string_field parsed "auth") in
                      alloc o (Some (nextRef st)) true st
                  | _ => alloc SIDContextMetadata.empty None true st
                  end
              end
        end
    end.

Definition getContextMetadata (doc : option Dom.Document) (st : State) : nat * State :=
  parseContextScript doc st.

Definition clearContextCache (st : State) : State :=
  mk None false (heap st) (nextRef st).

(** Successive calls of [getContextMetadata], the document at each call
    given by [docs]; the references returned, in order. *)
Fixpoint getContextMetadata_seq (docs : list (option Dom.Document)) (st : State)
    : list nat * State :=
  match docs with
  | [] => ([], st)
  | doc :: rest =>
      let '(r, st') := getContextMetadata doc st in
      let '(rs, st'') := getContextMetadata_seq rest st' in
      (r :: rs, st'')
  end.

(** The getters read a field of the object that [parseContextScript]
    returns: [context.app || ''] and the like. *)
Definition getAppContext (doc : option Dom.Document) (st : State) : string * State :=
  let '(context, st') := parseContextScript doc st in
  (JsString.or_else (heap st' !! context ≫= SIDContextMetadata.app) "", st').

Definition getPageContext (doc : option Dom.Document) (st : State) : string * State :=
  let '(context, st') := parseContextScript doc st in
  (JsString.or_else (heap st' !! context ≫= SIDContextMetadata.page) "", st').

Definition getAuthDescription (doc : option Dom.Document) (st : State) : string * State :=
  let '(context, st') := parseContextScript doc st in
  (JsString.or_else (heap st' !! context ≫= SIDContextMetadata.auth) "", st').

End WithHost.
End ContextParser.

(** ** interaction-executor.ts *)

Module InteractionAction.
(** [string | number | boolean | File | undefined]; numbers are integers. *)
Inductive Value : Type :=
  | Undefined
  | Str (s : string)
  | Num (z : Z)
  | Bool (b : bool)
  | FileValue (name : string).
Record t := mk {
  type : string;
  value : Value;
}.
End InteractionAction.

Module InteractionOptions.
Record t := mk { timeout : option N }.
Definition empty : t := mk None.
End InteractionOptions.

Module InteractionResult.
Record t := mk {
  success : bool;
  status : string;
  error : option string;
  message : option string;
  effects : option OperationEffects.t;
}.
End InteractionResult.

Module CompletionResult.
Record t := mk {
  status : string;
  message : option string;
  effects : option OperationEffects.t;
}.
End CompletionResult.

Module InteractionExecutor.

Definition DEFAULT_TIMEOUT_MS : N := 30000.

(** The native operations the executor issues on a node, named by the
    identity of the node. *)
Inductive DomEvent : Type :=
  | NewEvent (type : string) (bubbles cancelable : bool)
  | NewMouseEvent (type : string) (bubbles cancelable : bool).

Inductive DomOp : Type :=
  | Click (target : nat)
  | SetValue (target : nat) (value : string)
  | SetChecked (target : nat) (checked : bool)
  | SetFiles (target : nat) (file : string)
  | DispatchEvent (target : nat) (event : DomEvent).

(** The callback given to [setTimeout], by the variables it closes over. *)
Record Timer := mkTimer {
  due : N;
  timer_id : string;
  timer_promise : nat;
  timer_timeout : N;
}.

(** The [resolve] closure stored in a pending operation, by the variables
    it closes over. *)
Record Resolver := mkResolver {
  resolver_timeoutId : nat;
  resolver_id : string;
  resolver_promise : nat;
}.

Record PendingOperation := mkPending {
  resolve : Resolver;
  timeoutId : nat;
}.

(** The executor with the part of the event loop it uses: the active
    timers, the promises already settled with their results, the clock
    (milliseconds), and the native operations issued so far. *)
Record t := mk {
  pendingOperations : gmap string PendingOperation;
  timers : gmap nat Timer;
  nextTimer : nat;
  settled : gmap nat InteractionResult.t;
  nextPromise : nat;
  clock : N;
  native : list DomOp;
}.

Definition create : t := mk ∅ ∅ 0 ∅ 0 0 [].

(** What [execute] hands back: a result available at once, or the promise
    created for a tracked operation. *)
Inductive Outcome : Type :=
  | Returned (r : InteractionResult.t)
  | Waiting (promise : nat).

Definition outcome_result (o : Outcome) (ex : t) : option InteractionResult.t :=
  match o with
  | Returned r => Some r
  | Waiting p => settled ex !! p
  end.

Section WithHost.
Context `{Host}.

(** [String(action.value ?? '')]. *)
Definition value_to_string (v : InteractionAction.Value) : string :=
  match v with
  | InteractionAction.Undefined => ""
  | InteractionAction.Str s => s
  | InteractionAction.Num z => JsNumber.toString z
  | InteractionAction.Bool b => if b then "true" else "false"
  | InteractionAction.FileValue _ => "[object File]"
  end.

(** [Boolean(action.value)]. *)
Definition value_to_boolean (v : InteractionAction.Value) : bool :=
  match v with
  | InteractionAction.Undefined => false
  | InteractionAction.Str s => JsString.truthy s
  | InteractionAction.Num z => negb (z =? 0)%Z
  | InteractionAction.Bool b => b
  | InteractionAction.FileValue _ => true
  end.

Definition executeClick (el : Dom.ElementData) : list DomOp := [Click (Dom.nid el)].

Definition executeFill (el : Dom.ElementData) (value : string) : list DomOp :=
  [SetValue (Dom.nid el) value;
   DispatchEvent (Dom.nid el) (NewEvent "input" true true);
   DispatchEvent (Dom.nid el) (NewEvent "change" true true)].

Definition executeSelect (el : Dom.ElementData) (value : string) : list DomOp :=
  [SetValue (Dom.nid el) value;
   DispatchEvent (Dom.nid el) (NewEvent "change" true true)].

Definition executeCheck (el : Dom.ElementData) (checked : bool) : list DomOp :=
  [SetChecked (Dom.nid el) checked;
   DispatchEvent (Dom.nid el) (NewEvent "change" true true)].

Definition executeHover (el : Dom.ElementData) : list DomOp :=
  [DispatchEvent (Dom.nid el) (NewMouseEvent "mouseenter" false false);
   DispatchEvent (Dom.nid el) (NewMouseEvent "mouseover" true true)].

Definition executeUpload (el : Dom.ElementData) (file : string) : list DomOp :=
  [SetFiles (Dom.nid el) file;
   DispatchEvent (Dom.nid el) (NewEvent "change" true true)].

(** [triggerAction]: the message of the error thrown, or the native
    operations performed. Every throw precedes the first operation: the
    errors the code throws itself, the [TypeError] of [el.click()] on a
    node that is not an [HTMLElement] and so has no such method, and the
    [InvalidStateError] of [el.value = value] on a file input, whose value
    can only be set to the empty string. *)
Definition triggerAction (domElement : Dom.ElementData) (action : InteractionAction.t)
    : string + list DomOp :=
  let type := InteractionAction.type action in
  let value := InteractionAction.value action in
  if String.eqb type "click" then
    if negb (Dom.is_HTMLElement domElement)
    then inl (TypeError_not_a_function "click")          (* thrown by [el.click()] *)
    else inr (executeClick domElement)
  else if String.eqb type "fill" then
    if negb (Dom.is_HTMLInputElement domElement || Dom.is_HTMLTextAreaElement domElement)
    then inl "Element is not a fillable input element"
    else if Dom.is_HTMLInputElement domElement
            && String.eqb (Dom.input_type domElement) "file"
            && JsString.truthy (value_to_string value)
    then inl InvalidStateError_file_value                (* thrown by [el.value = value] *)
    else inr (executeFill domElement (value_to_string value))
  else if String.eqb type "select" then
    if negb (Dom.is_HTMLSelectElement domElement)
    then inl "Element is not a select element"
    else inr (executeSelect domElement (value_to_string value))
  else if String.eqb type "check" then
    if negb (Dom.is_HTMLInputElement domElement)
    then inl "Element is not a checkable input element"
    else inr (executeCheck domElement (value_to_boolean value))
  else if String.eqb type "hover" then inr (executeHover domElement)
  else if String.eqb type "upload" then
    if negb (Dom.is_HTMLInputElement domElement)
       || negb (String.eqb (Dom.input_type domElement) "file")
    then inl "Element is not a file input element"
    else match value with
         | InteractionAction.FileValue file => inr (executeUpload domElement file)
         | _ => inl "Upload action requires a File value"
         end
  else inl ("Invalid action type: " +:+ type).

Definition errorResult (error : string) : InteractionResult.t :=
  InteractionResult.mk false "error" (Some error) None None.

(** [setTimeout], [clearTimeout], and the settling of a promise (a promise
    settles once; later calls of its [resolve] do nothing). The timer
    [cb] carries the time at which it is due: the time of the call plus
    the delay the host makes of the timeout. *)
Definition setTimeout (cb : Timer) (ex : t) : nat * t :=
  (nextTimer ex,
   mk (pendingOperations ex) (<[nextTimer ex := cb]> (timers ex)) (S (nextTimer ex))
      (settled ex) (nextPromise ex) (clock ex) (native ex)).

Definition clearTimeout (timeoutId : nat) (ex : t) : t :=
  mk (pendingOperations ex) (delete timeoutId (timers ex)) (nextTimer ex)
     (settled ex) (nextPromise ex) (clock ex) (native ex).

Definition newPromise (ex : t) : nat * t :=
  (nextPromise ex,
   mk (pendingOperations ex) (timers ex) (nextTimer ex)
      (settled ex) (S (nextPromise ex)) (clock ex) (native ex)).

Definition resolvePromise (p : nat) (r : InteractionResult.t) (ex : t) : t :=
  match settled ex !! p with
  | Some _ => ex
  | None =>
      mk (pendingOperations ex) (timers ex) (nextTimer ex)
         (<[p := r]> (settled ex)) (nextPromise ex) (clock ex) (native ex)
  end.

Definition pendingSet (id : string) (po : PendingOperation) (ex : t) : t :=
  mk (<[id := po]> (pendingOperations ex)) (timers ex) (nextTimer ex)
     (settled ex) (nextPromise ex) (clock ex) (native ex).

Definition pendingDelete (id : string) (ex : t) : t :=
  mk (delete id (pendingOperations ex)) (timers ex) (nextTimer ex)
     (settled ex) (nextPromise ex) (clock ex) (native ex).

Definition perform (ops : list DomOp) (ex : t) : t :=
  mk (pendingOperations ex) (timers ex) (nextTimer ex)
     (settled ex) (nextPromise ex) (clock ex) (native ex ++ ops).

(** The body of the timer callback of [execute]. *)
Definition timeoutResult (timeout : N) : InteractionResult.t :=
  InteractionResult.mk true "timeout" None
    (Some ("Operation timed out after " +:+ JsNumber.toString (Z.of_N timeout) +:+ "ms")) None.

Definition runTimerCallback (cb : Timer) (ex : t) : t :=
  resolvePromise (timer_promise cb) (timeoutResult (timer_timeout cb))
    (pendingDelete (timer_id cb) ex).

(** The body of the stored [resolve] closure: [{ success: true, ...result }]. *)
Definition runResolver (r : Resolver) (result : CompletionResult.t) (ex : t) : t :=
  resolvePromise (resolver_promise r)
    (InteractionResult.mk true (CompletionResult.status result) None
       (CompletionResult.message result) (CompletionResult.effects result))
    (pendingDelete (resolver_id r) (clearTimeout (resolver_timeoutId r) ex)).

Definition execute (registry : ElementRegistry.t) (document : Dom.Document)
    (id : string) (action : InteractionAction.t) (options : InteractionOptions.t)
    (ex : t) : Outcome * t :=
  let timeout := default DEFAULT_TIMEOUT_MS (InteractionOptions.timeout options) in
  match ElementRegistry.get registry id with
  | None => (Returned (errorResult ("Element not found: " +:+ id)), ex)
  | Some sidElement =>
      if SIDElement.disabled sidElement then
        let errorMessage :=
          match JsString.or_undefined (SIDElement.disabledDescription sidElement) with
          | Some d => "Element is disabled: " +:+ d
          | None => "Element is disabled: " +:+ id
          end in
        (Returned (errorResult errorMessage), ex)
      else
        match ElementRegistry.querySelector document (SIDElement.selector sidElement) with
        | None => (Returned (errorResult ("Element not found in DOM: " +:+ id)), ex)
        | Some domElement =>
            let attrs := AttributeParser.parseAttributes domElement in
            let trackingType :=
              JsString.or_else (ParsedAttributes.tracking <$> attrs) "async" in
            let failed msg := errorResult ("Action execution failed: " +:+ msg) in
            if String.eqb trackingType "none" then
              match triggerAction domElement action with
              | inr ops =>
                  (Returned (InteractionResult.mk true "completed" None
                     (Some (InteractionAction.type action +:+ " executed on " +:+ id)) None),
                   perform ops ex)
              | inl msg => (Returned (failed msg), ex)
              end
            else if String.eqb trackingType "navigation" then
              match triggerAction domElement action with
              | inr ops =>
                  (Returned (InteractionResult.mk true "navigation" None
                     (Some (JsString.or_else (attrs ≫= ParsedAttributes.destination)
                              "Navigation triggered")) None),
                   perform ops ex)
              | inl msg => (Returned (failed msg), ex)
              end
            else if String.eqb trackingType "external" then
              match triggerAction domElement action with
              | inr ops =>
                  (Returned (InteractionResult.mk true "external" None
                     (Some (JsString.or_else (Some (SIDElement.description sidElement))
                              "External operation triggered")) None),
                   perform ops ex)
              | inl msg => (Returned (failed msg), ex)
              end
            else
              let '(promise, ex) := newPromise ex in
              let '(timeoutId, ex) :=
                setTimeout (mkTimer (clock ex + setTimeout_delay timeout) id promise timeout) ex in
              let ex := pendingSet id (mkPending (mkResolver timeoutId id promise) timeoutId) ex in
              match triggerAction domElement action with
              | inr ops => (Waiting promise, perform ops ex)
              | inl msg =>
                  (Waiting promise,
                   resolvePromise promise (failed msg)
                     (pendingDelete id (clearTimeout timeoutId ex)))
              end
        end
  end.


Definition complete (elementId : string) (result : CompletionResult.t) (ex : t) : t :=
  match pendingOperations ex !! elementId with
  | Some pending =>
      runResolver (resolve pending)
        (CompletionResult.mk (CompletionResult.status result)
           (CompletionResult.message result) (CompletionResult.effects result)) ex
  | None => ex
  end.

(** The event loop. A timer that is due runs once and is then gone; due
    timers run in the order of their due time, then of their creation. *)
Definition timer_before (a b : nat * Timer) : Prop :=
  (due (snd a) < due (snd b))%N \/ (due (snd a) = due (snd b) /\ fst a <= fst b).

Global Instance timer_before_dec : RelDecision timer_before.
Proof. intros a b. unfold timer_before. apply _. Defined.

Definition fireTimer (ex : t) (entry : nat * Timer) : t :=
  match timers ex !! fst entry with
  | Some cb => runTimerCallback cb (clearTimeout (fst entry) ex)
  | None => ex
  end.

Definition dueTimers (ex : t) : list (nat * Timer) :=
  merge_sort timer_before
    (List.filter (fun e => (due (snd e) <=? clock ex)%N) (map_to_list (timers ex))).

(** Let [dt] milliseconds pass and run the timers that have become due. *)
Definition advance (dt : N) (ex : t) : t :=
  let ex := mk (pendingOperations ex) (timers ex) (nextTimer ex)
               (settled ex) (nextPromise ex) (clock ex + dt) (native ex) in
  fold_left fireTimer (dueTimers ex) ex.

(** What happens to an executor: a call of [execute] (with the registry
    and the document as they are at the call), a call of [complete], or
    the passing of time. *)
Inductive Event : Type :=
  | EvExecute (registry : ElementRegistry.t) (document : Dom.Document)
      (id : string) (action : InteractionAction.t) (options : InteractionOptions.t)
  | EvComplete (elementId : string) (result : CompletionResult.t)
  | EvAdvance (dt : N).

Definition step (ex : t) (ev : Event) : t :=
  match ev with
  | EvExecute registry document id action options =>
      snd (execute registry document id action options ex)
  | EvComplete elementId result => complete elementId result ex
  | EvAdvance dt => advance dt ex
  end.

Definition run (evs : list Event) (ex : t) : t := fold_left step evs ex.

(** The states an executor can be in. *)
Definition reachable (ex : t) : Prop := exists evs, ex = run evs create.

End WithHost.
End InteractionExecutor.

(** ** A sample host and pages, for the closed examples

    [exampleHost] agrees with the browser on the few inputs used below:
    [JSON.parse] of [null], [[]], [{}] and [exampleContextJson], a syntax
    error on the other texts that occur, and [CSS.escape] on identifiers
    made of letters, digits and hyphens. Its timers take the delay the
    HTML standard makes of a timeout, and the texts of the two errors of
    the DOM are samples. *)

(** The text [{"app":"Shop"}]. *)
Definition exampleContextJson : string :=
  "{" +:+ JsString.dquote +:+ "app" +:+ JsString.dquote +:+ ":"
      +:+ JsString.dquote +:+ "Shop" +:+ JsString.dquote +:+ "}".

(** The delay of a timer in a browser: the timeout is converted to a
    signed 32-bit integer, and a negative delay counts as 0. *)
Definition htmlTimerDelay (timeout : N) : N :=
  let wrapped := (timeout mod 2 ^ 32)%N in
  if (wrapped <? 2 ^ 31)%N then wrapped else 0%N.

Definition htmlTimerDelay_exact (timeout : N) (Hsmall : (timeout < 2 ^ 31)%N)
    : htmlTimerDelay timeout = timeout :=
  ltac:(unfold htmlTimerDelay; cbn zeta;
        rewrite N.mod_small by (eapply N.lt_trans; [exact Hsmall | reflexivity]);
        apply N.ltb_lt in Hsmall; rewrite Hsmall; reflexivity).

(** The sample host. It escapes nothing in selectors, and it is asked for
    no number beyond the safe integers. *)
Definition exampleHost : Host := {|
  JSON_parse := fun s =>
    if String.eqb s "null" then Some JNull
    else if String.eqb s "[]" then Some (JArray [])
    else if String.eqb s "{}" then Some (JObject [])
    else if String.eqb s exampleContextJson then Some (JObject [("app", JString "Shop")])
    else None;
  CSS_escape := fun s => s;
  Number_toString_large := fun n => pretty n;
  setTimeout_delay := htmlTimerDelay;
  setTimeout_delay_exact := htmlTimerDelay_exact;
  TypeError_not_a_function := fun name => "el." +:+ name +:+ " is not a function";
  InvalidStateError_file_value := "This input element accepts a filename";
|}.

Definition exampleButton (nid : nat) (attributes : list (string * string)) : Dom.Node :=
  Dom.Element (Dom.Build_ElementData Dom.Html nid "button" attributes) [].

Definition exampleClick : InteractionAction.t :=
  InteractionAction.mk "click" InteractionAction.Undefined.

(** A page with one annotated button, tracking kind [async] by default. *)
Definition exampleDocument : Dom.Document := [exampleButton 1 [("data-sid", "e1")]].

Definition exampleRegistry : ElementRegistry.t :=
  ElementRegistry.create (H := exampleHost) true exampleDocument.

Definition exampleElement : SIDElement.t :=
  ElementRegistry.convertToSIDElement (H := exampleHost)
    (ParsedAttributes.mk "e1" "" None "click" None None "async" None None false None).

Definition exampleOptions : InteractionOptions.t := InteractionOptions.mk (Some 50%N).

Definition exampleCompletion : CompletionResult.t :=
  CompletionResult.mk "completed" (Some "ok") None.

Definition exampleFailure : CompletionResult.t :=
  CompletionResult.mk "error" (Some "rejected") None.

(** The executor after one tracked call on ["e1"] with a timeout of 50 ms. *)
Definition exampleWaiting : InteractionExecutor.t :=
  (InteractionExecutor.execute (H := exampleHost) exampleRegistry exampleDocument
     "e1" exampleClick exampleOptions InteractionExecutor.create).2.

(** The executor after a second tracked call on ["e1"], 20 ms later. *)
Definition exampleReplaced : InteractionExecutor.t :=
  (InteractionExecutor.execute (H := exampleHost) exampleRegistry exampleDocument
     "e1" exampleClick exampleOptions
     (InteractionExecutor.advance (H := exampleHost) 20 exampleWaiting)).2.

(** A timeout of 2^31 ms, and the executor after one tracked call on
    ["e1"] with this timeout. *)
Definition longOptions : InteractionOptions.t := InteractionOptions.mk (Some 2147483648%N).

Definition exampleLongWait : InteractionExecutor.t :=
  (InteractionExecutor.execute (H := exampleHost) exampleRegistry exampleDocument
     "e1" exampleClick longOptions InteractionExecutor.create).2.

(** A [fill] action, which a button does not support. *)
Definition exampleFill : InteractionAction.t :=
  InteractionAction.mk "fill" (InteractionAction.Str "a@b.com").

(** The executor after a tracked call on ["e1"] whose dispatch throws. *)
Definition exampleFailed : InteractionExecutor.t :=
  (InteractionExecutor.execute (H := exampleHost) exampleRegistry exampleDocument
     "e1" exampleFill exampleOptions InteractionExecutor.create).2.

(** A page with the metadata block [exampleContextJson]. *)
Definition contextDocument : Dom.Document :=
  [Dom.Element (Dom.Build_ElementData Dom.Html 7 "script" [("type", "application/sid+json")])
     [Dom.TextNode exampleContextJson]].

(** The context reader after a first read of [contextDocument]. *)
Definition exampleCachedRead : nat * ContextParser.State :=
  ContextParser.getContextMetadata (H := exampleHost) (Some contextDocument)
    ContextParser.initial.

(** The reads that follow it, after the block has been removed from the
    page and where there is no document. *)
Definition exampleCachedLaterReads : list nat * ContextParser.State :=
  ContextParser.getContextMetadata_seq (H := exampleHost) [Some []; None] exampleCachedRead.2.

(** A page without a metadata block, read once and then twice more. *)
Definition exampleFirstRead : nat * ContextParser.State :=
  ContextParser.getContextMetadata (H := exampleHost) (Some []) ContextParser.initial.

Definition exampleLaterReads : list nat * ContextParser.State :=
  ContextParser.getContextMetadata_seq (H := exampleHost) [Some []; Some []] exampleFirstRead.2.

(** A page whose button is disabled, with a reason. *)
Definition lockedDocument : Dom.Document :=
  [exampleButton 1 [("data-sid", "e1"); ("data-sid-disabled", "true");
                    ("data-sid-disabled-desc", "locked")]].

Definition lockedRegistry : ElementRegistry.t :=
  ElementRegistry.create (H := exampleHost) true lockedDocument.

(** A page on which two buttons carry the same identifier. *)
Definition duplicateDocument : Dom.Document :=
  [exampleButton 1 [("data-sid", "e1"); ("data-sid-tracking", "none")];
   exampleButton 2 [("data-sid", "e1"); ("data-sid-tracking", "none")]].

Definition duplicateRegistry : ElementRegistry.t :=
  ElementRegistry.create (H := exampleHost) true duplicateDocument.

(** A human-input requirement, and a host that parses it. *)
Definition humanInputJson : string :=
  "{" +:+ JsString.dquote +:+ "reason" +:+ JsString.dquote +:+ ":"
      +:+ JsString.dquote +:+ "Card" +:+ JsString.dquote +:+ ","
      +:+ JsString.dquote +:+ "schema" +:+ JsString.dquote +:+ ":{}}".

Definition humanInputHost : Host := {|
  JSON_parse := fun s =>
    if String.eqb s humanInputJson
    then Some (JObject [("reason", JString "Card"); ("schema", JObject [])])
    else None;
  CSS_escape := fun s => s;
  Number_toString_large := fun n => pretty n;
  setTimeout_delay := htmlTimerDelay;
  setTimeout_delay_exact := htmlTimerDelay_exact;
  TypeError_not_a_function := fun name => "el." +:+ name +:+ " is not a function";
  InvalidStateError_file_value := "This input element accepts a filename";
|}.

(** A text field with an input constraint, options and a reason for being
    disabled. *)
Definition exampleField : Dom.ElementData :=
  Dom.Build_ElementData Dom.Html 3 "input"
    [("data-sid", "f1"); ("data-sid-action", " Fill "); ("data-sid-input", "text,required");
     ("data-sid-options", "a, b"); ("data-sid-tracking", "bogus");
     ("data-sid-disabled", "true")].

(** What the attribute parser makes of [exampleField]. *)
Definition exampleFieldAttributes : ParsedAttributes.t :=
  ParsedAttributes.mk "f1" "" None "fill"
    (Some (InputDefinition.mk "text" true (Some ["a"; "b"]))) (Some ["a"; "b"])
    "async" None None true None.

(** An SVG shape that carries an identifier, and a file input. *)
Definition exampleIcon : Dom.ElementData :=
  Dom.Build_ElementData Dom.Svg 9 "circle" [("data-sid", "icon")].

(** An SVG drawing; in the examples it holds the nodes of
    [duplicateDocument]. *)
Definition exampleDrawing : Dom.ElementData := Dom.Build_ElementData Dom.Svg 6 "svg" [].

Definition exampleFileInput : Dom.ElementData :=
  Dom.Build_ElementData Dom.Html 4 "input" [("data-sid", "f2"); ("type", "file")].

(** The button of [exampleDocument] after its identifier has been changed
    to ["e2"], and after its identifier has been removed. *)
Definition renamedButton : Dom.ElementData :=
  Dom.Build_ElementData Dom.Html 1 "button" [("data-sid", "e2")].

Definition strippedButton : Dom.ElementData := Dom.Build_ElementData Dom.Html 1 "button" [].

(** A panel that holds two buttons with the identifier ["e1"]. *)
Definition examplePanel : Dom.ElementData := Dom.Build_ElementData Dom.Html 5 "div" [].

(** The legacy tracker after one [start] at time 100, and after the
    completion of that operation at time 130. *)
Definition exampleTracker : OperationTracker.t :=
  (OperationTracker.start "e1" "click" 100 OperationTracker.create).2.

Definition exampleCompletedTracker : OperationTracker.t :=
  OperationTracker.complete "op-1" "success" (Some "done") None 130 exampleTracker.

(** Two calls of [start] with a [clear] in between. *)
Definition exampleCalls : list OperationTracker.Call :=
  [OperationTracker.CallStart "e1" "click" 100; OperationTracker.CallClear;
   OperationTracker.CallStart "e2" "fill" 120].

(** The legacy tracker after 2^53 calls of [start] and a [clear]. *)
Definition exhaustedTracker : OperationTracker.t := OperationTracker.mk ∅ (2 ^ 53).

(** The operation record of [exampleTracker]. *)
Definition exampleOperation : Operation.t :=
  Operation.mk "op-1" "e1" "click" "pending" None 100 None None.

(** * Vocabulary of the properties *)

Section Vocabulary.
Context `{Host}.

(** ** Legacy operation tracker *)

(** The identifier made from the counter value [n]. *)
Definition opId (n : N) : string := "op-" +:+ pretty n.

(** The number of calls of [start] in a sequence of calls. *)
Definition starts (calls : list OperationTracker.Call) : nat :=
  List.length
    (List.filter (fun c => match c with
                           | OperationTracker.CallStart _ _ _ => true
                           | _ => false
                           end) calls).

(** ** Element registry *)

(** The action kind a node declares: the value of its [data-sid-action]
    attribute, trimmed and in lower case, when that is one of the six
    kinds, and [click] when the attribute is absent or holds anything
    else. The tracking kind it declares, likewise, with [async]. *)
Definition declaredAction (el : Dom.ElementData) : string :=
  match Dom.getAttribute el "data-sid-action" with
  | Some a =>
      let kind := JsString.toLowerCase (JsString.trim a) in
      if bool_decide (kind ∈ AttributeParser.VALID_ACTION_TYPES) then kind else "click"
  | None => "click"
  end.

Definition declaredTracking (el : Dom.ElementData) : string :=
  match Dom.getAttribute el "data-sid-tracking" with
  | Some a =>
      let kind := JsString.toLowerCase (JsString.trim a) in
      if bool_decide (kind ∈ AttributeParser.VALID_TRACKING_TYPES) then kind else "async"
  | None => "async"
  end.

(** The nodes a registry has been given: those of the document at its
    construction, those of the documents it has scanned since, and, of the
    mutations reported to it, the inserted nodes with their descendants
    and the nodes whose attributes changed. *)
Definition nodesOfMutation (mutation : ElementRegistry.MutationRecord)
    : list Dom.ElementData :=
  match mutation with
  | ElementRegistry.ChildList addedNodes _ => List.map fst (Dom.elements_of_list addedNodes)
  | ElementRegistry.Attributes (Dom.Element e _) _ => [e]
  | _ => []
  end.

Definition nodesOfCall (c : ElementRegistry.Call) : list Dom.ElementData :=
  match c with
  | ElementRegistry.CallScanDocument doc => List.map fst (Dom.elements_of_list doc)
  | ElementRegistry.CallObserved _ mutations => flat_map nodesOfMutation mutations
  | _ => []
  end.

Definition nodesGiven (doc : Dom.Document) (calls : list ElementRegistry.Call)
    : list Dom.ElementData :=
  List.map fst (Dom.elements_of_list doc) ++ flat_map nodesOfCall calls.

(** An element description that is what [parseElement] makes of one of the
    nodes [given]. *)
Definition parsedFromNode (given : list Dom.ElementData) (e : SIDElement.t) : Prop :=
  exists el, el ∈ given /\ ElementRegistry.parseElement el = Some e.

Definition allParsed (given : list Dom.ElementData) (m : JsMap.t SIDElement.t) : Prop :=
  Forall (fun kv => parsedFromNode given (snd kv)) m.

(** ** Context reader *)

(** The document states in which the metadata block gives no context: the
    block is missing, its content is empty or only white space, its content
    is JSON but not an object, or its content is not JSON. *)
Inductive EmptyCase : option Dom.Document -> Prop :=
  | MissingBlock d :
      ContextParser.findContextScript d = None -> EmptyCase (Some d)
  | BlankContent d e children :
      ContextParser.findContextScript d = Some (e, children) ->
      JsString.trim (Dom.textContent children) = "" ->
      EmptyCase (Some d)
  | NonObjectJson d e children v :
      ContextParser.findContextScript d = Some (e, children) ->
      JSON_parse (JsString.trim (Dom.textContent children)) = Some v ->
      (forall fields, v <> JObject fields) ->
      EmptyCase (Some d)
  | MalformedJson d e children :
      ContextParser.findContextScript d = Some (e, children) ->
      JSON_parse (JsString.trim (Dom.textContent children)) = None ->
      EmptyCase (Some d).

(** ** Interaction executor *)

Import InteractionExecutor.

(** A call of [execute] that passes the preconditions on an element whose
    live tracking classification is [async] and whose native action is
    dispatched without an error: the call that is suspended. *)
Definition trackedCall (registry : ElementRegistry.t) (document : Dom.Document)
    (id : string) (action : InteractionAction.t) : Prop :=
  exists sidElement domElement ops,
    ElementRegistry.get registry id = Some sidElement
    /\ SIDElement.disabled sidElement = false
    /\ ElementRegistry.querySelector document (SIDElement.selector sidElement) = Some domElement
    /\ JsString.or_else (ParsedAttributes.tracking <$> AttributeParser.parseAttributes domElement)
         "async" = "async"
    /\ triggerAction domElement action = inr ops.

Definition effectiveTimeout (options : InteractionOptions.t) : N :=
  default DEFAULT_TIMEOUT_MS (InteractionOptions.timeout options).

(** The time that passes during a sequence of events. *)
Fixpoint elapsed (evs : list Event) : N :=
  match evs with
  | [] => 0
  | EvAdvance dt :: rest => dt + elapsed rest
  | _ :: rest => elapsed rest
  end.

(** Every passing of time in [evs] ends before [limit] milliseconds have
    passed in all: a timer due after [limit] milliseconds gets no chance to
    fire during [evs]. *)
Fixpoint staysBefore (limit : N) (evs : list Event) : Prop :=
  match evs with
  | [] => True
  | EvAdvance dt :: rest => (dt < limit)%N /\ staysBefore (limit - dt) rest
  | _ :: rest => staysBefore limit rest
  end.

(** The event is a completion signal for [id]. *)
Definition signals (id : string) (ev : Event) : Prop :=
  match ev with
  | EvComplete elementId _ => elementId = id
  | _ => False
  end.

(** The event is a call of [execute] on [id]. *)
Definition executesOn (id : string) (ev : Event) : Prop :=
  match ev with
  | EvExecute _ _ elementId _ _ => elementId = id
  | _ => False
  end.

(** The state after the bookkeeping of the tracked branch of [execute]:
    promise created, timer set, pending operation stored. *)
Definition registered (id : string) (timeout : N) (ex : t) : t :=
  mk (<[id := mkPending (mkResolver (nextTimer ex) id (nextPromise ex)) (nextTimer ex)]>
        (pendingOperations ex))
     (<[nextTimer ex := mkTimer (clock ex + setTimeout_delay timeout) id (nextPromise ex) timeout]>
        (timers ex))
     (S (nextTimer ex)) (settled ex) (S (nextPromise ex)) (clock ex) (native ex).

(** Consistency of the bookkeeping: timers and promises are created
    together, a stored resolver closes over the key it is stored under and
    over the timer created with it, and only promises already created are
    settled. *)
Record wf (ex : t) : Prop := {
  wf_counters : nextTimer ex = nextPromise ex;
  wf_timers : forall tid cb, timers ex !! tid = Some cb ->
      tid < nextTimer ex /\ timer_promise cb = tid;
  wf_pending : forall k po, pendingOperations ex !! k = Some po ->
      resolver_id (resolve po) = k
      /\ resolver_promise (resolve po) = resolver_timeoutId (resolve po)
      /\ resolver_timeoutId (resolve po) < nextTimer ex
      /\ (forall cb, timers ex !! resolver_timeoutId (resolve po) = Some cb -> timer_id cb = k);
  wf_settled : forall p, is_Some (settled ex !! p) -> p < nextPromise ex;
}.

(** The tracked call with timer and promise [tid], due at [d], is still
    waiting. *)
Definition inFlight (tid : nat) (d : N) (id : string) (timeout : N) (ex : t) : Prop :=
  timers ex !! tid = Some (mkTimer d id tid timeout)
  /\ settled ex !! tid = None
  /\ (clock ex <= d)%N.

(** The pending operation of [id] is the one of call [tid], and no other
    timer of an earlier call on [id] is active. *)
Definition soleEntry (tid : nat) (id : string) (ex : t) : Prop :=
  pendingOperations ex !! id = Some (mkPending (mkResolver tid id tid) tid)
  /\ (forall tid' cb, timers ex !! tid' = Some cb -> timer_id cb = id -> tid' = tid).

(** No stored resolver belongs to call [tid]. *)
Definition orphaned (tid : nat) (ex : t) : Prop :=
  forall k po, pendingOperations ex !! k = Some po -> resolver_timeoutId (resolve po) <> tid.

End Vocabulary.

(** * Further vocabulary *)

Section FurtherVocabulary.
Context `{Host}.

(** The number of occurrences of the character [c] in [s]. *)
Fixpoint countChar (c : ascii) (s : string) : nat :=
  match s with
  | EmptyString => 0
  | String c' s' => (if Ascii.eqb c' c then 1 else 0) + countChar c s'
  end.

(** The node carries the identifier [id] in its [data-sid] attribute. *)
Definition carriesId (id : string) (e : Dom.ElementData) : bool :=
  match Dom.getAttribute e "data-sid" with
  | Some v => String.eqb v id
  | None => false
  end.

(** The entries of a registry are stored under their own identifier, which
    is not empty, with the selector made from it, and no identifier occurs
    twice. *)
Definition keyed (m : JsMap.t SIDElement.t) : Prop :=
  Forall (fun kv => SIDElement.id kv.2 = kv.1
                    /\ SIDElement.selector kv.2 = ElementRegistry.generateSelector kv.1
                    /\ kv.1 <> "") m
  /\ NoDup m.*1.

(** The records of a tracker are stored under their own identifier, and
    every identifier in the store has been allocated: it is ["op-<n>"] for
    an [n] from 1 up to the counter. *)
Definition allocated (tr : OperationTracker.t) : Prop :=
  forall k op, OperationTracker.operations tr !! k = Some op ->
    Operation.id op = k
    /\ exists n, k = opId n /\ (1 <= n <= OperationTracker.idCounter tr)%N.

(** A string read from a JSON value, or the empty string. *)
Definition stringOr (parsed : json) (name : string) : string :=
  default "" (ContextParser.string_field parsed name).

(** The node a native operation acts on. *)
Definition opTarget (op : InteractionExecutor.DomOp) : nat :=
  match op with
  | InteractionExecutor.Click target
  | InteractionExecutor.SetValue target _
  | InteractionExecutor.SetChecked target _
  | InteractionExecutor.SetFiles target _
  | InteractionExecutor.DispatchEvent target _ => target
  end.

(** The preconditions of [execute] hold for [id] and the live node is
    [domElement], with the tracking kind [kind]. *)
Definition reaches (registry : ElementRegistry.t) (document : Dom.Document) (id : string)
    (sidElement : SIDElement.t) (domElement : Dom.ElementData) (kind : string) : Prop :=
  ElementRegistry.get registry id = Some sidElement
  /\ SIDElement.disabled sidElement = false
  /\ ElementRegistry.querySelector document (SIDElement.selector sidElement) = Some domElement
  /\ JsString.or_else
       (ParsedAttributes.tracking <$> AttributeParser.parseAttributes domElement) "async"
     = kind.

(** The bookkeeping of the executor accounts for every call: a pending
    operation has its timer running, a running timer belongs to a call
    that is not settled, and a call that is not settled has its timer
    running. *)
Record accounted (ex : InteractionExecutor.t) : Prop := {
  pending_has_timer : forall k po,
    InteractionExecutor.pendingOperations ex !! k = Some po ->
    InteractionExecutor.timeoutId po
      = InteractionExecutor.resolver_timeoutId (InteractionExecutor.resolve po)
    /\ is_Some (InteractionExecutor.timers ex !! InteractionExecutor.timeoutId po);
  timer_unsettled : forall tid cb,
    InteractionExecutor.timers ex !! tid = Some cb ->
    InteractionExecutor.settled ex !! tid = None;
  unsettled_has_timer : forall p,
    p < InteractionExecutor.nextPromise ex ->
    InteractionExecutor.settled ex !! p = None ->
    is_Some (InteractionExecutor.timers ex !! p);
}.

End FurtherVocabulary.

(** * Properties *)

(** ** Attribute parser *)

Section AttributeParserProperties.
Import AttributeParser.

Lemma isValidInputDataType_cases (d : string) :
  isValidInputDataType d = true ->
  d = "text" \/ d = "number" \/ d = "date" \/ d = "email" \/ d = "password" \/ d = "file".
Proof.
  unfold isValidInputDataType, includes, VALID_INPUT_DATA_TYPES. cbn [existsb].
  repeat match goal with
  | |- context [String.eqb d ?s] => destruct (String.eqb_spec d s); [subst; tauto |]
  end.
  discriminate.
Qed.

(** C7. Every input-constraint string the parser accepts round-trips:
    re-encoding the parsed record as
    [dataType + "," + (required ? "required" : "optional")] and parsing
    that string gives the parsed record back. *)
Theorem parseInputAttribute_roundtrip (value : string) (i : InputDefinition.t) :
  parseInputAttribute value = Some i ->
  parseInputAttribute (encodeInput i) = Some i.
Proof.
  unfold parseInputAttribute.
  destruct (negb (JsString.truthy value)); [discriminate |].
  destruct (List.map _ _) as [| d [| r [| ? ?]]]; try discriminate.
  destruct (isValidInputDataType d) eqn:Hd; cbn [negb]; [| discriminate].
  apply isValidInputDataType_cases in Hd.
  destruct (String.eqb r "required") eqn:Hreq, (String.eqb r "optional") eqn:Hopt;
    cbn [negb andb]; try discriminate; intros [= <-];
    decompose [or] Hd; subst d; vm_compute; reflexivity.
Qed.

Lemma includes_elem (l : list string) (v : string) : includes l v = true <-> v ∈ l.
Proof.
  unfold includes. rewrite existsb_exists, list_elem_of_In. split.
  - by intros (x & Hx & ->%String.eqb_eq).
  - intros Hv. exists v. by rewrite String.eqb_refl.
Qed.

Lemma includes_or_default (l : list string) (v d : string) :
  (if includes l v then v else d) = (if bool_decide (v ∈ l) then v else d).
Proof.
  destruct (includes l v) eqn:Hincl.
  - apply includes_elem in Hincl. by rewrite bool_decide_true.
  - rewrite bool_decide_false; [done |]. intros Hv%includes_elem. congruence.
Qed.

(** What [parseAttributes] returns carries the identifier of the node and
    the action and tracking kinds the node declares. *)
Lemma parseAttributes_declared `{Host} (el : Dom.ElementData) (attrs : ParsedAttributes.t) :
  parseAttributes el = Some attrs ->
  Dom.getAttribute el "data-sid" = Some (ParsedAttributes.id attrs)
  /\ ParsedAttributes.action attrs = declaredAction el
  /\ ParsedAttributes.tracking attrs = declaredTracking el
  /\ declaredAction el ∈ VALID_ACTION_TYPES
  /\ declaredTracking el ∈ VALID_TRACKING_TYPES.
Proof.
  assert (Hdefault : forall (l : list string) (o : option string) (d : string),
    "" ∉ l ->
    match JsString.or_undefined o with
    | Some a =>
        if includes l (JsString.toLowerCase (JsString.trim a))
        then JsString.toLowerCase (JsString.trim a) else d
    | None => d
    end
    = match o with
      | Some a =>
          if bool_decide (JsString.toLowerCase (JsString.trim a) ∈ l)
          then JsString.toLowerCase (JsString.trim a) else d
      | None => d
      end
    /\ (d ∈ l ->
         match o with
         | Some a =>
             if bool_decide (JsString.toLowerCase (JsString.trim a) ∈ l)
             then JsString.toLowerCase (JsString.trim a) else d
         | None => d
         end ∈ l)).
  { intros l [[| c a] |] d Hempty; cbn [JsString.or_undefined JsString.truthy].
    - split; [| by case_bool_decide].
      case_bool_decide as Hin; [| done]. by destruct Hempty.
    - rewrite includes_or_default. split; [done | by case_bool_decide].
    - done. }
  assert (Hactions : "" ∉ VALID_ACTION_TYPES).
  { unfold VALID_ACTION_TYPES. rewrite !elem_of_cons, elem_of_nil. intuition discriminate. }
  assert (Htrackings : "" ∉ VALID_TRACKING_TYPES).
  { unfold VALID_TRACKING_TYPES. rewrite !elem_of_cons, elem_of_nil. intuition discriminate. }
  unfold parseAttributes.
  destruct (Dom.getAttribute el "data-sid") as [id |] eqn:Hid; [| discriminate].
  destruct (negb (JsString.truthy id)); [discriminate |].
  intros [= <-].
  cbn [ParsedAttributes.id ParsedAttributes.action ParsedAttributes.tracking].
  unfold isValidActionType, isValidTrackingType, declaredAction, declaredTracking.
  destruct (Hdefault VALID_ACTION_TYPES (Dom.getAttribute el "data-sid-action") "click"
              Hactions) as [-> Haction].
  destruct (Hdefault VALID_TRACKING_TYPES (Dom.getAttribute el "data-sid-tracking") "async"
              Htrackings) as [-> Htracking].
  split; [done |]. split; [done |]. split; [done |].
  split; [apply Haction | apply Htracking]; unfold VALID_ACTION_TYPES, VALID_TRACKING_TYPES;
    rewrite !elem_of_cons; tauto.
Qed.

End AttributeParserProperties.

(** ** Legacy operation tracker *)

Section OperationTrackerProperties.
Import OperationTracker.

Lemma opId_inj (m n : N) : opId m = opId n -> m = n.
Proof.
  unfold opId. intros Heq. apply (inj (String.app "op-")) in Heq.
  by apply (inj pretty) in Heq.
Qed.

Lemma increment_below (n : N) : (n < 2 ^ 53)%N -> JsNumber.increment n = (n + 1)%N.
Proof. intros Hn. unfold JsNumber.increment. apply N.ltb_lt in Hn. by rewrite Hn. Qed.

Lemma increment_at_limit : JsNumber.increment (2 ^ 53) = (2 ^ 53)%N.
Proof. unfold JsNumber.increment. by rewrite N.ltb_irrefl. Qed.

Lemma increment_bounds (n : N) :
  (n <= 2 ^ 53)%N -> (n <= JsNumber.increment n <= 2 ^ 53)%N.
Proof.
  intros Hn. unfold JsNumber.increment. destruct (N.ltb_spec n (2 ^ 53)); lia.
Qed.

(** The identifiers allocated by a run that starts with the counter at
    [idCounter tr] and stays within the safe integers are the next ones in
    sequence, one for every call of [start]. *)
Lemma run_allocates (calls : list Call) (tr : t) :
  (idCounter tr + N.of_nat (starts calls) <= 2 ^ 53)%N ->
  (run calls tr).2 =
    List.map (fun k => opId (idCounter tr + N.of_nat k)) (seq 1 (List.length (run calls tr).2))
  /\ idCounter (run calls tr).1 = (idCounter tr + N.of_nat (List.length (run calls tr).2))%N
  /\ List.length (run calls tr).2 = starts calls.
Proof.
  revert tr. induction calls as [| c calls IH]; intros tr Hbound; cbn [run].
  - cbn. repeat split; try done. lia.
  - destruct (step tr c) as [tr' allocated] eqn:Hstep.
    specialize (IH tr'). destruct (run calls tr') as [tr'' ids]. cbn [fst snd] in *.
    destruct c; cbn in Hstep; injection Hstep as <- <-; cbn [fst snd idCounter] in *;
      unfold starts in *; cbn [List.filter List.length] in *.
    + rewrite increment_below in * by lia.
      destruct IH as (Hids & Hctr & Hlen); [lia |].
      cbn [List.length seq List.map]. split; [| split].
      * f_equal.
        rewrite Hids at 1. rewrite <- (seq_shift _ 1), List.map_map.
        apply List.map_ext. intros k. f_equal. lia.
      * rewrite Hctr. lia.
      * by rewrite Hlen.
    + assert (Hsame : idCounter (complete id status message effects now tr) = idCounter tr).
      { unfold complete. destruct (operations tr !! id) as [op |]; [| done].
        by destruct (negb _). }
      rewrite Hsame in IH. by apply IH.
    + by apply IH.
    + by apply IH.
Qed.

Lemma starts_replicate_clear (n : nat) (elementId actionType : string) (now : N) :
  starts (replicate n (CallStart elementId actionType now) ++ [CallClear]) = n.
Proof.
  unfold starts. induction n as [| n IH]; cbn; [done | by rewrite IH].
Qed.

(** The tracker after [n] calls of [start] and a [clear]. *)
Lemma starts_then_clear (n : nat) (elementId actionType : string) (now : N) :
  (N.of_nat n <= 2 ^ 53)%N ->
  (run (replicate n (CallStart elementId actionType now) ++ [CallClear]) create).1
  = mk ∅ (N.of_nat n).
Proof.
  intros Hn.
  assert (Hgen : forall k tr,
    (idCounter tr + N.of_nat k <= 2 ^ 53)%N ->
    (run (replicate k (CallStart elementId actionType now) ++ [CallClear]) tr).1
    = mk ∅ (idCounter tr + N.of_nat k)).
  { induction k as [| k IH]; intros tr Hk.
    - cbn [replicate app run step fst]. unfold clear. f_equal. lia.
    - cbn [replicate app run step].
      destruct (start elementId actionType now tr) as [operation tr'] eqn:Hstart.
      assert (Hctr : idCounter tr' = (idCounter tr + 1)%N).
      { unfold start in Hstart. injection Hstart as _ <-. cbn.
        apply increment_below. lia. }
      specialize (IH tr'). rewrite Hctr in IH.
      destruct (run _ tr') as [tr'' ids]. cbn [fst] in *.
      rewrite IH by lia. f_equal. lia. }
  rewrite (Hgen n create) by (cbn; lia). by cbn.
Qed.

(** C9, as the code has it. As long as the counter is below 2^53, [start]
    allocates the identifier ["op-<n>"] for the counter value [n] it has
    just incremented by one; [clear] removes every record and leaves the
    counter as it is; so in every sequence of tracker calls that keeps the
    counter within 2^53, from any tracker, the identifiers allocated
    continue the sequence from the counter (["op-1"], ["op-2"], ... for a
    new tracker), one for each call of [start], and no two of them are
    equal, whether or not a [clear] lies between them. *)
Theorem tracker_identifiers_never_reused :
  (forall elementId actionType now tr,
      (idCounter tr < 2 ^ 53)%N ->
      Operation.id (start elementId actionType now tr).1 = opId (idCounter tr + 1)
      /\ idCounter (start elementId actionType now tr).2 = (idCounter tr + 1)%N
      /\ operations (start elementId actionType now tr).2
           !! opId (idCounter tr + 1) = Some (start elementId actionType now tr).1)
  /\ (forall tr, operations (clear tr) = ∅ /\ idCounter (clear tr) = idCounter tr)
  /\ (forall calls tr,
        (idCounter tr + N.of_nat (starts calls) <= 2 ^ 53)%N ->
        let ids := (run calls tr).2 in
        ids = List.map (fun k => opId (idCounter tr + N.of_nat k)) (seq 1 (List.length ids))
        /\ List.length ids = starts calls
        /\ NoDup ids)
  /\ idCounter create = 0%N.
Proof.
  split; [| split; [| split]].
  - intros elementId actionType now tr Hbound. unfold start. cbn [fst snd idCounter operations].
    rewrite (increment_below _ Hbound). cbn [Operation.id].
    split; [done |]. split; [done |]. by rewrite lookup_insert_eq.
  - done.
  - intros calls tr Hbound ids.
    destruct (run_allocates calls tr Hbound) as (Hids & _ & Hlen). fold ids in Hids, Hlen.
    split; [exact Hids |]. split; [exact Hlen |].
    rewrite Hids.
    change (NoDup ((fun k => opId (idCounter tr + N.of_nat k)) <$> seq 1 (List.length ids))).
    apply NoDup_fmap_2_strong; [| apply NoDup_seq].
    intros a b _ _ Hab. apply opId_inj in Hab. lia.
  - done.
Qed.

End OperationTrackerProperties.

(** ** Element registry *)

Section ElementRegistryProperties.
Context `{Host}.
Import ElementRegistry.

Lemma allParsed_mono given given' m :
  (forall el, el ∈ given -> el ∈ given') -> allParsed given m -> allParsed given' m.
Proof.
  intros Hsub Hm. unfold allParsed in *. eapply Forall_impl; [exact Hm |].
  intros kv (el & Hel & Hparse). exists el. auto.
Qed.

Lemma set_allParsed given (m : JsMap.t SIDElement.t) k v :
  allParsed given m -> parsedFromNode given v -> allParsed given (JsMap.set m k v).
Proof.
  unfold allParsed. intros Hm Hv. induction m as [| [k' v'] m IH]; cbn.
  - by constructor.
  - inversion_clear Hm. destruct (String.eqb k' k); constructor; auto.
Qed.

Lemma delete_allParsed given (m : JsMap.t SIDElement.t) k :
  allParsed given m -> allParsed given (JsMap.delete m k).
Proof.
  unfold allParsed, JsMap.delete. intros Hm. induction Hm as [| kv m Hkv Hm IH]; cbn.
  - constructor.
  - destruct (negb _); [constructor |]; auto.
Qed.

Lemma register_allParsed given m el :
  el ∈ given -> allParsed given m -> allParsed given (register m el).
Proof.
  intros Hel Hm. unfold register.
  destruct (parseElement el) as [e |] eqn:Hparse; [| done].
  apply set_allParsed; [done |]. by exists el.
Qed.

Lemma unregister_allParsed given m el :
  allParsed given m -> allParsed given (unregister m el).
Proof.
  intros Hm. unfold unregister.
  destruct (Dom.getAttribute el "data-sid") as [id |]; [| done].
  destruct (JsString.truthy id); [by apply delete_allParsed | done].
Qed.

Lemma fold_allParsed {A} given (f : JsMap.t SIDElement.t -> A -> JsMap.t SIDElement.t)
    (l : list A) m :
  (forall m a, a ∈ l -> allParsed given m -> allParsed given (f m a)) ->
  allParsed given m -> allParsed given (fold_left f l m).
Proof.
  revert m. induction l as [| a l IH]; intros m Hf Hm; cbn; [done |].
  apply IH.
  - intros m' a' Ha'. apply Hf. by apply list_elem_of_further.
  - apply Hf; [apply list_elem_of_here | done].
Qed.

(** Registering the annotated elements of a list of nodes. *)
Lemma registerAll_allParsed given (nodes : list Dom.Node) m :
  (forall ec, ec ∈ Dom.elements_of_list nodes -> ec.1 ∈ given) ->
  allParsed given m ->
  allParsed given
    (fold_left (fun m ec => register m (fst ec)) (Dom.querySelectorAll_data_sid nodes) m).
Proof.
  intros Hnodes Hm. apply fold_allParsed; [| done].
  intros m' ec Hec Hm'. apply register_allParsed; [| done].
  apply Hnodes. unfold Dom.querySelectorAll_data_sid in Hec.
  apply list_elem_of_In, filter_In in Hec as [Hec _]. by apply list_elem_of_In.
Qed.

Lemma removeStale_allParsed given doc element entries m :
  allParsed given m -> allParsed given (removeStale doc element entries m).
Proof.
  intros Hm. induction entries as [| [id sidEl] entries IH]; cbn; [done |].
  destruct (querySelector doc (SIDElement.selector sidEl)); [| done].
  destruct (_ =? _)%nat; [by apply delete_allParsed | done].
Qed.

Lemma elements_of_Element e children :
  Dom.elements_of (Dom.Element e children) = (e, children) :: Dom.elements_of_list children.
Proof.
  reflexivity.
Qed.

(** An inserted node and its descendants are among the elements of the
    inserted nodes. *)
Lemma elements_of_added (added : list Dom.Node) e children :
  Dom.Element e children ∈ added ->
  (e, children) ∈ Dom.elements_of_list added
  /\ (forall ec, ec ∈ Dom.elements_of_list children -> ec ∈ Dom.elements_of_list added).
Proof.
  intros Hin. apply list_elem_of_In in Hin.
  assert (Hsub : forall ec, In ec (Dom.elements_of (Dom.Element e children)) ->
                   In ec (Dom.elements_of_list added)).
  { intros ec Hec. unfold Dom.elements_of_list. apply in_flat_map. eauto. }
  rewrite elements_of_Element in Hsub. split.
  - apply list_elem_of_In, Hsub. by left.
  - intros ec Hec. apply list_elem_of_In, Hsub. right. by apply list_elem_of_In.
Qed.

Lemma handleMutation_allParsed given doc m mutation :
  (forall el, el ∈ nodesOfMutation mutation -> el ∈ given) ->
  allParsed given m -> allParsed given (handleMutation doc m mutation).
Proof.
  intros Hgiven Hm. destruct mutation as [added removed | target name | target]; cbn.
  - apply fold_allParsed.
    { intros m' [| e children] _ Hm'; [done |].
      destruct (Dom.is_HTMLElement e); [| done]. unfold handleRemovedNode.
      apply fold_allParsed; [intros; by apply unregister_allParsed |].
      by apply unregister_allParsed. }
    apply fold_allParsed; [| done].
    intros m' [| e children] Hnode Hm'; [done |].
    destruct (Dom.is_HTMLElement e); [| done]. unfold handleAddedNode.
    destruct (elements_of_added added e children Hnode) as [Hself Hdesc].
    assert (Hin : forall ec, ec ∈ Dom.elements_of_list added -> ec.1 ∈ given).
    { intros ec Hec. apply Hgiven. cbn.
      change (ec.1 ∈ fst <$> Dom.elements_of_list added). by apply list_elem_of_fmap_2. }
    apply registerAll_allParsed; [by auto |].
    destruct (Dom.hasAttribute e "data-sid"); [| done].
    apply register_allParsed; [| done]. by apply (Hin (e, children)).
  - destruct target as [| e children]; [done |].
    destruct (Dom.is_HTMLElement e); [| done]. unfold handleAttributeChange.
    assert (He : e ∈ given) by (apply Hgiven; cbn; apply list_elem_of_here).
    destruct (JsString.or_undefined name) as [attributeName |]; [| done].
    destruct (String.eqb attributeName "data-sid").
    + destruct (JsString.or_undefined _);
        [by apply register_allParsed | by apply removeStale_allParsed].
    + destruct (JsString.or_undefined _) as [id |]; [| done].
      destruct (JsMap.has m id); [by apply register_allParsed | done].
  - done.
Qed.

Lemma scanDocument_allParsed given doc r :
  (forall ec, ec ∈ Dom.elements_of_list doc -> ec.1 ∈ given) ->
  allParsed given (elements (scanDocument doc r)).
Proof.
  intros Hdoc. cbn. apply registerAll_allParsed; [done | constructor].
Qed.

Lemma elem_of_fst_map {A B} (l : list (A * B)) (ab : A * B) :
  ab ∈ l -> ab.1 ∈ List.map fst l.
Proof.
  intros Hin. change (ab.1 ∈ fst <$> l). by apply list_elem_of_fmap_2.
Qed.

Lemma step_allParsed given r c :
  (forall el, el ∈ nodesOfCall c -> el ∈ given) ->
  allParsed given (elements r) -> allParsed given (elements (step r c)).
Proof.
  intros Hgiven Hr. destruct c as [doc | | doc mutations |]; cbn.
  - apply scanDocument_allParsed. intros ec Hec. apply Hgiven. cbn. by apply elem_of_fst_map.
  - done.
  - destruct (observer r); [| done]. cbn.
    apply fold_allParsed; [| done].
    intros m mutation Hmutation Hm. apply handleMutation_allParsed; [| done].
    intros el Hel. apply Hgiven. cbn.
    apply list_elem_of_In, in_flat_map. exists mutation.
    split; by apply list_elem_of_In.
  - constructor.
Qed.

Lemma run_allParsed given calls r :
  (forall el, el ∈ flat_map nodesOfCall calls -> el ∈ given) ->
  allParsed given (elements r) -> allParsed given (elements (run calls r)).
Proof.
  revert r. induction calls as [| c calls IH]; intros r Hgiven Hr; cbn; [done |].
  apply IH.
  - intros el Hel. apply Hgiven. cbn. apply elem_of_app. by right.
  - apply step_allParsed; [| done].
    intros el Hel. apply Hgiven. cbn. apply elem_of_app. by left.
Qed.

Lemma create_allParsed given observeDOM doc :
  (forall ec, ec ∈ Dom.elements_of_list doc -> ec.1 ∈ given) ->
  allParsed given (elements (create observeDOM doc)).
Proof.
  intros Hdoc. unfold create. destruct observeDOM; by apply scanDocument_allParsed.
Qed.

(** C10. Every element description stored in the registry, after the
    initial scan and any further scans, observed mutations (added nodes,
    removed nodes, attribute changes) and teardowns, is what [parseElement]
    makes of one of the nodes the registry has been given, a node that
    carries the identifier of the description; it has exactly one action
    descriptor, and the kind of that descriptor is the action kind this
    node declares, one of the six kinds. *)
Theorem registry_elements_have_one_action (observeDOM : bool) (doc : Dom.Document)
    (calls : list Call) (e : SIDElement.t) :
  e ∈ getAll (run calls (create observeDOM doc)) ->
  exists el action,
    el ∈ nodesGiven doc calls
    /\ Dom.getAttribute el "data-sid" = Some (SIDElement.id e)
    /\ parseElement el = Some e
    /\ SIDElement.actions e = [action]
    /\ ActionDefinition.type action = declaredAction el
    /\ ActionDefinition.type action ∈ AttributeParser.VALID_ACTION_TYPES.
Proof.
  intros He.
  assert (Hall : allParsed (nodesGiven doc calls) (elements (run calls (create observeDOM doc)))).
  { apply run_allParsed.
    - intros el Hel. unfold nodesGiven. apply elem_of_app. by right.
    - apply create_allParsed. intros ec Hec. unfold nodesGiven. apply elem_of_app. left.
      by apply elem_of_fst_map. }
  unfold getAll, JsMap.values in He.
  change (e ∈ snd <$> elements (run calls (create observeDOM doc))) in He.
  apply list_elem_of_fmap in He as [[k e'] [-> Hin]].
  unfold allParsed in Hall. rewrite Forall_forall in Hall.
  destruct (Hall _ Hin) as (el & Hel & Hparse). cbn [snd] in *.
  unfold parseElement in Hparse.
  destruct (AttributeParser.parseAttributes el) as [attrs |] eqn:Hattrs; [| discriminate].
  injection Hparse as <-.
  destruct (parseAttributes_declared el attrs Hattrs) as (Hid & Haction & _ & Hvalid & _).
  exists el, (createActionDefinition attrs).
  unfold parseElement. rewrite Hattrs. cbn.
  repeat split; try done. by rewrite Haction.
Qed.

End ElementRegistryProperties.

(** ** Context reader *)

Section ContextParserProperties.
Context `{Host}.
Import ContextParser.

(** The first call after start or invalidation evaluates one object
    literal: the empty one with nothing cached, or the parsed one, which it
    caches. *)
Lemma first_call_allocates doc st :
  contextParsed st = false -> cachedContext st = None ->
  exists o c,
    getContextMetadata doc st = alloc o c true st
    /\ ((c = None /\ o = SIDContextMetadata.empty) \/ c = Some (nextRef st))
    /\ (EmptyCase doc -> c = None).
Proof.
  intros Hparsed Hcached. unfold getContextMetadata, parseContextScript.
  rewrite Hparsed, Hcached.
  assert (Hempty : exists o c,
    alloc SIDContextMetadata.empty None true st = alloc o c true st
    /\ ((c = None /\ o = SIDContextMetadata.empty) \/ c = Some (nextRef st))
    /\ (EmptyCase doc -> c = None)) by (eexists _, _; eauto).
  destruct doc as [d |]; [| done].
  destruct (findContextScript d) as [[e children] |] eqn:Hfind; [| done].
  destruct (negb (JsString.truthy (Dom.textContent children))
            || negb (JsString.truthy (JsString.trim (Dom.textContent children))))
    eqn:Hblank; [done |].
  destruct (JSON_parse (JsString.trim (Dom.textContent children))) as [parsed |] eqn:Hjson;
    [| done].
  destruct parsed; try done.
  eexists _, _. split; [done |]. split; [by right |].
  intros Hcase. exfalso. inversion Hcase as
    [d' Hnone | d' e' ch' Hsome Htrim | d' e' ch' v Hsome Hv Hobj | d' e' ch' Hsome Hv];
    subst d'; rewrite Hfind in *; try discriminate;
    injection Hsome as <- <-.
  - rewrite Htrim in Hblank. cbn in Hblank. by rewrite orb_true_r in Hblank.
  - rewrite Hjson in Hv. injection Hv as <-. by eapply Hobj.
  - by rewrite Hjson in Hv.
Qed.

(** Later calls with an object cached return it and change nothing. *)
Lemma seq_cached docs st r :
  contextParsed st = true -> cachedContext st = Some r ->
  getContextMetadata_seq docs st = (replicate (List.length docs) r, st).
Proof.
  intros Hparsed Hcached. induction docs as [| doc docs IH]; cbn; [done |].
  unfold getContextMetadata, parseContextScript. rewrite Hparsed, Hcached.
  by rewrite IH.
Qed.

(** Later calls with nothing cached evaluate a new empty object literal
    each. *)
Lemma seq_uncached docs st :
  contextParsed st = true -> cachedContext st = None ->
  (getContextMetadata_seq docs st).1 = seq (nextRef st) (List.length docs)
  /\ (forall r, r ∈ (getContextMetadata_seq docs st).1 ->
        heap (getContextMetadata_seq docs st).2 !! r = Some SIDContextMetadata.empty)
  /\ (forall r, r < nextRef st ->
        heap (getContextMetadata_seq docs st).2 !! r = heap st !! r)
  /\ cachedContext (getContextMetadata_seq docs st).2 = None.
Proof.
  revert st. induction docs as [| doc docs IH]; intros st Hparsed Hcached; cbn.
  { repeat split; [| done ..]. intros r Hr. by apply elem_of_nil in Hr. }
  unfold getContextMetadata, parseContextScript. rewrite Hparsed, Hcached.
  cbn [alloc].
  set (st' := mk None true (<[nextRef st := SIDContextMetadata.empty]> (heap st)) (S (nextRef st))).
  destruct (IH st') as (Hrs & Hempty & Hold & Hnone); [done | done |].
  destruct (getContextMetadata_seq docs st') as [rs st''] eqn:Hseq. cbn [fst snd] in *.
  split; [by rewrite Hrs |]. split; [| split; [| done]].
  - intros r [-> | Hr]%elem_of_cons; [| by apply Hempty].
    rewrite Hold; [| cbn; lia]. cbn. by rewrite lookup_insert_eq.
  - intros r Hr. rewrite Hold; [| cbn; lia]. cbn. rewrite lookup_insert_ne; [done | lia].
Qed.

(** The first call on a document whose metadata block holds a JSON
    object evaluates the object literal with the four string members and
    caches it. *)
Lemma first_read_object d e children fields st :
  contextParsed st = false ->
  findContextScript d = Some (e, children) ->
  JsString.trim (Dom.textContent children) <> "" ->
  JSON_parse (JsString.trim (Dom.textContent children)) = Some (JObject fields) ->
  parseContextScript (Some d) st
  = alloc (SIDContextMetadata.mk
             (string_field (JObject fields) "version") (string_field (JObject fields) "app")
             (string_field (JObject fields) "page") (string_field (JObject fields) "auth"))
      (Some (nextRef st)) true st.
Proof.
  intros Hparsed Hfind Hcontent Hjson. unfold parseContextScript.
  rewrite Hparsed, Hfind.
  assert (Htrim : JsString.truthy (JsString.trim (Dom.textContent children)) = true).
  { by destruct (JsString.trim (Dom.textContent children)). }
  assert (Htext : JsString.truthy (Dom.textContent children) = true).
  { destruct (Dom.textContent children); [| done]. by destruct Hcontent. }
  by rewrite Htrim, Htext, Hjson.
Qed.

(** The later calls, by what the first call has cached. *)
Lemma later_reads (doc : option Dom.Document)
    (docs : list (option Dom.Document)) (st st1 st2 : State) (r0 : nat) (rs : list nat) :
  contextParsed st = false -> cachedContext st = None ->
  getContextMetadata doc st = (r0, st1) ->
  getContextMetadata_seq docs st1 = (rs, st2) ->
  (EmptyCase doc ->
     heap st1 !! r0 = Some SIDContextMetadata.empty /\ cachedContext st1 = None)
  /\ (exists o, heap st1 !! r0 = Some o /\ Forall (fun r => heap st2 !! r = Some o) rs)
  /\ (cachedContext st1 <> None -> Forall (fun r => r = r0) rs)
  /\ (cachedContext st1 = None -> NoDup (r0 :: rs)).
Proof.
  intros Hparsed Hcached Hfirst Hseq.
  destruct (first_call_allocates doc st Hparsed Hcached) as (o & c & Hcall & Hshape & Hcase).
  rewrite Hcall in Hfirst. unfold alloc in Hfirst. injection Hfirst as <- <-.
  cbn [heap cachedContext]. rewrite lookup_insert_eq.
  destruct Hshape as [[-> ->] | ->].
  - (* nothing cached *)
    pose proof (seq_uncached docs
      (mk None true (<[nextRef st := SIDContextMetadata.empty]> (heap st)) (S (nextRef st)))
      eq_refl eq_refl) as (Hrs & Hempty & _ & _).
    rewrite Hseq in *. cbn [fst snd nextRef] in *.
    split; [done |]. split; [| split; [done |]].
    + eexists. split; [done |]. rewrite Forall_forall. intros r Hr. by apply Hempty.
    + intros _. rewrite Hrs. apply (NoDup_seq (nextRef st) (S (List.length docs))).
  - (* the parsed object is cached *)
    rewrite seq_cached with (r := nextRef st) in Hseq by done.
    injection Hseq as <- <-. cbn [heap].
    split; [intros Hc; by apply Hcase in Hc |]. split; [| split; [| done]].
    + eexists. split; [done |]. apply Forall_replicate. by rewrite lookup_insert_eq.
    + intros _. by apply Forall_replicate.
Qed.

(** C6, as the code has it. When the metadata block is missing, blank,
    not a JSON object or not JSON, the first call of the context reader
    after start or after an invalidation returns an empty record and
    caches nothing. When the block holds a JSON object, whatever its
    members, the first call returns a record with the string members
    [version], [app], [page] and [auth] of the object and caches it: every
    later call returns this very object and changes nothing. Without an
    invalidation in between, every later call returns a record with the
    contents of the first call's record, whatever the document has
    become; it is a newly created empty object, different from all
    earlier ones, in the cases where nothing is cached. *)
Theorem context_reader_empty_and_cached (doc : option Dom.Document)
    (docs : list (option Dom.Document)) (st st1 st2 : State) (r0 : nat) (rs : list nat) :
  contextParsed st = false -> cachedContext st = None ->
  getContextMetadata doc st = (r0, st1) ->
  getContextMetadata_seq docs st1 = (rs, st2) ->
  (EmptyCase doc ->
     heap st1 !! r0 = Some SIDContextMetadata.empty /\ cachedContext st1 = None)
  /\ (forall d e children fields,
        doc = Some d ->
        findContextScript d = Some (e, children) ->
        JsString.trim (Dom.textContent children) <> "" ->
        JSON_parse (JsString.trim (Dom.textContent children)) = Some (JObject fields) ->
        cachedContext st1 = Some r0
        /\ heap st1 !! r0
           = Some (SIDContextMetadata.mk
                     (string_field (JObject fields) "version")
                     (string_field (JObject fields) "app")
                     (string_field (JObject fields) "page")
                     (string_field (JObject fields) "auth"))
        /\ Forall (fun r => r = r0) rs
        /\ st2 = st1)
  /\ (exists o, heap st1 !! r0 = Some o /\ Forall (fun r => heap st2 !! r = Some o) rs)
  /\ (cachedContext st1 <> None -> Forall (fun r => r = r0) rs)
  /\ (cachedContext st1 = None -> NoDup (r0 :: rs)).
Proof.
  intros Hparsed Hcached Hfirst Hseq.
  destruct (later_reads doc docs st st1 st2 r0 rs Hparsed Hcached Hfirst Hseq)
    as (Hempty & Hcontents & Hsame & Hfresh).
  split; [done |]. split; [| done].
  intros d e children fields -> Hfind Hcontent Hjson.
  unfold getContextMetadata in Hfirst.
  rewrite (first_read_object d e children fields st Hparsed Hfind Hcontent Hjson) in Hfirst.
  unfold alloc in Hfirst. injection Hfirst as <- <-. cbn [cachedContext heap].
  rewrite seq_cached with (r := nextRef st) in Hseq by done.
  injection Hseq as <- <-.
  split; [done |]. split; [by rewrite lookup_insert_eq |].
  split; [by apply Forall_replicate | done].
Qed.

End ContextParserProperties.

(** ** Interaction executor *)

Section InteractionExecutorProperties.
Context `{Host}.
Import InteractionExecutor.

(** *** The primitive steps, field by field *)

Lemma resolvePromise_fields p r ex :
  pendingOperations (resolvePromise p r ex) = pendingOperations ex
  /\ timers (resolvePromise p r ex) = timers ex
  /\ nextTimer (resolvePromise p r ex) = nextTimer ex
  /\ nextPromise (resolvePromise p r ex) = nextPromise ex
  /\ clock (resolvePromise p r ex) = clock ex
  /\ native (resolvePromise p r ex) = native ex.
Proof. unfold resolvePromise. by destruct (settled ex !! p). Qed.

Lemma resolvePromise_settled p r ex q :
  settled (resolvePromise p r ex) !! q =
    if decide (q = p) then Some (default r (settled ex !! p)) else settled ex !! q.
Proof.
  unfold resolvePromise. destruct (settled ex !! p) as [r0 |] eqn:Hp; cbn.
  - case_decide; [by subst | done].
  - case_decide; [subst; by rewrite lookup_insert_eq | by rewrite lookup_insert_ne].
Qed.

Ltac prims :=
  unfold runResolver, runTimerCallback, registered, clearTimeout, pendingDelete,
    pendingSet, perform, setTimeout, newPromise in *;
  cbn [pendingOperations timers nextTimer settled nextPromise clock native fst snd] in *.

Ltac resolve_fields :=
  repeat match goal with
  | |- context [pendingOperations (resolvePromise ?p ?r ?ex)] =>
      rewrite (proj1 (resolvePromise_fields p r ex))
  | |- context [timers (resolvePromise ?p ?r ?ex)] =>
      rewrite (proj1 (proj2 (resolvePromise_fields p r ex)))
  | |- context [nextTimer (resolvePromise ?p ?r ?ex)] =>
      rewrite (proj1 (proj2 (proj2 (resolvePromise_fields p r ex))))
  | |- context [nextPromise (resolvePromise ?p ?r ?ex)] =>
      rewrite (proj1 (proj2 (proj2 (proj2 (resolvePromise_fields p r ex)))))
  | |- context [clock (resolvePromise ?p ?r ?ex)] =>
      rewrite (proj1 (proj2 (proj2 (proj2 (proj2 (resolvePromise_fields p r ex))))))
  | |- context [native (resolvePromise ?p ?r ?ex)] =>
      rewrite (proj2 (proj2 (proj2 (proj2 (proj2 (resolvePromise_fields p r ex))))))
  | |- context [settled (resolvePromise ?p ?r ?ex) !! ?q] =>
      rewrite (resolvePromise_settled p r ex q)
  end.

(** The four shapes of the state after [execute]. *)
Lemma execute_cases registry document id action options ex :
  let ex' := (execute registry document id action options ex).2 in
  ex' = ex
  \/ (exists ops, ex' = perform ops ex)
  \/ (exists ops, ex' = perform ops (registered id (effectiveTimeout options) ex))
  \/ (exists msg, ex' =
        resolvePromise (nextPromise ex) (errorResult ("Action execution failed: " +:+ msg))
          (pendingDelete id (clearTimeout (nextTimer ex)
             (registered id (effectiveTimeout options) ex)))).
Proof.
  unfold execute.
  destruct (ElementRegistry.get registry id) as [sidElement |]; [| by left].
  destruct (SIDElement.disabled sidElement); [by left |].
  destruct (ElementRegistry.querySelector _ _) as [domElement |]; [| by left].
  destruct (triggerAction domElement action) as [msg | ops] eqn:Htrigger;
    repeat (destruct (String.eqb _ _); [first [by left | right; left; by eexists] |]).
  - right; right; right. by exists msg.
  - right; right; left. by exists ops.
Qed.

Lemma execute_tracked registry document id action options ex :
  trackedCall registry document id action ->
  exists ops,
    execute registry document id action options ex =
      (Waiting (nextPromise ex), perform ops (registered id (effectiveTimeout options) ex)).
Proof.
  intros (sidElement & domElement & ops & Hget & Hdis & Hsel & Htrack & Htrig).
  exists ops. unfold execute. rewrite Hget, Hdis, Hsel, Htrack, Htrig. done.
Qed.

(** *** Consistency is kept by every step *)

Lemma wf_create : wf create.
Proof. split; cbn; intros *; rewrite ?lookup_empty; try done. Qed.

Lemma wf_perform ops ex : wf ex -> wf (perform ops ex).
Proof. intros [? ? ? ?]. by split. Qed.

Lemma wf_clearTimeout tid ex : wf ex -> wf (clearTimeout tid ex).
Proof.
  intros [Hc Ht Hp Hs]. split; prims; [done | | | done].
  - intros tid' cb Hl. apply lookup_delete_Some in Hl as [_ Hl]. eauto.
  - intros k po Hl. destruct (Hp k po Hl) as (? & ? & ? & Hcb). repeat split; try done.
    intros cb Hl'. apply lookup_delete_Some in Hl' as [_ Hl']. eauto.
Qed.

Lemma wf_pendingDelete id ex : wf ex -> wf (pendingDelete id ex).
Proof.
  intros [Hc Ht Hp Hs]. split; prims; [done | done | | done].
  intros k po Hl. apply lookup_delete_Some in Hl as [_ Hl]. eauto.
Qed.

Lemma wf_resolvePromise p r ex : p < nextPromise ex -> wf ex -> wf (resolvePromise p r ex).
Proof.
  intros Hlt [Hc Ht Hp Hs]. split; resolve_fields; try done.
  intros q. resolve_fields. case_decide; [by subst | auto].
Qed.

Lemma wf_registered id timeout ex : wf ex -> wf (registered id timeout ex).
Proof.
  intros [Hc Ht Hp Hs]. split; prims.
  - by rewrite Hc.
  - intros tid cb Hl. apply lookup_insert_Some in Hl as [[<- <-] | [_ Hl]]; cbn.
    + split; [lia | done].
    + destruct (Ht _ _ Hl). split; [lia | done].
  - intros k po Hl. apply lookup_insert_Some in Hl as [[<- <-] | [Hne Hl]]; cbn.
    + repeat split; [done | lia |]. intros cb. rewrite lookup_insert_eq. by intros [= <-].
    + destruct (Hp k po Hl) as (? & ? & ? & Hcb). repeat split; [done | done | lia |].
      intros cb Hl'. apply lookup_insert_Some in Hl' as [[Heq _] | [_ Hl']]; [lia | eauto].
  - intros p Hp'. apply Hs in Hp'. lia.
Qed.

Lemma wf_execute registry document id action options ex :
  wf ex -> wf (execute registry document id action options ex).2.
Proof.
  intros Hwf.
  destruct (execute_cases registry document id action options ex)
    as [-> | [[ops ->] | [[ops ->] | [msg ->]]]].
  - done.
  - by apply wf_perform.
  - by apply wf_perform, wf_registered.
  - apply wf_resolvePromise; [prims; lia |].
    by apply wf_pendingDelete, wf_clearTimeout, wf_registered.
Qed.

Lemma wf_complete elementId result ex : wf ex -> wf (complete elementId result ex).
Proof.
  intros Hwf. unfold complete.
  destruct (pendingOperations ex !! elementId) as [po |] eqn:Hpo; [| done].
  destruct (wf_pending ex Hwf _ _ Hpo) as (_ & Hprom & Hlt & _).
  unfold runResolver. apply wf_resolvePromise.
  - prims. rewrite Hprom, <- (wf_counters ex Hwf). done.
  - by apply wf_pendingDelete, wf_clearTimeout.
Qed.

Lemma wf_fireTimer ex entry : wf ex -> wf (fireTimer ex entry).
Proof.
  intros Hwf. unfold fireTimer.
  destruct (timers ex !! entry.1) as [cb |] eqn:Hcb; [| done].
  destruct (wf_timers ex Hwf _ _ Hcb) as [Hlt Hprom].
  unfold runTimerCallback. apply wf_resolvePromise.
  - prims. rewrite Hprom, <- (wf_counters ex Hwf). done.
  - by apply wf_pendingDelete, wf_clearTimeout.
Qed.

Lemma wf_fold_fireTimer l ex : wf ex -> wf (fold_left fireTimer l ex).
Proof. revert ex. induction l; cbn; auto using wf_fireTimer. Qed.

Lemma wf_advance dt ex : wf ex -> wf (advance dt ex).
Proof.
  intros [? ? ? ?]. unfold advance. apply wf_fold_fireTimer. by split.
Qed.

Lemma wf_step ex ev : wf ex -> wf (step ex ev).
Proof.
  destruct ev; cbn; auto using wf_execute, wf_complete, wf_advance.
Qed.

Lemma wf_run evs ex : wf ex -> wf (run evs ex).
Proof.
  revert ex. induction evs as [| ev evs IH]; intros ex Hwf; cbn; [done |].
  apply IH. by apply wf_step.
Qed.

Lemma wf_reachable ex : reachable ex -> wf ex.
Proof. intros [evs ->]. apply wf_run, wf_create. Qed.

(** *** The clock *)

Lemma clock_fold_fireTimer l ex : clock (fold_left fireTimer l ex) = clock ex.
Proof.
  revert ex. induction l as [| e l IH]; intros ex; cbn; [done |].
  rewrite IH. unfold fireTimer. destruct (timers ex !! e.1); [| done].
  unfold runTimerCallback. by resolve_fields.
Qed.

Lemma clock_step ex ev :
  clock (step ex ev) = (clock ex + match ev with EvAdvance dt => dt | _ => 0 end)%N.
Proof.
  destruct ev as [registry document id action options | elementId result | dt]; cbn.
  - destruct (execute_cases registry document id action options ex)
      as [-> | [[ops ->] | [[ops ->] | [msg ->]]]]; resolve_fields; prims; lia.
  - unfold complete. destruct (pendingOperations ex !! elementId); [| lia].
    unfold runResolver. resolve_fields. prims. lia.
  - unfold advance. by rewrite clock_fold_fireTimer.
Qed.

Lemma clock_run evs ex : clock (run evs ex) = (clock ex + elapsed evs)%N.
Proof.
  revert ex. induction evs as [| ev evs IH]; intros ex; cbn; [lia |].
  unfold run in IH. rewrite IH, clock_step. destruct ev; lia.
Qed.

Lemma staysBefore_step d ex ev evs :
  staysBefore (d - clock ex) (ev :: evs) ->
  staysBefore (d - clock (step ex ev)) evs
  /\ match ev with EvAdvance dt => (clock ex + dt < d)%N | _ => True end.
Proof.
  rewrite clock_step. destruct ev as [? ? ? ? ? | ? ? | dt]; cbn [staysBefore].
  - by rewrite N.add_0_r.
  - by rewrite N.add_0_r.
  - rewrite N.sub_add_distr. intros [Hdt Hrest]. split; [done | lia].
Qed.

Lemma staysBefore_app limit evs1 evs2 :
  staysBefore limit (evs1 ++ evs2) <->
  staysBefore limit evs1 /\ staysBefore (limit - elapsed evs1) evs2.
Proof.
  revert limit. induction evs1 as [| ev evs1 IH]; intros limit; cbn [app elapsed staysBefore].
  - rewrite N.sub_0_r. tauto.
  - destruct ev as [? ? ? ? ? | ? ? | dt]; [apply IH | apply IH |].
    rewrite IH, N.sub_add_distr. tauto.
Qed.

(** *** A settled promise stays as it is *)

Lemma settled_stable_resolvePromise p r' ex q r :
  settled ex !! q = Some r -> settled (resolvePromise p r' ex) !! q = Some r.
Proof.
  intros Hq. resolve_fields. case_decide; [subst; by rewrite Hq | done].
Qed.

Lemma settled_stable_fireTimer ex e q r :
  settled ex !! q = Some r -> settled (fireTimer ex e) !! q = Some r.
Proof.
  intros Hq. unfold fireTimer. destruct (timers ex !! e.1); [| done].
  by apply settled_stable_resolvePromise.
Qed.

Lemma settled_stable_fold l ex q r :
  settled ex !! q = Some r -> settled (fold_left fireTimer l ex) !! q = Some r.
Proof.
  revert ex. induction l as [| e l IH]; intros ex Hq; cbn; [done |].
  by apply IH, settled_stable_fireTimer.
Qed.

Lemma settled_stable_step ex ev q r :
  settled ex !! q = Some r -> settled (step ex ev) !! q = Some r.
Proof.
  intros Hq. destruct ev as [registry document id action options | elementId result | dt]; cbn.
  - destruct (execute_cases registry document id action options ex)
      as [-> | [[ops ->] | [[ops ->] | [msg ->]]]]; try done.
    by apply settled_stable_resolvePromise.
  - unfold complete. destruct (pendingOperations ex !! elementId); [| done].
    by apply settled_stable_resolvePromise.
  - by apply settled_stable_fold.
Qed.

Lemma settled_stable_run evs ex q r :
  settled ex !! q = Some r -> settled (run evs ex) !! q = Some r.
Proof.
  revert ex. induction evs as [| ev evs IH]; intros ex Hq; cbn; [done |].
  by apply IH, settled_stable_step.
Qed.

(** *** Timers that fire *)

Lemma dueTimers_spec ex e :
  e ∈ dueTimers ex <-> timers ex !! e.1 = Some e.2 /\ (due e.2 <= clock ex)%N.
Proof.
  unfold dueTimers. rewrite merge_sort_Permutation.
  rewrite list_elem_of_In, filter_In, <- list_elem_of_In, N.leb_le.
  destruct e as [tid cb]. by rewrite elem_of_map_to_list.
Qed.

Lemma pending_fireTimer ex e k po :
  pendingOperations (fireTimer ex e) !! k = Some po -> pendingOperations ex !! k = Some po.
Proof.
  unfold fireTimer. destruct (timers ex !! e.1); [| done].
  unfold runTimerCallback. resolve_fields. prims.
  intros Hl. by apply lookup_delete_Some in Hl as [_ Hl].
Qed.

Lemma pending_fold_fireTimer l ex k po :
  pendingOperations (fold_left fireTimer l ex) !! k = Some po ->
  pendingOperations ex !! k = Some po.
Proof.
  revert ex. induction l as [| e l IH]; intros ex; cbn; [done |].
  intros Hl. by apply IH, pending_fireTimer in Hl.
Qed.

Lemma timers_fireTimer ex e tid cb :
  timers (fireTimer ex e) !! tid = Some cb -> timers ex !! tid = Some cb.
Proof.
  unfold fireTimer. destruct (timers ex !! e.1); [| done].
  unfold runTimerCallback. resolve_fields. prims.
  intros Hl. by apply lookup_delete_Some in Hl as [_ Hl].
Qed.

Lemma timers_fold_fireTimer l ex tid cb :
  timers (fold_left fireTimer l ex) !! tid = Some cb -> timers ex !! tid = Some cb.
Proof.
  revert ex. induction l as [| e l IH]; intros ex; cbn; [done |].
  intros Hl. by apply IH, timers_fireTimer in Hl.
Qed.

Lemma pending_none_fold l ex k :
  pendingOperations ex !! k = None -> pendingOperations (fold_left fireTimer l ex) !! k = None.
Proof.
  intros Hnone. destruct (pendingOperations (fold_left fireTimer l ex) !! k) eqn:Hl; [| done].
  apply pending_fold_fireTimer in Hl. congruence.
Qed.

(** Firing another timer leaves the timer and the promise of call [tid]
    alone. *)
Lemma fireTimer_other tid cb ex e :
  wf ex -> e.1 <> tid ->
  timers ex !! tid = Some cb -> settled ex !! tid = None ->
  timers (fireTimer ex e) !! tid = Some cb /\ settled (fireTimer ex e) !! tid = None.
Proof.
  intros Hwf Hne Htid Hset. unfold fireTimer.
  destruct (timers ex !! e.1) as [cb' |] eqn:Hcb'; [| done].
  destruct (wf_timers ex Hwf _ _ Hcb') as [_ Hprom].
  unfold runTimerCallback. resolve_fields. prims.
  rewrite lookup_delete_ne by done. split; [done |].
  case_decide; [congruence | done].
Qed.

Lemma fold_fireTimer_other tid cb l ex :
  wf ex -> Forall (fun e => e.1 <> tid) l ->
  timers ex !! tid = Some cb -> settled ex !! tid = None ->
  timers (fold_left fireTimer l ex) !! tid = Some cb
  /\ settled (fold_left fireTimer l ex) !! tid = None.
Proof.
  revert ex. induction l as [| e l IH]; intros ex Hwf Hl Htid Hset; cbn; [done |].
  inversion_clear Hl as [| ? ? He Hl'].
  destruct (fireTimer_other tid cb ex e Hwf He Htid Hset).
  apply IH; auto using wf_fireTimer.
Qed.

(** When its timer is among those that fire, call [tid] is settled with the
    timeout result and the pending operation of its identifier is gone. *)
Lemma fold_fireTimer_fires tid cb l ex :
  wf ex -> tid ∈ l.*1 ->
  timers ex !! tid = Some cb -> settled ex !! tid = None ->
  settled (fold_left fireTimer l ex) !! tid = Some (timeoutResult (timer_timeout cb))
  /\ pendingOperations (fold_left fireTimer l ex) !! timer_id cb = None.
Proof.
  revert ex. induction l as [| e l IH]; intros ex Hwf Hin Htid Hset; cbn.
  { by apply elem_of_nil in Hin. }
  destruct (decide (e.1 = tid)) as [Heq | Hne].
  - assert (Hfire : fireTimer ex e = runTimerCallback cb (clearTimeout tid ex)).
    { unfold fireTimer. by rewrite Heq, Htid. }
    destruct (wf_timers ex Hwf _ _ Htid) as [_ Hprom].
    split.
    + apply settled_stable_fold. rewrite Hfire. unfold runTimerCallback.
      resolve_fields. prims. rewrite Hprom, decide_True by done. by rewrite Hset.
    + apply pending_none_fold. rewrite Hfire. unfold runTimerCallback.
      resolve_fields. prims. by rewrite lookup_delete_eq.
  - cbn in Hin. apply elem_of_cons in Hin as [Heq | Hin]; [congruence |].
    destruct (fireTimer_other tid cb ex e Hwf Hne Htid Hset).
    apply IH; auto using wf_fireTimer.
Qed.

(** *** A call in flight stays in flight *)

Lemma inFlight_execute tid d id timeout registry document k action options ex :
  wf ex -> inFlight tid d id timeout ex ->
  inFlight tid d id timeout (execute registry document k action options ex).2.
Proof.
  intros Hwf (Htid & Hset & Hclock).
  destruct (wf_timers ex Hwf _ _ Htid) as [Hlt _].
  pose proof (wf_counters ex Hwf) as Hc.
  destruct (execute_cases registry document k action options ex)
    as [-> | [[ops ->] | [[ops ->] | [msg ->]]]]; unfold inFlight;
    resolve_fields; prims; try done.
  - rewrite lookup_insert_ne by lia. done.
  - rewrite lookup_delete_ne, lookup_insert_ne by lia.
    split; [done |]. split; [| done]. case_decide; [lia | done].
Qed.

Lemma inFlight_complete tid d id timeout k result ex :
  wf ex -> inFlight tid d id timeout ex ->
  (forall po, pendingOperations ex !! k = Some po -> resolver_timeoutId (resolve po) <> tid) ->
  inFlight tid d id timeout (complete k result ex).
Proof.
  intros Hwf (Htid & Hset & Hclock) Hharmless. unfold complete.
  destruct (pendingOperations ex !! k) as [po |] eqn:Hpo; [| done].
  specialize (Hharmless po eq_refl).
  destruct (wf_pending ex Hwf _ _ Hpo) as (_ & Hprom & _ & _).
  unfold inFlight, runResolver. resolve_fields. prims.
  rewrite lookup_delete_ne by done. split; [done |]. split; [| done].
  case_decide; [congruence | done].
Qed.

Lemma due_not_inFlight tid d id timeout ex now :
  timers ex !! tid = Some (mkTimer d id tid timeout) -> (now < d)%N ->
  forall l, (forall e, e ∈ l -> timers ex !! e.1 = Some e.2 /\ (due e.2 <= now)%N) ->
  Forall (fun e => e.1 <> tid) l.
Proof.
  intros Htid Hnow l Hl. rewrite Forall_forall. intros e He Heq.
  destruct (Hl e He) as [Hlook Hdue]. rewrite Heq, Htid in Hlook.
  injection Hlook as Hcb. rewrite <- Hcb in Hdue. cbn in Hdue. lia.
Qed.

Lemma inFlight_advance tid d id timeout dt ex :
  wf ex -> inFlight tid d id timeout ex -> (clock ex + dt < d)%N ->
  inFlight tid d id timeout (advance dt ex).
Proof.
  intros Hwf (Htid & Hset & Hclock) Hdt. unfold advance.
  set (ex' := mk _ _ _ _ _ (clock ex + dt) _).
  assert (Hwf' : wf ex') by (destruct Hwf; by split).
  assert (Hothers : Forall (fun e => e.1 <> tid) (dueTimers ex')).
  { apply (due_not_inFlight tid d id timeout ex' (clock ex + dt)); [done | done |].
    intros e He. by apply dueTimers_spec in He. }
  destruct (fold_fireTimer_other tid _ _ ex' Hwf' Hothers Htid Hset) as [Ht Hs].
  unfold inFlight. rewrite clock_fold_fireTimer. cbn. split; [done |]. split; [done | lia].
Qed.

(** A stored resolver under another key does not belong to call [tid]. *)
Lemma other_key_harmless tid d id timeout k ex :
  wf ex -> inFlight tid d id timeout ex -> k <> id ->
  forall po, pendingOperations ex !! k = Some po -> resolver_timeoutId (resolve po) <> tid.
Proof.
  intros Hwf (Htid & _ & _) Hne po Hpo Heq.
  destruct (wf_pending ex Hwf _ _ Hpo) as (_ & _ & _ & Hcb).
  rewrite Heq in Hcb. specialize (Hcb _ Htid). cbn in Hcb. congruence.
Qed.

(** Until its timeout has elapsed, and as long as no completion signal
    for its identifier arrives, a tracked call stays in flight, whatever
    else is executed or completed. *)
Lemma run_inFlight_unsignalled tid d id timeout evs ex :
  wf ex -> inFlight tid d id timeout ex ->
  Forall (fun ev => ~ signals id ev) evs -> staysBefore (d - clock ex) evs ->
  inFlight tid d id timeout (run evs ex).
Proof.
  revert ex. induction evs as [| ev evs IH]; intros ex Hwf Hfl Hq Hd; cbn; [done |].
  inversion_clear Hq as [| ? ? Hev Hq'].
  apply staysBefore_step in Hd as [Hd Hdt].
  apply IH; [by apply wf_step | | done | done].
  destruct ev as [registry document k action options | k result | dt]; cbn.
  - by apply inFlight_execute.
  - apply inFlight_complete; [done | done |].
    eapply other_key_harmless; [done | done |]. cbn in Hev. congruence.
  - by apply inFlight_advance.
Qed.

(** *** The pending operation of a call that is alone on its identifier *)

Lemma soleEntry_execute tid d id timeout registry document k action options ex :
  wf ex -> inFlight tid d id timeout ex -> soleEntry tid id ex -> k <> id ->
  soleEntry tid id (execute registry document k action options ex).2.
Proof.
  intros Hwf (Htid & _ & _) [Hentry Honly] Hne.
  destruct (execute_cases registry document k action options ex)
    as [-> | [[ops ->] | [[ops ->] | [msg ->]]]]; unfold soleEntry;
    resolve_fields; prims; try done.
  - rewrite lookup_insert_ne by done. split; [done |].
    intros tid' cb Hl Hid. apply lookup_insert_Some in Hl as [[_ <-] | [_ Hl]]; [done | eauto].
  - rewrite lookup_delete_ne, lookup_insert_ne by done. split; [done |].
    intros tid' cb Hl Hid. apply lookup_delete_Some in Hl as [_ Hl].
    apply lookup_insert_Some in Hl as [[_ <-] | [_ Hl]]; [done | eauto].
Qed.

Lemma soleEntry_complete tid id k result ex :
  wf ex -> soleEntry tid id ex -> k <> id -> soleEntry tid id (complete k result ex).
Proof.
  intros Hwf [Hentry Honly] Hne. unfold complete.
  destruct (pendingOperations ex !! k) as [po |] eqn:Hpo; [| done].
  destruct (wf_pending ex Hwf _ _ Hpo) as (Hid & _ & _ & _).
  unfold soleEntry, runResolver. resolve_fields. prims.
  rewrite Hid, lookup_delete_ne by done. split; [done |].
  intros tid' cb Hl. apply lookup_delete_Some in Hl as [_ Hl]. eauto.
Qed.

Lemma soleEntry_fireTimer tid id ex e :
  soleEntry tid id ex -> e.1 <> tid -> soleEntry tid id (fireTimer ex e).
Proof.
  intros [Hentry Honly] Hne. unfold fireTimer.
  destruct (timers ex !! e.1) as [cb |] eqn:Hcb; [| done].
  assert (timer_id cb <> id) by (intros Hid; by apply Hne, (Honly _ cb)).
  unfold soleEntry, runTimerCallback. resolve_fields. prims.
  rewrite lookup_delete_ne by done. split; [done |].
  intros tid' cb' Hl. apply lookup_delete_Some in Hl as [_ Hl]. eauto.
Qed.

Lemma soleEntry_fold tid id l ex :
  soleEntry tid id ex -> Forall (fun e => e.1 <> tid) l ->
  soleEntry tid id (fold_left fireTimer l ex).
Proof.
  revert ex. induction l as [| e l IH]; intros ex Hsole Hl; cbn; [done |].
  inversion_clear Hl. apply IH; [by apply soleEntry_fireTimer | done].
Qed.

Lemma soleEntry_advance tid d id timeout dt ex :
  inFlight tid d id timeout ex -> soleEntry tid id ex -> (clock ex + dt < d)%N ->
  soleEntry tid id (advance dt ex).
Proof.
  intros (Htid & _ & _) Hsole Hdt. unfold advance.
  set (ex' := mk _ _ _ _ _ (clock ex + dt) _).
  apply soleEntry_fold; [done |].
  apply (due_not_inFlight tid d id timeout ex' (clock ex + dt)); [done | done |].
  intros e He. by apply dueTimers_spec in He.
Qed.

Lemma run_soleEntry tid d id timeout evs ex :
  wf ex -> inFlight tid d id timeout ex -> soleEntry tid id ex ->
  Forall (fun ev => ~ signals id ev /\ ~ executesOn id ev) evs ->
  staysBefore (d - clock ex) evs ->
  inFlight tid d id timeout (run evs ex) /\ soleEntry tid id (run evs ex).
Proof.
  revert ex. induction evs as [| ev evs IH]; intros ex Hwf Hfl Hsole Hq Hd; cbn; [done |].
  inversion_clear Hq as [| ? ? [Hsig Hexe] Hq'].
  apply staysBefore_step in Hd as [Hd Hdt].
  apply IH; [by apply wf_step | | | done | done].
  - destruct ev as [registry document k action options | k result | dt]; cbn.
    + by apply inFlight_execute.
    + apply inFlight_complete; [done | done |].
      eapply other_key_harmless; [done | done |]. cbn in Hsig. congruence.
    + by apply inFlight_advance.
  - destruct ev as [registry document k action options | k result | dt]; cbn.
    + eapply soleEntry_execute; [done | done | done |]. cbn in Hexe. congruence.
    + apply soleEntry_complete; [done | done |]. cbn in Hsig. congruence.
    + by eapply soleEntry_advance.
Qed.

(** *** A call whose pending operation has been replaced *)

Lemma orphaned_execute tid registry document k action options ex :
  tid < nextTimer ex -> orphaned tid ex ->
  orphaned tid (execute registry document k action options ex).2.
Proof.
  intros Hlt Horph.
  destruct (execute_cases registry document k action options ex)
    as [-> | [[ops ->] | [[ops ->] | [msg ->]]]]; unfold orphaned;
    resolve_fields; prims; try done.
  - intros k' po Hl. apply lookup_insert_Some in Hl as [[_ <-] | [_ Hl]]; cbn; [lia | eauto].
  - intros k' po Hl. apply lookup_delete_Some in Hl as [_ Hl].
    apply lookup_insert_Some in Hl as [[_ <-] | [_ Hl]]; cbn; [lia | eauto].
Qed.

Lemma orphaned_complete tid k result ex :
  orphaned tid ex -> orphaned tid (complete k result ex).
Proof.
  intros Horph. unfold complete. destruct (pendingOperations ex !! k); [| done].
  unfold orphaned, runResolver. resolve_fields. prims.
  intros k' po Hl. apply lookup_delete_Some in Hl as [_ Hl]. eauto.
Qed.

Lemma orphaned_advance tid dt ex : orphaned tid ex -> orphaned tid (advance dt ex).
Proof.
  intros Horph k po Hl. unfold advance in Hl. apply pending_fold_fireTimer in Hl. eauto.
Qed.

Lemma run_inFlight_orphaned tid d id timeout evs ex :
  wf ex -> inFlight tid d id timeout ex -> orphaned tid ex ->
  staysBefore (d - clock ex) evs ->
  inFlight tid d id timeout (run evs ex) /\ orphaned tid (run evs ex).
Proof.
  revert ex. induction evs as [| ev evs IH]; intros ex Hwf Hfl Horph Hd; cbn; [done |].
  assert (Hlt : tid < nextTimer ex).
  { destruct Hfl as (Htid & _ & _). by destruct (wf_timers ex Hwf _ _ Htid). }
  apply staysBefore_step in Hd as [Hd Hdt].
  apply IH; [by apply wf_step | | | done].
  - destruct ev as [registry document k action options | k result | dt]; cbn.
    + by apply inFlight_execute.
    + apply inFlight_complete; [done | done |]. intros po Hpo. by eapply Horph.
    + by apply inFlight_advance.
  - destruct ev as [registry document k action options | k result | dt]; cbn.
    + by apply orphaned_execute.
    + by apply orphaned_complete.
    + by apply orphaned_advance.
Qed.

(** *** The state right after a tracked call *)


Lemma registered_inFlight id timeout ops ex :
  wf ex ->
  inFlight (nextTimer ex) (clock ex + setTimeout_delay timeout) id timeout
    (perform ops (registered id timeout ex)).
Proof.
  intros Hwf. unfold inFlight. prims. rewrite lookup_insert_eq, <- (wf_counters ex Hwf).
  split; [done |]. split; [| lia].
  destruct (settled ex !! nextTimer ex) eqn:Hs; [| done].
  assert (Hlt : nextTimer ex < nextPromise ex) by (apply (wf_settled ex Hwf); eauto).
  rewrite (wf_counters ex Hwf) in Hlt. lia.
Qed.

Lemma registered_soleEntry id timeout ops ex :
  wf ex -> (forall tid cb, timers ex !! tid = Some cb -> timer_id cb <> id) ->
  soleEntry (nextTimer ex) id (perform ops (registered id timeout ex)).
Proof.
  intros Hwf Hfree. unfold soleEntry. prims.
  rewrite lookup_insert_eq, <- (wf_counters ex Hwf). split; [done |].
  intros tid' cb Hl Hid. apply lookup_insert_Some in Hl as [[<- _] | [_ Hl]]; [done |].
  by destruct (Hfree _ _ Hl).
Qed.

Lemma registered_orphans tid d id timeout timeout' ops ex :
  wf ex -> inFlight tid d id timeout ex ->
  orphaned tid (perform ops (registered id timeout' ex)).
Proof.
  intros Hwf Hfl k po Hl. prims.
  apply lookup_insert_Some in Hl as [[_ <-] | [Hne Hl]]; cbn.
  - destruct Hfl as (Htid & _ & _). destruct (wf_timers ex Hwf _ _ Htid). lia.
  - by eapply other_key_harmless.
Qed.

(** *** What a completion signal and an elapsed timeout do *)

Lemma complete_settles tid d id timeout result ex :
  wf ex -> inFlight tid d id timeout ex -> soleEntry tid id ex ->
  settled (complete id result ex) !! tid =
    Some (InteractionResult.mk true (CompletionResult.status result) None
            (CompletionResult.message result) (CompletionResult.effects result))
  /\ pendingOperations (complete id result ex) !! id = None
  /\ (forall tid' cb, timers (complete id result ex) !! tid' = Some cb -> timer_id cb <> id).
Proof.
  intros Hwf (Htid & Hset & _) [Hentry Honly]. unfold complete. rewrite Hentry.
  unfold runResolver. resolve_fields. prims.
  cbn [resolve resolver_promise resolver_id resolver_timeoutId CompletionResult.status
       CompletionResult.message CompletionResult.effects].
  rewrite decide_True, Hset, lookup_delete_eq by done.
  split; [done |]. split; [done |].
  intros tid' cb Hl Hid. apply lookup_delete_Some in Hl as [Hne Hl].
  by apply Hne, eq_sym, (Honly _ cb).
Qed.

Lemma advance_settles tid d id timeout dt ex :
  wf ex -> inFlight tid d id timeout ex -> (d <= clock ex + dt)%N ->
  settled (advance dt ex) !! tid = Some (timeoutResult timeout)
  /\ pendingOperations (advance dt ex) !! id = None.
Proof.
  intros Hwf (Htid & Hset & _) Hdue. unfold advance.
  set (ex' := mk _ _ _ _ _ (clock ex + dt) _).
  assert (Hwf' : wf ex') by (destruct Hwf; by split).
  assert (Hin : tid ∈ (dueTimers ex').*1).
  { apply list_elem_of_fmap. exists (tid, mkTimer d id tid timeout). split; [done |].
    by apply dueTimers_spec. }
  apply (fold_fireTimer_fires tid (mkTimer d id tid timeout) _ ex' Hwf' Hin Htid Hset).
Qed.

(** C1, as the code has it. A call of [execute] that reaches an element
    whose tracking classification is [async] (the preconditions having
    passed) and whose native action is dispatched without an error, with
    a timeout below 2^31 ms (the delays the host's timer keeps), made
    while no earlier tracked call on the
    same identifier still has its timer running and followed by no further
    call on that identifier, is settled by a completion signal for the
    identifier that arrives before the timeout has elapsed: until the
    signal the call waits with its timer running; the signal settles it
    with the signaled status, message and effects and with success [true]
    whatever the status; the timer is cancelled (no timer for the
    identifier is left), the pending operation of the identifier is
    removed, and nothing that happens later, the passing of the original
    timeout included, changes the result. *)
Theorem tracked_call_completed_by_signal
    (registry : ElementRegistry.t) (document : Dom.Document) (id : string)
    (action : InteractionAction.t) (options : InteractionOptions.t)
    (ex : t) (evs : list Event) (result : CompletionResult.t) :
  reachable ex ->
  (forall tid cb, timers ex !! tid = Some cb -> timer_id cb <> id) ->
  trackedCall registry document id action ->
  Forall (fun ev => ~ signals id ev /\ ~ executesOn id ev) evs ->
  (effectiveTimeout options < 2 ^ 31)%N ->
  staysBefore (effectiveTimeout options) evs ->
  exists p tid,
    (execute registry document id action options ex).1 = Waiting p
    /\ timers (run evs (execute registry document id action options ex).2) !! tid
         = Some (mkTimer (clock ex + effectiveTimeout options) id p (effectiveTimeout options))
    /\ settled (run evs (execute registry document id action options ex).2) !! p = None
    /\ let ex3 := complete id result (run evs (execute registry document id action options ex).2) in
       let r := InteractionResult.mk true (CompletionResult.status result) None
                  (CompletionResult.message result) (CompletionResult.effects result) in
       settled ex3 !! p = Some r
       /\ timers ex3 !! tid = None
       /\ (forall tid' cb, timers ex3 !! tid' = Some cb -> timer_id cb <> id)
       /\ pendingOperations ex3 !! id = None
       /\ (forall dt, pendingOperations (advance dt ex3) !! id = None)
       /\ (forall evs', settled (run evs' ex3) !! p = Some r).
Proof.
  intros Hreach Hfree Htracked Hquiet Hsmall Htime.
  pose proof (wf_reachable ex Hreach) as Hwf.
  destruct (execute_tracked registry document id action options ex Htracked) as [ops Hexec].
  rewrite Hexec. cbn [fst snd].
  set (timeout := effectiveTimeout options) in *.
  set (ex1 := perform ops (registered id timeout ex)).
  assert (Hwf1 : wf ex1) by by apply wf_perform, wf_registered.
  assert (Hfl1 : inFlight (nextTimer ex) (clock ex + timeout) id timeout ex1).
  { rewrite <- (setTimeout_delay_exact timeout Hsmall) at 1. by apply registered_inFlight. }
  assert (Hsole1 : soleEntry (nextTimer ex) id ex1) by by apply registered_soleEntry.
  destruct (run_soleEntry _ _ _ _ evs ex1 Hwf1 Hfl1 Hsole1 Hquiet) as [Hfl2 Hsole2].
  { subst ex1. prims. by replace (clock ex + timeout - clock ex)%N with timeout by lia. }
  pose proof (wf_run evs ex1 Hwf1) as Hwf2.
  destruct (complete_settles _ _ _ _ result _ Hwf2 Hfl2 Hsole2) as (Hset3 & Hpend3 & Htim3).
  exists (nextPromise ex), (nextTimer ex).
  rewrite <- (wf_counters ex Hwf) in *.
  destruct Hfl2 as (Htid2 & Hset2 & _).
  split; [done |]. split; [done |]. split; [done |]. cbn zeta.
  split; [done |]. split; [| split; [done |]; split; [done |]; split].
  - destruct (timers (complete id result (run evs ex1)) !! nextTimer ex) as [cb |] eqn:Hcb;
      [| done].
    destruct (wf_timers _ (wf_complete id result _ Hwf2) _ _ Hcb) as [_ Hprom].
    exfalso. apply (Htim3 _ _ Hcb).
    unfold complete in Hcb. destruct Hsole2 as [Hentry _]. rewrite Hentry in Hcb.
    unfold runResolver in Hcb. revert Hcb. resolve_fields. prims.
    by rewrite lookup_delete_eq.
  - intros dt. by apply pending_none_fold.
  - intros evs'. by apply settled_stable_run.
Qed.


(** C3. A completion signal for an identifier that has no pending
    operation leaves the executor exactly as it is: the pending-operation
    map, the timers and the promises are unchanged. *)
Theorem complete_without_pending_is_noop
    (elementId : string) (result : CompletionResult.t) (ex : t) :
  pendingOperations ex !! elementId = None ->
  complete elementId result ex = ex.
Proof. intros Hnone. unfold complete. by rewrite Hnone. Qed.

(** C4. [execute] on a registered element whose description is flagged
    disabled returns success [false] and status ["error"], with an error
    text that cites the disabled reason when there is one and the
    identifier otherwise; the executor state, and with it the log of native
    operations and the pending-operation map, is the one before the call. *)
Theorem execute_disabled_element
    (registry : ElementRegistry.t) (document : Dom.Document) (id : string)
    (action : InteractionAction.t) (options : InteractionOptions.t)
    (ex : t) (sidElement : SIDElement.t) :
  ElementRegistry.get registry id = Some sidElement ->
  SIDElement.disabled sidElement = true ->
  exists error,
    execute registry document id action options ex =
      (Returned (InteractionResult.mk false "error" (Some error) None None), ex)
    /\ (forall reason, SIDElement.disabledDescription sidElement = Some reason ->
          reason <> "" -> error = "Element is disabled: " +:+ reason)
    /\ (SIDElement.disabledDescription sidElement = None
        \/ SIDElement.disabledDescription sidElement = Some "" ->
          error = "Element is disabled: " +:+ id).
Proof.
  intros Hget Hdis. unfold execute. rewrite Hget, Hdis.
  eexists. split; [done |].
  destruct (SIDElement.disabledDescription sidElement) as [[| c reason] |]; cbn.
  - split; [by intros ? [= <-] | done].
  - split; [by intros ? [= <-] | by intros [? | ?]].
  - split; [done | done].
Qed.

(** C5, as the code has it. The preconditions of [execute] are checked in
    order and each failure is returned as a result with success [false],
    the executor left as it was: an identifier that is not registered
    gives the "not found" error before anything else is looked at, and a
    registered element that is not disabled and whose locator resolves to
    no live node gives the "not found in DOM" error; in both cases no
    native action is dispatched. *)
Theorem execute_preconditions
    (registry : ElementRegistry.t) (document : Dom.Document) (id : string)
    (action : InteractionAction.t) (options : InteractionOptions.t) (ex : t) :
  (ElementRegistry.get registry id = None ->
     execute registry document id action options ex =
       (Returned (InteractionResult.mk false "error" (Some ("Element not found: " +:+ id))
                    None None), ex))
  /\ (forall sidElement,
        ElementRegistry.get registry id = Some sidElement ->
        SIDElement.disabled sidElement = false ->
        ElementRegistry.querySelector document (SIDElement.selector sidElement) = None ->
        execute registry document id action options ex =
          (Returned (InteractionResult.mk false "error"
                       (Some ("Element not found in DOM: " +:+ id)) None None), ex)).
Proof.
  split.
  - intros Hget. unfold execute. by rewrite Hget.
  - intros sidElement Hget Hdis Hsel. unfold execute. by rewrite Hget, Hdis, Hsel.
Qed.

(** C8, as the code has it. While a tracked call on an identifier is
    still waiting, a second tracked call on the same identifier replaces
    the pending operation of the identifier by its own. From then on no
    completion signal settles the first call; but the timer of the first
    call keeps running, and when the first call's timeout (below 2^31 ms,
    the delays the host's timer keeps) has elapsed, that timer settles the
    first call with status ["timeout"]. *)
Theorem replaced_call_settles_by_its_timer
    (registry1 registry2 : ElementRegistry.t) (document1 document2 : Dom.Document)
    (id : string) (action1 action2 : InteractionAction.t)
    (options1 options2 : InteractionOptions.t)
    (ex : t) (between after : list Event) (dt : N) :
  reachable ex ->
  trackedCall registry1 document1 id action1 ->
  trackedCall registry2 document2 id action2 ->
  Forall (fun ev => ~ signals id ev) between ->
  (effectiveTimeout options1 < 2 ^ 31)%N ->
  staysBefore (effectiveTimeout options1) (between ++ after) ->
  (effectiveTimeout options1 <= elapsed between + elapsed after + dt)%N ->
  let ex1 := (execute registry1 document1 id action1 options1 ex).2 in
  let exB := run between ex1 in
  let ex2 := (execute registry2 document2 id action2 options2 exB).2 in
  exists p1 p2 tid2,
    (execute registry1 document1 id action1 options1 ex).1 = Waiting p1
    /\ (execute registry2 document2 id action2 options2 exB).1 = Waiting p2
    /\ p1 <> p2
    /\ settled exB !! p1 = None
    /\ pendingOperations ex2 !! id = Some (mkPending (mkResolver tid2 id p2) tid2)
    /\ settled (run after ex2) !! p1 = None
    /\ settled (advance dt (run after ex2)) !! p1 =
         Some (timeoutResult (effectiveTimeout options1)).
Proof.
  intros Hreach Htracked1 Htracked2 Hquiet Hsmall Hbefore Hafter. cbn zeta.
  apply staysBefore_app in Hbefore as [Hbetween Hlater].
  pose proof (wf_reachable ex Hreach) as Hwf.
  destruct (execute_tracked registry1 document1 id action1 options1 ex Htracked1)
    as [ops1 Hexec1].
  rewrite Hexec1. cbn [fst snd].
  set (timeout := effectiveTimeout options1) in *.
  set (ex1 := perform ops1 (registered id timeout ex)) in *.
  set (exB := run between ex1).
  assert (Hwf1 : wf ex1) by by apply wf_perform, wf_registered.
  assert (Hfl1 : inFlight (nextTimer ex) (clock ex + timeout) id timeout ex1).
  { rewrite <- (setTimeout_delay_exact timeout Hsmall) at 1. by apply registered_inFlight. }
  assert (Hclock1 : clock ex1 = clock ex) by done.
  assert (HflB : inFlight (nextTimer ex) (clock ex + timeout) id timeout exB).
  { apply run_inFlight_unsignalled; [done | done | done |].
    rewrite Hclock1. by replace (clock ex + timeout - clock ex)%N with timeout by lia. }
  pose proof (wf_run between ex1 Hwf1) as HwfB. fold exB in HwfB.
  destruct (execute_tracked registry2 document2 id action2 options2 exB Htracked2)
    as [ops2 Hexec2].
  rewrite Hexec2. cbn [fst snd].
  set (ex2 := perform ops2 (registered id (effectiveTimeout options2) exB)) in *.
  assert (Hwf2 : wf ex2) by by apply wf_perform, wf_registered.
  assert (Hfl2 : inFlight (nextTimer ex) (clock ex + timeout) id timeout ex2).
  { pose proof (inFlight_execute _ _ _ _ registry2 document2 id action2 options2 exB
                  HwfB HflB) as Hfl. by rewrite Hexec2 in Hfl. }
  assert (Horph2 : orphaned (nextTimer ex) ex2) by by eapply registered_orphans.
  assert (HclockB : clock ex2 = (clock ex + elapsed between)%N).
  { subst ex2. prims. unfold exB. by rewrite clock_run, Hclock1. }
  destruct (run_inFlight_orphaned _ _ _ _ after ex2 Hwf2 Hfl2 Horph2) as [Hfl3 _].
  { rewrite HclockB.
    by replace (clock ex + timeout - (clock ex + elapsed between))%N
      with (timeout - elapsed between)%N by lia. }
  pose proof (wf_run after ex2 Hwf2) as Hwf3.
  destruct (advance_settles _ _ _ _ dt _ Hwf3 Hfl3) as [Hset4 _].
  { rewrite clock_run. lia. }
  exists (nextPromise ex), (nextPromise exB), (nextTimer exB).
  rewrite <- (wf_counters ex Hwf).
  destruct HflB as (HtidB & HsetB & _). destruct Hfl3 as (_ & Hset3 & _).
  split; [done |]. split; [done |]. split.
  { destruct (wf_timers exB HwfB _ _ HtidB) as [Hlt _].
    rewrite <- (wf_counters exB HwfB). lia. }
  split; [done |]. split; [| done].
  subst ex2. prims. by rewrite lookup_insert_eq.
Qed.

End InteractionExecutorProperties.

(** * Further properties of the code *)

(** ** Strings *)

Section JsStringProperties.
Import JsString.

Lemma is_whitespace_lower_char c : is_whitespace (lower_char c) = is_whitespace c.
Proof. destruct c as [[] [] [] [] [] [] [] []]; reflexivity. Qed.

Lemma lower_char_idem c : lower_char (lower_char c) = lower_char c.
Proof. destruct c as [[] [] [] [] [] [] [] []]; reflexivity. Qed.

Lemma lower_char_comma c : Ascii.eqb (lower_char c) ","%char = Ascii.eqb c ","%char.
Proof. destruct c as [[] [] [] [] [] [] [] []]; reflexivity. Qed.

Lemma whitespace_not_comma c : is_whitespace c = true -> Ascii.eqb c ","%char = false.
Proof. destruct c as [[] [] [] [] [] [] [] []]; cbv; congruence. Qed.

Lemma toLowerCase_idem s : toLowerCase (toLowerCase s) = toLowerCase s.
Proof. induction s as [| c s IH]; cbn; [done |]. by rewrite lower_char_idem, IH. Qed.

Lemma truthy_toLowerCase s : truthy (toLowerCase s) = truthy s.
Proof. by destruct s. Qed.

Lemma trimStart_toLowerCase s : trimStart (toLowerCase s) = toLowerCase (trimStart s).
Proof.
  induction s as [| c s IH]; cbn; [done |].
  rewrite is_whitespace_lower_char. by destruct (is_whitespace c).
Qed.

Lemma trimEnd_toLowerCase s : trimEnd (toLowerCase s) = toLowerCase (trimEnd s).
Proof.
  induction s as [| c s IH]; cbn; [done |].
  rewrite IH, is_whitespace_lower_char.
  destruct (trimEnd s); cbn; [by destruct (is_whitespace c) | done].
Qed.

Lemma trim_toLowerCase s : trim (toLowerCase s) = toLowerCase (trim s).
Proof. unfold trim. by rewrite trimStart_toLowerCase, trimEnd_toLowerCase. Qed.

Lemma split_toLowerCase s :
  split ","%char (toLowerCase s) = List.map toLowerCase (split ","%char s).
Proof.
  induction s as [| c s IH]; cbn; [done |].
  rewrite lower_char_comma, IH.
  destruct (Ascii.eqb c ","%char) eqn:Hc; cbn.
  - done.
  - by destruct (split ","%char s).
Qed.

(** What [trimStart] returns does not start with white space. *)
Lemma trimStart_head s :
  match trimStart s with
  | EmptyString => True
  | String c _ => is_whitespace c = false
  end.
Proof.
  induction s as [| c s IH]; cbn; [done |].
  destruct (is_whitespace c) eqn:Hc; [done | cbn; done].
Qed.

Lemma trimEnd_idem s : trimEnd (trimEnd s) = trimEnd s.
Proof.
  induction s as [| c s IH]; cbn; [done |].
  destruct (trimEnd s) as [| c' r] eqn:Hr.
  - destruct (is_whitespace c) eqn:Hc; cbn; [done | by rewrite Hc].
  - cbn [trimEnd] in IH |- *. fold (trimEnd (String c' r)). by rewrite IH.
Qed.

(** [trimEnd] keeps a first character that is not white space. *)
Lemma trimEnd_keeps_head c s :
  is_whitespace c = false -> exists r, trimEnd (String c s) = String c r.
Proof.
  intros Hc. cbn. destruct (trimEnd s); [rewrite Hc |]; eauto.
Qed.

Lemma trim_idem s : trim (trim s) = trim s.
Proof.
  unfold trim. pose proof (trimStart_head s) as Hhead.
  destruct (trimStart s) as [| c t] eqn:Ht; [done |].
  destruct (trimEnd_keeps_head c t Hhead) as [r Hr]. rewrite Hr.
  cbn [trimStart]. rewrite Hhead, <- Hr. apply trimEnd_idem.
Qed.

Lemma trim_empty_of_empty s : s = EmptyString -> trim s = EmptyString.
Proof. by intros ->. Qed.

Lemma countChar_trimStart s : countChar ","%char (trimStart s) = countChar ","%char s.
Proof.
  induction s as [| c s IH]; cbn; [done |].
  destruct (is_whitespace c) eqn:Hc; [| done].
  by rewrite (whitespace_not_comma c Hc).
Qed.

Lemma countChar_trimEnd s : countChar ","%char (trimEnd s) = countChar ","%char s.
Proof.
  induction s as [| c s IH]; cbn; [done |].
  destruct (trimEnd s) as [| c' r] eqn:Hr.
  - cbn in IH. destruct (is_whitespace c) eqn:Hc; cbn.
    + rewrite (whitespace_not_comma c Hc). lia.
    + lia.
  - cbn [countChar] in IH |- *. lia.
Qed.

Lemma countChar_trim s : countChar ","%char (trim s) = countChar ","%char s.
Proof. unfold trim. by rewrite countChar_trimEnd, countChar_trimStart. Qed.

Lemma length_split sep s : List.length (split sep s) = S (countChar sep s).
Proof.
  induction s as [| c s IH]; cbn; [done |].
  destruct (Ascii.eqb c sep); cbn; [by rewrite IH |].
  destruct (split sep s); cbn in *; lia.
Qed.

(** The parts of a split do not contain the separator. *)
Lemma split_parts sep s : Forall (fun p => countChar sep p = 0) (split sep s).
Proof.
  induction s as [| c s IH]; cbn; [by repeat constructor |].
  destruct (Ascii.eqb c sep) eqn:Hc; [by constructor |].
  destruct (split sep s) as [| p ps]; [repeat constructor; cbn; by rewrite Hc |].
  inversion_clear IH. constructor; [cbn; by rewrite Hc | done].
Qed.

Lemma trim_nonempty_head s :
  match trim s with
  | EmptyString => True
  | String c _ => is_whitespace c = false
  end.
Proof.
  unfold trim. pose proof (trimStart_head s) as Hhead.
  destruct (trimStart s) as [| c t]; [done |].
  destruct (trimEnd_keeps_head c t Hhead) as [r ->]. done.
Qed.

End JsStringProperties.

(** ** Attribute parser, further *)

Section AttributeParserFurther.
Context `{Host}.
Import AttributeParser.

(** X1. The input-constraint parser ignores letter case and surrounding
    white space: a string, its lower-case form and its trimmed form are
    parsed alike. *)
Theorem parseInputAttribute_normalises (value : string) :
  parseInputAttribute (JsString.toLowerCase value) = parseInputAttribute value
  /\ parseInputAttribute (JsString.trim value) = parseInputAttribute value.
Proof.
  split.
  - unfold parseInputAttribute.
    rewrite truthy_toLowerCase, trim_toLowerCase, split_toLowerCase, List.map_map.
    erewrite List.map_ext; [done |].
    intros p. cbn. by rewrite trim_toLowerCase, toLowerCase_idem.
  - unfold parseInputAttribute. rewrite trim_idem.
    destruct (JsString.trim value) as [| c t] eqn:Htrim.
    + cbn. by destruct (negb (JsString.truthy value)).
    + destruct value; [by cbv in Htrim | done].
Qed.

Lemma parseInputAttribute_parts (value : string) (i : InputDefinition.t) :
  parseInputAttribute value = Some i ->
  countChar ","%char value = 1
  /\ isValidInputDataType (InputDefinition.dataType i) = true
  /\ InputDefinition.options i = None.
Proof.
  unfold parseInputAttribute.
  destruct (negb (JsString.truthy value)); [discriminate |].
  pose proof (length_split ","%char (JsString.trim value)) as Hlen.
  rewrite <- (List.length_map (fun p => JsString.toLowerCase (JsString.trim p))) in Hlen.
  rewrite countChar_trim in Hlen.
  destruct (List.map _ _) as [| d [| r [| ? ?]]]; try discriminate.
  destruct (isValidInputDataType d) eqn:Hd; cbn [negb]; [| discriminate].
  destruct (negb (String.eqb r "required") && negb (String.eqb r "optional"));
    [discriminate |].
  intros [= <-]. cbn in Hlen |- *. split; [lia | done].
Qed.

Lemma isValidInputDataType_elem (d : string) :
  isValidInputDataType d = true ->
  d ∈ VALID_INPUT_DATA_TYPES /\ JsString.toLowerCase d = d.
Proof.
  intros Hd. apply isValidInputDataType_cases in Hd.
  destruct Hd as [-> | [-> | [-> | [-> | [-> | ->]]]]]; (split; [set_solver | done]).
Qed.

(** X2. A string is accepted as an input constraint only if it has
    exactly one comma; the record then holds one of the six data types, in
    lower case, and no options. *)
Theorem parseInputAttribute_accepts (value : string) (i : InputDefinition.t) :
  parseInputAttribute value = Some i ->
  countChar ","%char value = 1
  /\ InputDefinition.dataType i ∈ VALID_INPUT_DATA_TYPES
  /\ JsString.toLowerCase (InputDefinition.dataType i) = InputDefinition.dataType i
  /\ InputDefinition.options i = None.
Proof.
  intros Hparse. destruct (parseInputAttribute_parts value i Hparse) as (Hcount & Hd & Hopt).
  destruct (isValidInputDataType_elem _ Hd). done.
Qed.

(** X3. The options parser returns either nothing or a list that is not
    empty, whose entries are not empty, carry no white space at either end
    and contain no comma. *)
Theorem parseOptionsAttribute_entries (value : option string) (options : list string) :
  parseOptionsAttribute value = Some options ->
  options <> []
  /\ Forall (fun o => o <> EmptyString /\ JsString.trim o = o /\ countChar ","%char o = 0)
       options.
Proof.
  unfold parseOptionsAttribute. destruct value as [value |]; [| discriminate].
  destruct (negb (JsString.truthy value)); [discriminate |].
  destruct (negb (JsString.truthy (JsString.trim value))); [discriminate |].
  pose proof (split_parts ","%char (JsString.trim value)) as Hparts.
  set (parts := JsString.split ","%char (JsString.trim value)) in *.
  assert (Hall : Forall
    (fun o => o <> EmptyString /\ JsString.trim o = o /\ countChar ","%char o = 0)
    (List.filter (fun opt => negb (String.length opt =? 0)%nat)
       (List.map JsString.trim parts))).
  { rewrite Forall_forall. intros o Ho.
    apply list_elem_of_In, filter_In in Ho as [Ho Hne].
    apply in_map_iff in Ho as (p & <- & Hp).
    split; [by destruct (JsString.trim p) |]. split; [apply trim_idem |].
    rewrite countChar_trim. rewrite Forall_forall in Hparts.
    by apply Hparts, list_elem_of_In. }
  destruct (List.filter _ _) as [| o rest] eqn:Hfilter; [discriminate |].
  intros [= <-]. by split.
Qed.

(** X4. A human-input requirement that is accepted is a JSON object with
    a string [reason] and a [schema] that is an object or an array; the
    value is the one [JSON.parse] made of the trimmed attribute. *)
Theorem parseHumanInputAttribute_shape (value : string) (parsed : json) :
  parseHumanInputAttribute value = Some parsed ->
  JSON_parse (JsString.trim value) = Some parsed
  /\ (exists fields, parsed = JObject fields)
  /\ (exists reason, json_get parsed "reason" = Some (JString reason))
  /\ ((exists fields, json_get parsed "schema" = Some (JObject fields))
      \/ (exists items, json_get parsed "schema" = Some (JArray items))).
Proof.
  unfold parseHumanInputAttribute.
  destruct (negb (JsString.truthy value)); [discriminate |].
  destruct (negb (JsString.truthy (JsString.trim value))); [discriminate |].
  destruct (JSON_parse (JsString.trim value)) as [v |]; [| discriminate].
  destruct (json_get v "reason") as [[| | | reason | |] |] eqn:Hreason;
    try (rewrite !orb_true_r; discriminate);
    try (cbn [negb]; rewrite ?orb_true_r; cbn [orb]; discriminate).
  all: destruct (json_get v "schema") as [[| | | | items | fields] |] eqn:Hschema;
    cbn [negb]; rewrite ?orb_true_r, ?orb_false_r; try discriminate.
  all: destruct v; cbn in Hreason; try discriminate; cbn;
    intros [= <-]; repeat split; eauto.
Qed.

(** What [parseAttributes] returns, field by field. *)
Lemma parseAttributes_fields (el : Dom.ElementData) :
  (parseAttributes el = None <->
     Dom.getAttribute el "data-sid" = None \/ Dom.getAttribute el "data-sid" = Some "")
  /\ forall attrs, parseAttributes el = Some attrs ->
       Dom.getAttribute el "data-sid" = Some (ParsedAttributes.id attrs)
       /\ ParsedAttributes.id attrs <> ""
       /\ ParsedAttributes.action attrs ∈ VALID_ACTION_TYPES
       /\ ParsedAttributes.tracking attrs ∈ VALID_TRACKING_TYPES
       /\ (forall i, ParsedAttributes.input attrs = Some i ->
             InputDefinition.dataType i ∈ VALID_INPUT_DATA_TYPES
             /\ (forall o, ParsedAttributes.options attrs = Some o ->
                   InputDefinition.options i = Some o))
       /\ ParsedAttributes.descriptionLong attrs <> Some ""
       /\ ParsedAttributes.destination attrs <> Some ""
       /\ ParsedAttributes.disabledDescription attrs <> Some ""
       /\ (ParsedAttributes.disabled attrs = true <->
             Dom.getAttribute el "data-sid-disabled" = Some "true").
Proof.
  assert (Hor : forall a, JsString.or_undefined a <> Some "").
  { intros [[| c s] |]; cbn; congruence. }
  assert (Hincl : forall l v d, (if includes l v then v else d) ∈ l \/ 
                                 (if includes l v then v else d) = d).
  { intros l v d. unfold includes. destruct (existsb _ l) eqn:Hex; [left | by right].
    apply existsb_exists in Hex as (x & Hx & Heq).
    apply String.eqb_eq in Heq as ->. by apply list_elem_of_In. }
  unfold parseAttributes.
  destruct (Dom.getAttribute el "data-sid") as [id |] eqn:Hid;
    [| split; [by intuition | discriminate]].
  destruct id as [| c id]; cbn [JsString.truthy negb];
    [split; [by intuition | discriminate] |].
  split; [split; [discriminate | intros [? | ?]; discriminate] |].
  intros attrs [= <-].
  cbn [ParsedAttributes.id ParsedAttributes.action ParsedAttributes.tracking
       ParsedAttributes.input ParsedAttributes.options ParsedAttributes.descriptionLong
       ParsedAttributes.destination ParsedAttributes.disabledDescription
       ParsedAttributes.disabled].
  split; [done |]. split; [done |]. split; [| split; [| split; [| repeat split; try apply Hor]]].
  - destruct (JsString.or_undefined (Dom.getAttribute el "data-sid-action")) as [a |];
      [| set_solver].
    unfold isValidActionType.
    destruct (Hincl VALID_ACTION_TYPES (JsString.toLowerCase (JsString.trim a)) "click")
      as [Hin | ->]; [done | set_solver].
  - destruct (JsString.or_undefined (Dom.getAttribute el "data-sid-tracking")) as [a |];
      [| set_solver].
    unfold isValidTrackingType.
    destruct (Hincl VALID_TRACKING_TYPES (JsString.toLowerCase (JsString.trim a)) "async")
      as [Hin | ->]; [done | set_solver].
  - intros i Hi.
    destruct (JsString.or_undefined (Dom.getAttribute el "data-sid-input")) as [a |];
      [| by destruct (parseOptionsAttribute _)].
    destruct (parseInputAttribute a) as [i0 |] eqn:Hparse;
      [| by destruct (parseOptionsAttribute _)].
    destruct (parseInputAttribute_parts a i0 Hparse) as (_ & Hd & _).
    destruct (isValidInputDataType_elem _ Hd) as [Htype _].
    destruct (parseOptionsAttribute (Dom.getAttribute el "data-sid-options")) as [o |];
      injection Hi as <-; cbn; (split; [done |]); [by intros ? [= <-] | discriminate].
  - destruct (Dom.getAttribute el "data-sid-disabled") as [v |]; [| discriminate].
    intros Heq. f_equal. by apply String.eqb_eq.
  - destruct (Dom.getAttribute el "data-sid-disabled") as [v |]; [| discriminate].
    intros [= ->]. done.
Qed.

(** X5. The attribute parser returns nothing exactly when the node has no
    [data-sid] value; what it returns is always valid: the identifier is
    the [data-sid] value, the action and the tracking kind belong to their
    enumerations, an input constraint has a valid data type and carries the
    parsed options when there are any, no optional text is the empty
    string, and the disabled flag is set exactly by the value ["true"].
    The action kind is the value of [data-sid-action], trimmed and in
    lower case, when that is one of the six kinds, and the default
    [click] when the attribute is absent or holds anything else; the
    tracking kind is read from [data-sid-tracking] in the same way, with
    the default [async]. *)
Theorem parseAttributes_valid (el : Dom.ElementData) :
  (parseAttributes el = None <->
     Dom.getAttribute el "data-sid" = None \/ Dom.getAttribute el "data-sid" = Some "")
  /\ forall attrs, parseAttributes el = Some attrs ->
       Dom.getAttribute el "data-sid" = Some (ParsedAttributes.id attrs)
       /\ ParsedAttributes.id attrs <> ""
       /\ ParsedAttributes.action attrs ∈ VALID_ACTION_TYPES
       /\ ParsedAttributes.tracking attrs ∈ VALID_TRACKING_TYPES
       /\ (forall i, ParsedAttributes.input attrs = Some i ->
             InputDefinition.dataType i ∈ VALID_INPUT_DATA_TYPES
             /\ (forall o, ParsedAttributes.options attrs = Some o ->
                   InputDefinition.options i = Some o))
       /\ ParsedAttributes.descriptionLong attrs <> Some ""
       /\ ParsedAttributes.destination attrs <> Some ""
       /\ ParsedAttributes.disabledDescription attrs <> Some ""
       /\ (ParsedAttributes.disabled attrs = true <->
             Dom.getAttribute el "data-sid-disabled" = Some "true")
       /\ (forall a, Dom.getAttribute el "data-sid-action" = Some a ->
             (JsString.toLowerCase (JsString.trim a) ∈ VALID_ACTION_TYPES ->
                ParsedAttributes.action attrs = JsString.toLowerCase (JsString.trim a))
             /\ (JsString.toLowerCase (JsString.trim a) ∉ VALID_ACTION_TYPES ->
                   ParsedAttributes.action attrs = "click"))
       /\ (Dom.getAttribute el "data-sid-action" = None ->
             ParsedAttributes.action attrs = "click")
       /\ (forall a, Dom.getAttribute el "data-sid-tracking" = Some a ->
             (JsString.toLowerCase (JsString.trim a) ∈ VALID_TRACKING_TYPES ->
                ParsedAttributes.tracking attrs = JsString.toLowerCase (JsString.trim a))
             /\ (JsString.toLowerCase (JsString.trim a) ∉ VALID_TRACKING_TYPES ->
                   ParsedAttributes.tracking attrs = "async"))
       /\ (Dom.getAttribute el "data-sid-tracking" = None ->
             ParsedAttributes.tracking attrs = "async").
Proof.
  destruct (parseAttributes_fields el) as [Hnone Hfields].
  split; [exact Hnone |].
  intros attrs Hattrs.
  destruct (Hfields attrs Hattrs) as (V1 & V2 & V3 & V4 & V5 & V6 & V7 & V8 & V9).
  destruct (parseAttributes_declared el attrs Hattrs) as (_ & Haction & Htracking & _).
  do 9 (split; [assumption |]).
  rewrite Haction, Htracking. unfold declaredAction, declaredTracking.
  split; [| split; [| split]].
  - intros a ->. cbn zeta. by split; intros Hin; case_bool_decide.
  - by intros ->.
  - intros a ->. cbn zeta. by split; intros Hin; case_bool_decide.
  - by intros ->.
Qed.

End AttributeParserFurther.

(** ** Maps in insertion order *)

Section JsMapProperties.
Context {V : Type}.
Implicit Types (m : JsMap.t V) (k : string) (v : V).

Lemma JsMap_get_set m k v k' :
  JsMap.get (JsMap.set m k v) k' = if String.eqb k k' then Some v else JsMap.get m k'.
Proof.
  unfold JsMap.get. induction m as [| [k0 v0] m IH]; cbn.
  - by destruct (String.eqb k k').
  - destruct (String.eqb_spec k0 k) as [-> | Hne]; cbn.
    + by destruct (String.eqb k k').
    + destruct (String.eqb_spec k0 k') as [-> | Hne']; cbn.
      * destruct (String.eqb_spec k k'); [congruence | done].
      * apply IH.
Qed.

Lemma JsMap_get_delete m k k' :
  JsMap.get (JsMap.delete m k) k' = if String.eqb k k' then None else JsMap.get m k'.
Proof.
  unfold JsMap.get, JsMap.delete. induction m as [| [k0 v0] m IH]; cbn.
  - by destruct (String.eqb k k').
  - destruct (String.eqb_spec k0 k) as [-> | Hne]; cbn.
    + rewrite IH. destruct (String.eqb_spec k k'); [done |]. by done.
    + destruct (String.eqb_spec k0 k') as [-> | Hne']; cbn.
      * destruct (String.eqb_spec k k'); [congruence | done].
      * apply IH.
Qed.

Lemma JsMap_keys_set m k v :
  ((fst <$> JsMap.set m k v) = (fst <$> m) /\ k ∈ (fst <$> m))
  \/ ((fst <$> JsMap.set m k v) = (fst <$> m) ++ [k] /\ k ∉ (fst <$> m)).
Proof.
  induction m as [| [k0 v0] m IH]; cbn.
  - right. split; [done | apply not_elem_of_nil].
  - destruct (String.eqb_spec k0 k) as [-> | Hne]; cbn.
    + left. split; [done | apply list_elem_of_here].
    + destruct IH as [[-> Hin] | [-> Hnin]].
      * left. split; [done | by apply list_elem_of_further].
      * right. split; [done |]. intros [? | ?]%elem_of_cons; congruence.
Qed.

Lemma JsMap_NoDup_set m k v : NoDup m.*1 -> NoDup (JsMap.set m k v).*1.
Proof.
  intros Hm. destruct (JsMap_keys_set m k v) as [[-> _] | [-> Hnin]]; [done |].
  apply NoDup_app. split; [done |]. split; [| apply NoDup_singleton].
  intros x Hx ->%list_elem_of_singleton. done.
Qed.

Lemma JsMap_Forall_set (P : string * V -> Prop) m k v :
  Forall P m -> P (k, v) -> Forall P (JsMap.set m k v).
Proof.
  intros Hm Hv. induction m as [| [k' v'] m IH]; cbn; [by constructor |].
  inversion_clear Hm. destruct (String.eqb k' k); constructor; auto.
Qed.

Lemma JsMap_Forall_delete (P : string * V -> Prop) m k :
  Forall P m -> Forall P (JsMap.delete m k).
Proof.
  unfold JsMap.delete. intros Hm. induction Hm as [| kv m Hkv Hm IH]; cbn; [constructor |].
  destruct (negb _); [constructor |]; auto.
Qed.

Lemma JsMap_NoDup_delete m k : NoDup m.*1 -> NoDup (JsMap.delete m k).*1.
Proof.
  unfold JsMap.delete. induction m as [| [k0 v0] m IH]; cbn; [done |].
  intros [Hnin Hm]%NoDup_cons. destruct (negb (String.eqb k0 k)); cbn; [| auto].
  apply NoDup_cons. split; [| auto].
  intros Hin. apply Hnin. apply list_elem_of_fmap in Hin as (kv & -> & Hkv).
  apply list_elem_of_fmap. exists kv. split; [done |].
  apply list_elem_of_In. apply list_elem_of_In, filter_In in Hkv. tauto.
Qed.

Lemma JsMap_get_elem m k v : (k, v) ∈ m -> NoDup m.*1 -> JsMap.get m k = Some v.
Proof.
  unfold JsMap.get. induction m as [| [k0 v0] m IH]; cbn.
  - by intros ?%elem_of_nil.
  - intros Hin [Hnin Hm]%NoDup_cons.
    apply elem_of_cons in Hin as [[= <- <-] | Hin].
    + by rewrite String.eqb_refl.
    + destruct (String.eqb_spec k0 k) as [-> | Hne]; cbn; [| auto].
      exfalso. apply Hnin. apply list_elem_of_fmap. by exists (k, v).
Qed.

Lemma JsMap_get_Some m k v : JsMap.get m k = Some v -> (k, v) ∈ m.
Proof.
  unfold JsMap.get. induction m as [| [k0 v0] m IH]; cbn; [discriminate |].
  destruct (String.eqb_spec k0 k) as [-> | Hne]; cbn.
  - intros [= <-]. apply list_elem_of_here.
  - intros Hget. by apply list_elem_of_further, IH.
Qed.

End JsMapProperties.

(** ** Element registry, further *)

Section ElementRegistryFurther.
Context `{Host}.
Import ElementRegistry.

Lemma parseElement_id el e :
  parseElement el = Some e ->
  Dom.getAttribute el "data-sid" = Some (SIDElement.id e)
  /\ SIDElement.id e <> ""
  /\ SIDElement.selector e = generateSelector (SIDElement.id e).
Proof.
  unfold parseElement, AttributeParser.parseAttributes.
  destruct (Dom.getAttribute el "data-sid") as [[| c id] |]; cbn; try discriminate.
  by intros [= <-].
Qed.

Lemma parseElement_carries el id :
  id <> "" -> carriesId id el = true -> exists e, parseElement el = Some e /\ SIDElement.id e = id.
Proof.
  unfold carriesId, parseElement, AttributeParser.parseAttributes.
  destruct (Dom.getAttribute el "data-sid") as [v |]; [| discriminate].
  intros Hne ->%String.eqb_eq. destruct id; [done |]. cbn. eauto.
Qed.

(** Registering a node sets the entry of the identifier it carries and no
    other. *)
Lemma get_register m el id :
  id <> "" ->
  JsMap.get (register m el) id = if carriesId id el then parseElement el else JsMap.get m id.
Proof.
  intros Hne. unfold register.
  destruct (parseElement el) as [e |] eqn:Hparse.
  - destruct (parseElement_id el e Hparse) as (Hattr & _ & _).
    rewrite JsMap_get_set. unfold carriesId. rewrite Hattr. done.
  - destruct (carriesId id el) eqn:Hc; [| done].
    destruct (parseElement_carries el id Hne Hc) as (e & He & _). congruence.
Qed.

Lemma get_fold_register els m id :
  id <> "" ->
  JsMap.get (fold_left register els m) id =
    match last (List.filter (carriesId id) els) with
    | Some el => parseElement el
    | None => JsMap.get m id
    end.
Proof.
  intros Hne. induction els as [| el els IH] using rev_ind; [done |].
  rewrite fold_left_app, List.filter_app. cbn [fold_left List.filter].
  rewrite get_register by done.
  destruct (carriesId id el); [by rewrite last_snoc | by rewrite app_nil_r].
Qed.

Lemma filter_carries_has id (l : list (Dom.ElementData * list Dom.Node)) :
  List.filter (carriesId id)
    (List.map fst (List.filter (fun ec => Dom.hasAttribute ec.1 "data-sid") l))
  = List.filter (carriesId id) (List.map fst l).
Proof.
  induction l as [| [e ch] l IH]; [done |].
  cbn [List.filter List.map fst]. rewrite <- IH.
  destruct (Dom.hasAttribute e "data-sid") eqn:Hhas; [done |].
  assert (carriesId id e = false) as ->; [| done].
  unfold carriesId. unfold Dom.hasAttribute in Hhas.
  by destruct (Dom.getAttribute e "data-sid").
Qed.

Lemma fold_register_fst (l : list (Dom.ElementData * list Dom.Node)) m :
  fold_left (fun m ec => register m ec.1) l m = fold_left register (List.map fst l) m.
Proof. revert m. induction l as [| ec l IH]; intros m; cbn; [done | apply IH]. Qed.

(** X6. After a scan of the document, the entry of an identifier is the
    description parsed from the last node, in document order, that carries
    the identifier; there is no entry when no node carries it. Earlier
    entries of the registry play no part. *)
Theorem scanDocument_last_wins (doc : Dom.Document) (r : t) (id : string) :
  id <> "" ->
  get (scanDocument doc r) id =
    match last (List.filter (carriesId id) (List.map fst (Dom.elements_of_list doc))) with
    | Some el => parseElement el
    | None => None
    end.
Proof.
  intros Hne. unfold get, scanDocument. cbn [elements].
  rewrite fold_register_fst, get_fold_register by done.
  unfold Dom.querySelectorAll_data_sid. by rewrite filter_carries_has.
Qed.

(** X7. When a node that is an [HTMLElement] is inserted, the node and
    its descendants are indexed: the entry of an identifier becomes the
    description parsed from the last of them that carries it, and the
    entry of an identifier that none of them carries stays as it is. An
    inserted node that is not an [HTMLElement] (an SVG or MathML element)
    is skipped with its descendants: the registry stays as it is. *)
Theorem added_node_is_indexed (doc : Dom.Document) (e : Dom.ElementData)
    (children : list Dom.Node) (r : t) (id : string) :
  id <> "" ->
  get (handleMutations doc [ChildList [Dom.Element e children] []] r) id =
    (if Dom.is_HTMLElement e then
       match last (List.filter (carriesId id)
                     (e :: List.map fst (Dom.elements_of_list children))) with
       | Some el => parseElement el
       | None => get r id
       end
     else get r id)
  /\ (Dom.is_HTMLElement e = false ->
        handleMutations doc [ChildList [Dom.Element e children] []] r = r).
Proof.
  intros Hne. unfold get, handleMutations. cbn [elements fold_left handleMutation].
  destruct (Dom.is_HTMLElement e); [| split; [done | by destruct r]].
  split; [| discriminate].
  unfold handleAddedNode.
  rewrite fold_register_fst.
  assert (Hself : (if Dom.hasAttribute e "data-sid" then register (elements r) e
                   else elements r) = register (elements r) e).
  { unfold Dom.hasAttribute, register, parseElement, AttributeParser.parseAttributes.
    by destruct (Dom.getAttribute e "data-sid"). }
  rewrite Hself.
  change (fold_left register ?l (register ?m e)) with (fold_left register (e :: l) m).
  rewrite get_fold_register by done.
  unfold Dom.querySelectorAll_data_sid. cbn [List.filter].
  destruct (carriesId id e); by rewrite filter_carries_has.
Qed.

Lemma get_unregister m el id :
  id <> "" ->
  JsMap.get (unregister m el) id = if carriesId id el then None else JsMap.get m id.
Proof.
  intros Hne. unfold unregister, carriesId.
  destruct (Dom.getAttribute el "data-sid") as [[| c v] |]; cbn [JsString.truthy].
  - destruct (String.eqb_spec "" id); [congruence | done].
  - apply JsMap_get_delete.
  - done.
Qed.

Lemma get_fold_unregister els m id :
  id <> "" ->
  JsMap.get (fold_left unregister els m) id =
    if existsb (carriesId id) els then None else JsMap.get m id.
Proof.
  intros Hne. revert m. induction els as [| el els IH]; intros m;
    cbn [fold_left existsb]; [done |].
  rewrite IH, get_unregister by done.
  destruct (carriesId id el); cbn; [by destruct (existsb _ els) | done].
Qed.

Lemma fold_unregister_fst (l : list (Dom.ElementData * list Dom.Node)) m :
  fold_left (fun m ec => unregister m ec.1) l m = fold_left unregister (List.map fst l) m.
Proof. revert m. induction l as [| ec l IH]; intros m; cbn; [done | apply IH]. Qed.

Lemma existsb_carries_has id (l : list (Dom.ElementData * list Dom.Node)) :
  existsb (carriesId id)
    (List.map fst (List.filter (fun ec => Dom.hasAttribute ec.1 "data-sid") l))
  = existsb (carriesId id) (List.map fst l).
Proof.
  induction l as [| [e ch] l IH]; [done |].
  cbn [List.filter List.map existsb fst]. rewrite <- IH.
  destruct (Dom.hasAttribute e "data-sid") eqn:Hhas; [done |].
  assert (carriesId id e = false) as ->; [| done].
  unfold carriesId. unfold Dom.hasAttribute in Hhas.
  by destruct (Dom.getAttribute e "data-sid").
Qed.

(** X8. When a node that is an [HTMLElement] is removed, the entries of
    the identifiers carried by the node and by its descendants are
    removed, and every other entry stays as it is. A removed node that is
    not an [HTMLElement] (an SVG or MathML element) is skipped with its
    descendants: the registry stays as it is, and the entries of the
    identifiers they carry stay in it. *)
Theorem removed_node_is_dropped (doc : Dom.Document) (e : Dom.ElementData)
    (children : list Dom.Node) (r : t) (id : string) :
  id <> "" ->
  get (handleMutations doc [ChildList [] [Dom.Element e children]] r) id =
    (if Dom.is_HTMLElement e
        && existsb (carriesId id) (e :: List.map fst (Dom.elements_of_list children))
     then None else get r id)
  /\ (Dom.is_HTMLElement e = false ->
        handleMutations doc [ChildList [] [Dom.Element e children]] r = r).
Proof.
  intros Hne. unfold get, handleMutations. cbn [elements fold_left handleMutation].
  destruct (Dom.is_HTMLElement e); [| split; [done | by destruct r]].
  split; [| discriminate]. cbn [andb].
  unfold handleRemovedNode.
  rewrite fold_unregister_fst.
  change (fold_left unregister ?l (unregister ?m e)) with (fold_left unregister (e :: l) m).
  rewrite get_fold_unregister by done.
  unfold Dom.querySelectorAll_data_sid. cbn [existsb]. by rewrite existsb_carries_has.
Qed.

Lemma querySelector_has_data_sid doc selector domEl :
  querySelector doc selector = Some domEl ->
  exists ec, ec ∈ Dom.elements_of_list doc /\ ec.1 = domEl
             /\ Dom.getAttribute domEl "data-sid" <> None.
Proof.
  unfold querySelector.
  destruct (List.find _ _) as [ec |] eqn:Hfind; [| discriminate].
  intros [= <-]. apply find_some in Hfind as [Hin Hmatch].
  exists ec. split; [by apply list_elem_of_In |]. split; [done |].
  unfold matchesSelector in Hmatch. by destruct (Dom.getAttribute ec.1 "data-sid").
Qed.

Lemma removeStale_none doc element entries m :
  (forall ec, ec ∈ Dom.elements_of_list doc -> Dom.nid ec.1 = Dom.nid element ->
     Dom.getAttribute ec.1 "data-sid" = None) ->
  removeStale doc element entries m = m.
Proof.
  intros Hdoc. induction entries as [| [id sidEl] entries IH]; cbn; [done |].
  destruct (querySelector doc (SIDElement.selector sidEl)) as [domEl |] eqn:Hq; [| done].
  apply querySelector_has_data_sid in Hq as (ec & Hin & <- & Hattr).
  destruct (Nat.eqb_spec (Dom.nid ec.1) (Dom.nid element)) as [Heq | Hne]; [| done].
  by destruct (Hattr (Hdoc ec Hin Heq)).
Qed.

(** X9. When the [data-sid] attribute is removed from a node, the
    attribute-change handler removes no entry: it looks for the entry
    whose selector resolves to the node, and a node that has lost the
    attribute is resolved by no selector. The entry of the old identifier
    stays in the registry. *)
Theorem removed_identifier_keeps_entry (doc : Dom.Document) (element : Dom.ElementData)
    (children : list Dom.Node) (r : t) :
  Dom.getAttribute element "data-sid" = None ->
  (forall ec, ec ∈ Dom.elements_of_list doc -> Dom.nid ec.1 = Dom.nid element ->
     Dom.getAttribute ec.1 "data-sid" = None) ->
  handleMutations doc [Attributes (Dom.Element element children) (Some "data-sid")] r = r.
Proof.
  intros Hattr Hdoc. unfold handleMutations. cbn [fold_left handleMutation].
  destruct (Dom.is_HTMLElement element); [| by destruct r].
  unfold handleAttributeChange. cbn. rewrite Hattr. cbn.
  rewrite removeStale_none by done. by destruct r.
Qed.

(** X10. When an attribute of a node that carries a non-empty identifier
    changes, the entries of all other identifiers are kept: in
    particular, after the [data-sid] attribute is changed from one
    identifier to another, the entry of the old identifier stays. When
    the node is an [HTMLElement], the entry of its identifier is parsed
    again from the node if the changed attribute is [data-sid] or the
    identifier is already in the registry. Otherwise, and always when the
    node is not an [HTMLElement] (an SVG or MathML element), the registry
    is left as it is. *)
Theorem attribute_change_keeps_other_entries (doc : Dom.Document) (element : Dom.ElementData)
    (children : list Dom.Node) (attributeName newId : string) (r : t) :
  attributeName <> "" ->
  Dom.getAttribute element "data-sid" = Some newId ->
  newId <> "" ->
  let r' := handleMutations doc [Attributes (Dom.Element element children) (Some attributeName)] r in
  (forall id, id <> newId -> get r' id = get r id)
  /\ (Dom.is_HTMLElement element = true ->
        attributeName = "data-sid" \/ is_Some (get r newId) ->
        get r' newId = parseElement element /\ is_Some (get r' newId))
  /\ (Dom.is_HTMLElement element = false
        \/ (attributeName <> "data-sid" /\ get r newId = None) -> r' = r).
Proof.
  intros Hname Hattr Hne r'. subst r'. unfold handleMutations, get.
  cbn [fold_left handleMutation elements].
  destruct (Dom.is_HTMLElement element);
    [| split; [done |]; split; [discriminate | by destruct r]].
  unfold handleAttributeChange.
  destruct attributeName as [| c name]; [done |]. cbn [JsString.or_undefined JsString.truthy].
  rewrite Hattr. destruct newId as [| c' newId']; [done |].
  cbn [JsString.or_undefined JsString.truthy]. set (newId := String c' newId') in *.
  assert (Hcarries : carriesId newId element = true).
  { unfold carriesId. rewrite Hattr. apply String.eqb_refl. }
  assert (Hparse : is_Some (parseElement element)).
  { destruct (parseElement_carries element newId Hne Hcarries) as (e & -> & _). eauto. }
  assert (Hother : forall id, id <> newId ->
            JsMap.get (register (elements r) element) id = JsMap.get (elements r) id).
  { intros id Hid. unfold register. destruct (parseElement element) as [e |] eqn:He; [| done].
    destruct (parseElement_id element e He) as (Hattr' & _ & _).
    rewrite JsMap_get_set. destruct (String.eqb_spec (SIDElement.id e) id); [| done]. congruence. }
  assert (Hself : JsMap.get (register (elements r) element) newId = parseElement element).
  { by rewrite get_register, Hcarries. }
  unfold JsMap.has.
  destruct (String.eqb_spec (String c name) "data-sid") as [Heq | Hneq].
  - split; [done |]. split; [by rewrite Hself |]. by intros [[=] | [? _]].
  - destruct (JsMap.get (elements r) newId) as [old |] eqn:Hold.
    + split; [done |]. split; [by rewrite Hself |]. by intros [[=] | [_ [=]]].
    + split; [done |]. split; [by intros _ [? | [? [=]]] | by destruct r].
Qed.

Lemma keyed_register m el : keyed m -> keyed (register m el).
Proof.
  intros [Hall Hnodup]. unfold register.
  destruct (parseElement el) as [e |] eqn:Hparse; [| done].
  destruct (parseElement_id el e Hparse) as (_ & Hne & Hsel).
  split; [apply JsMap_Forall_set; [done |] | by apply JsMap_NoDup_set]. done.
Qed.

Lemma keyed_unregister m el : keyed m -> keyed (unregister m el).
Proof.
  intros [Hall Hnodup]. unfold unregister.
  destruct (Dom.getAttribute el "data-sid") as [id |]; [| done].
  destruct (JsString.truthy id); [| done].
  split; [by apply JsMap_Forall_delete | by apply JsMap_NoDup_delete].
Qed.

Lemma keyed_fold {A} (f : JsMap.t SIDElement.t -> A -> JsMap.t SIDElement.t) (l : list A) m :
  (forall m a, keyed m -> keyed (f m a)) -> keyed m -> keyed (fold_left f l m).
Proof. intros Hf. revert m. induction l; cbn; auto. Qed.

Lemma keyed_removeStale doc element entries m :
  keyed m -> keyed (removeStale doc element entries m).
Proof.
  intros Hm. induction entries as [| [id sidEl] entries IH]; cbn; [done |].
  destruct (querySelector doc (SIDElement.selector sidEl)); [| done].
  destruct (_ =? _)%nat; [| done].
  destruct Hm. split; [by apply JsMap_Forall_delete | by apply JsMap_NoDup_delete].
Qed.

Lemma keyed_handleMutation doc m mutation : keyed m -> keyed (handleMutation doc m mutation).
Proof.
  intros Hm. destruct mutation as [added removed | target name | target]; cbn.
  - apply keyed_fold.
    { intros m' [| e children] Hm'; [done |].
      destruct (Dom.is_HTMLElement e); [| done]. unfold handleRemovedNode.
      apply keyed_fold; [intros; by apply keyed_unregister |].
      by apply keyed_unregister. }
    apply keyed_fold; [| done].
    intros m' [| e children] Hm'; [done |].
    destruct (Dom.is_HTMLElement e); [| done]. unfold handleAddedNode.
    apply keyed_fold; [intros; by apply keyed_register |].
    destruct (Dom.hasAttribute e "data-sid"); [by apply keyed_register | done].
  - destruct target as [| e children]; [done |].
    destruct (Dom.is_HTMLElement e); [| done]. unfold handleAttributeChange.
    destruct (JsString.or_undefined name) as [attributeName |]; [| done].
    destruct (String.eqb attributeName "data-sid").
    + destruct (JsString.or_undefined _);
        [by apply keyed_register | by apply keyed_removeStale].
    + destruct (JsString.or_undefined _) as [id |]; [| done].
      destruct (JsMap.has m id); [by apply keyed_register | done].
  - done.
Qed.

Lemma keyed_nil : keyed [].
Proof. split; [constructor | apply NoDup_nil_2]. Qed.

Lemma keyed_step r c : keyed (elements r) -> keyed (elements (step r c)).
Proof.
  intros Hr. destruct c as [doc | | doc mutations |]; cbn.
  - apply keyed_fold; [intros; by apply keyed_register | apply keyed_nil].
  - done.
  - destruct (observer r); [| done]. cbn.
    apply keyed_fold; [intros; by apply keyed_handleMutation | done].
  - apply keyed_nil.
Qed.

Lemma keyed_run calls r : keyed (elements r) -> keyed (elements (run calls r)).
Proof.
  revert r. induction calls as [| c calls IH]; intros r Hr; cbn; [done |].
  apply IH. by apply keyed_step.
Qed.

Lemma keyed_create observeDOM doc : keyed (elements (create observeDOM doc)).
Proof.
  unfold create.
  assert (keyed (elements (scanDocument doc (mk [] false)))).
  { cbn. apply keyed_fold; [intros; by apply keyed_register | apply keyed_nil]. }
  by destruct observeDOM.
Qed.

Lemma keyed_ids m :
  keyed m -> SIDElement.id <$> JsMap.values m = fst <$> m.
Proof.
  intros [Hall _]. unfold JsMap.values.
  induction Hall as [| [k e] m (Hid & _ & _) _ IH]; [done |].
  cbn in *. by rewrite Hid, <- IH.
Qed.

(** X11. Throughout the life of a registry its identifiers are unique:
    the listing holds no two descriptions with the same identifier, the
    lookup of an identifier returns a description that has this
    identifier and the selector made from it, and every description
    listed is the one its identifier looks up. *)
Theorem registry_identifiers_unique (observeDOM : bool) (doc : Dom.Document)
    (calls : list Call) :
  NoDup (SIDElement.id <$> getAll (run calls (create observeDOM doc)))
  /\ (forall id e, get (run calls (create observeDOM doc)) id = Some e ->
        SIDElement.id e = id /\ SIDElement.selector e = generateSelector id /\ id <> "")
  /\ (forall e, e ∈ getAll (run calls (create observeDOM doc)) ->
        get (run calls (create observeDOM doc)) (SIDElement.id e) = Some e).
Proof.
  pose proof (keyed_run calls _ (keyed_create observeDOM doc)) as Hkeyed.
  set (r := run calls (create observeDOM doc)) in *.
  pose proof (keyed_ids _ Hkeyed) as Hids. destruct Hkeyed as [Hall Hnodup].
  rewrite Forall_forall in Hall.
  split; [unfold getAll; by rewrite Hids |]. split.
  - intros id e Hget. apply JsMap_get_Some in Hget. apply (Hall _ Hget).
  - intros e He. unfold getAll, JsMap.values in He.
    change (e ∈ snd <$> elements r) in He.
    apply list_elem_of_fmap in He as ([k e'] & -> & Hin).
    destruct (Hall _ Hin) as (Hid & _ & _). cbn in Hid |- *. rewrite Hid.
    by apply JsMap_get_elem.
Qed.

End ElementRegistryFurther.

(** ** Legacy operation tracker, further *)

Section OperationTrackerFurther.
Context `{Host}.
Import OperationTracker.

Lemma allocated_create : allocated create.
Proof. intros k op. cbn. by rewrite lookup_empty. Qed.

Lemma counter_step tr c : (idCounter tr <= 2 ^ 53)%N -> (idCounter (step tr c).1 <= 2 ^ 53)%N.
Proof.
  intros Htr. destruct c as [elementId actionType now | id status message effects now | id |];
    cbn; [by apply increment_bounds | | done | done].
  unfold complete. destruct (operations tr !! id) as [op |]; [| done]. by destruct (negb _).
Qed.

Lemma counter_run calls tr :
  (idCounter tr <= 2 ^ 53)%N -> (idCounter (run calls tr).1 <= 2 ^ 53)%N.
Proof.
  revert tr. induction calls as [| c calls IH]; intros tr Htr; cbn [run]; [done |].
  pose proof (counter_step tr c Htr) as Hstep.
  destruct (step tr c) as [tr' a]. specialize (IH tr' Hstep).
  by destruct (run calls tr') as [tr'' ids].
Qed.

Lemma allocated_step tr c :
  (idCounter tr <= 2 ^ 53)%N -> allocated tr -> allocated (step tr c).1.
Proof.
  intros Hbound Htr.
  destruct c as [elementId actionType now | id status message effects now | id |]; cbn.
  - pose proof (increment_bounds _ Hbound) as Hinc.
    intros k op Hl. cbn in Hl. apply lookup_insert_Some in Hl as [[<- <-] | [_ Hl]]; cbn.
    + split; [done |]. exists (JsNumber.increment (idCounter tr)). split; [done |].
      unfold JsNumber.increment in *. destruct (N.ltb_spec (idCounter tr) (2 ^ 53)); [lia |].
      destruct (N.eq_dec (idCounter tr) 0) as [Hzero | Hpos]; [rewrite Hzero in *; lia | lia].
    + destruct (Htr k op Hl) as (Hid & n & -> & Hn). split; [done |].
      exists n. split; [done | lia].
  - unfold complete. destruct (operations tr !! id) as [op0 |] eqn:Hop0; [| done].
    destruct (negb _); [done |].
    intros k op Hl. cbn in Hl. apply lookup_insert_Some in Hl as [[<- <-] | [_ Hl]]; cbn.
    + destruct (Htr id op0 Hop0) as (Hid & Hn). done.
    + by apply Htr.
  - done.
  - intros k op. cbn. by rewrite lookup_empty.
Qed.

Lemma allocated_run calls tr :
  (idCounter tr <= 2 ^ 53)%N -> allocated tr -> allocated (run calls tr).1.
Proof.
  revert tr. induction calls as [| c calls IH]; intros tr Hbound Htr; cbn [run]; [done |].
  pose proof (allocated_step tr c Hbound Htr) as Hstep.
  pose proof (counter_step tr c Hbound) as Hctr.
  destruct (step tr c) as [tr' a]. specialize (IH tr' Hctr Hstep).
  by destruct (run calls tr') as [tr'' ids].
Qed.

(** X12. In the tracker reached by any sequence of calls, the counter is
    at most 2^53 and every record is stored under its own identifier,
    which was allocated by [start]; so, as long as the counter is below
    2^53, the next [start] finds its identifier free, overwrites nothing
    and leaves every stored record as it is. *)
Theorem start_overwrites_nothing (calls : list Call) (elementId actionType : string) (now : N) :
  let tr := (run calls create).1 in
  let started := start elementId actionType now tr in
  allocated tr
  /\ (idCounter tr <= 2 ^ 53)%N
  /\ ((idCounter tr < 2 ^ 53)%N ->
        operations tr !! Operation.id started.1 = None
        /\ (forall k op, operations tr !! k = Some op -> operations started.2 !! k = Some op)).
Proof.
  intros tr started.
  assert (Hzero : (idCounter create <= 2 ^ 53)%N) by (cbn; lia).
  pose proof (allocated_run calls create Hzero allocated_create) as Htr. fold tr in Htr.
  pose proof (counter_run calls create Hzero) as Hctr. fold tr in Hctr.
  split; [done |]. split; [done |]. intros Hbelow.
  assert (Hid : Operation.id started.1 = opId (idCounter tr + 1)).
  { subst started. unfold start. cbn [fst Operation.id]. by rewrite (increment_below _ Hbelow). }
  assert (Hfree : operations tr !! opId (idCounter tr + 1) = None).
  { destruct (operations tr !! opId (idCounter tr + 1)) as [op |] eqn:Hop; [| done].
    destruct (Htr _ _ Hop) as (_ & n & Heq & Hn). apply opId_inj in Heq. lia. }
  split; [by rewrite Hid |].
  intros k op Hl. subst started. unfold start. cbn [snd operations].
  rewrite (increment_below _ Hbelow). rewrite lookup_insert_ne; [done |].
  intros Heq. rewrite <- Heq in Hl. unfold opId in Hfree. congruence.
Qed.

(** X13. An operation is completed once: after a completion with a status
    other than ["pending"], a further completion of the same operation
    changes nothing. A completion never touches the counter or the record
    of another operation, and keeps the identifier, element, action and
    start time of the record it completes. *)
Theorem complete_first_wins (tr : t) (id status1 status2 : string)
    (message1 message2 : option string) (effects1 effects2 : option OperationEffects.t)
    (now1 now2 : N) :
  status1 <> "pending" ->
  let tr1 := complete id status1 message1 effects1 now1 tr in
  complete id status2 message2 effects2 now2 tr1 = tr1
  /\ idCounter tr1 = idCounter tr
  /\ (forall k, k <> id -> operations tr1 !! k = operations tr !! k)
  /\ (forall op, operations tr !! id = Some op ->
        exists op1, operations tr1 !! id = Some op1
          /\ Operation.id op1 = Operation.id op
          /\ Operation.elementId op1 = Operation.elementId op
          /\ Operation.actionType op1 = Operation.actionType op
          /\ Operation.startedAt op1 = Operation.startedAt op).
Proof.
  intros Hstatus tr1. subst tr1. unfold complete.
  destruct (operations tr !! id) as [op |] eqn:Hop.
  2: { rewrite Hop. repeat split; try done. }
  destruct (String.eqb_spec (Operation.status op) "pending") as [Hpending | Hnot]; cbn [negb].
  - cbn. rewrite lookup_insert_eq. cbn.
    destruct (String.eqb_spec status1 "pending") as [? | _]; [done |]. cbn.
    split; [done |]. split; [done |]. split.
    + intros k Hk. by rewrite lookup_insert_ne.
    + intros ? [= <-]. eexists. split; [done |]. done.
  - rewrite Hop. destruct (String.eqb_spec (Operation.status op) "pending"); [done |]. cbn.
    split; [done |]. split; [done |]. split; [done |].
    intros ? [= <-]. by eexists.
Qed.

Lemma checkStatus_sound id timeoutMs startTime checks :
  match checkStatus id timeoutMs startTime checks with
  | PollResolved op =>
      isCompleted op = true /\ exists tr now, (tr, now) ∈ checks /\ operations tr !! id = Some op
  | PollNotFound message =>
      message = notFoundMessage id /\ exists tr now, (tr, now) ∈ checks /\ operations tr !! id = None
  | PollTimeout message operationId ms =>
      message = timeoutMessage id timeoutMs /\ operationId = id /\ ms = timeoutMs
      /\ exists tr now op, (tr, now) ∈ checks /\ operations tr !! id = Some op
           /\ isCompleted op = false
           /\ (timeoutMs <= Z.of_N now - Z.of_N startTime)%Z
  | PollOpen =>
      Forall (fun c => exists op, operations c.1 !! id = Some op /\ isCompleted op = false
                         /\ (Z.of_N c.2 - Z.of_N startTime < timeoutMs)%Z) checks
  end.
Proof.
  induction checks as [| [tr now] rest IH]; cbn [checkStatus]; [constructor |].
  destruct (operations tr !! id) as [op |] eqn:Hop.
  2: { split; [done |]. exists tr, now. split; [apply list_elem_of_here | done]. }
  destruct (isCompleted op) eqn:Hdone.
  { split; [done |]. exists tr, now. split; [apply list_elem_of_here | done]. }
  destruct (Z.leb_spec timeoutMs (Z.of_N now - Z.of_N startTime)) as [Hle | Hlt].
  { repeat split; try done. exists tr, now, op. split; [apply list_elem_of_here | done]. }
  destruct (checkStatus id timeoutMs startTime rest) as [op' | msg | msg oid ms |].
  - destruct IH as (? & tr' & now' & Hin & ?). split; [done |].
    exists tr', now'. split; [by apply list_elem_of_further | done].
  - destruct IH as (? & tr' & now' & Hin & ?). split; [done |].
    exists tr', now'. split; [by apply list_elem_of_further | done].
  - destruct IH as (? & ? & ? & tr' & now' & op' & Hin & ?). repeat split; try done.
    exists tr', now', op'. split; [by apply list_elem_of_further | done].
  - constructor; [| done]. exists op. done.
Qed.

(** X14. [poll] rejects at once for an identifier that is not in the
    store and resolves at once with a record that is already completed.
    Otherwise its outcome comes from a run of the status check: it
    resolves only with a completed record found in the store at a check,
    and it rejects with a timeout only at a check at which the record is
    still pending and at least [timeoutMs] milliseconds have passed since
    the call; while it stays open, every check has found the record
    pending and the time short of the timeout. *)
Theorem poll_outcomes (id : string) (timeoutMs : Z) (tr : t) (startTime : N)
    (checks : list (t * N)) :
  (operations tr !! id = None ->
     poll id timeoutMs tr startTime checks = PollNotFound (notFoundMessage id))
  /\ (forall op, operations tr !! id = Some op -> isCompleted op = true ->
        poll id timeoutMs tr startTime checks = PollResolved op)
  /\ match poll id timeoutMs tr startTime checks with
     | PollResolved op =>
         isCompleted op = true
         /\ exists tr' now, (tr', now) ∈ (tr, startTime) :: checks
                            /\ operations tr' !! id = Some op
     | PollNotFound message => message = notFoundMessage id
     | PollTimeout message operationId ms =>
         message = timeoutMessage id timeoutMs /\ operationId = id /\ ms = timeoutMs
         /\ exists tr' now op, (tr', now) ∈ checks /\ operations tr' !! id = Some op
              /\ isCompleted op = false
              /\ (timeoutMs <= Z.of_N now - Z.of_N startTime)%Z
     | PollOpen =>
         Forall (fun c => exists op, operations c.1 !! id = Some op /\ isCompleted op = false
                            /\ (Z.of_N c.2 - Z.of_N startTime < timeoutMs)%Z) checks
     end.
Proof.
  unfold poll. split; [by intros -> |]. split; [by intros op -> -> |].
  destruct (operations tr !! id) as [op |] eqn:Hop; [| done].
  destruct (isCompleted op) eqn:Hdone.
  { split; [done |]. exists tr, startTime. split; [apply list_elem_of_here | done]. }
  pose proof (checkStatus_sound id timeoutMs startTime checks) as Hsound.
  destruct (checkStatus id timeoutMs startTime checks) as [op' | msg | msg oid ms |].
  - destruct Hsound as (? & tr' & now' & Hin & ?). split; [done |].
    exists tr', now'. split; [by apply list_elem_of_further | done].
  - by destruct Hsound.
  - done.
  - done.
Qed.

(** X15. A poll on a pending operation that is completed with ["success"]
    or ["error"] before the first status check resolves with the completed
    record, which has that status, whatever the timeout and however late
    the check runs: completion is looked at before the timeout. *)
Theorem poll_resolves_after_complete (tr : t) (id status : string) (op : Operation.t)
    (message : option string) (effects : option OperationEffects.t)
    (timeoutMs : Z) (startTime completedAt checkedAt : N) (rest : list (t * N)) :
  operations tr !! id = Some op ->
  Operation.status op = "pending" ->
  status = "success" \/ status = "error" ->
  exists op',
    poll id timeoutMs tr startTime
      ((complete id status message effects completedAt tr, checkedAt) :: rest)
    = PollResolved op'
    /\ Operation.status op' = status
    /\ Operation.completedAt op' = Some completedAt
    /\ Operation.id op' = Operation.id op.
Proof.
  intros Hop Hpending Hstatus. unfold poll, complete. rewrite Hop.
  unfold isCompleted at 1. rewrite Hpending. cbn [String.eqb Ascii.eqb Bool.eqb orb negb].
  cbn [checkStatus operations]. rewrite lookup_insert_eq.
  unfold isCompleted. cbn [Operation.status].
  assert (String.eqb status "success" || String.eqb status "error" = true) as ->
    by by destruct Hstatus as [-> | ->].
  by eexists.
Qed.

End OperationTrackerFurther.

(** ** Context reader, further *)

Section ContextParserFurther.
Context `{Host}.
Import ContextParser.

(** The record of the first read after start or invalidation is made from
    the document alone. *)
Lemma first_read_content doc st1 st2 :
  contextParsed st1 = false -> cachedContext st1 = None ->
  contextParsed st2 = false -> cachedContext st2 = None ->
  heap (getContextMetadata doc st1).2 !! (getContextMetadata doc st1).1
    = heap (getContextMetadata doc st2).2 !! (getContextMetadata doc st2).1
  /\ is_Some (heap (getContextMetadata doc st1).2 !! (getContextMetadata doc st1).1).
Proof.
  intros Hp1 Hc1 Hp2 Hc2. unfold getContextMetadata, parseContextScript.
  rewrite Hp1, Hc1, Hp2, Hc2.
  destruct doc as [d |]; [| cbn; rewrite !lookup_insert_eq; eauto].
  destruct (findContextScript d) as [[e children] |];
    [| cbn; rewrite !lookup_insert_eq; eauto].
  destruct (negb _ || negb _); [cbn; rewrite !lookup_insert_eq; eauto |].
  destruct (JSON_parse _) as [[| | | | |] |]; cbn; rewrite !lookup_insert_eq; eauto.
Qed.

Lemma getters_read doc st :
  (getAppContext doc st).1
    = JsString.or_else (heap (getContextMetadata doc st).2 !! (getContextMetadata doc st).1
                          ≫= SIDContextMetadata.app) ""
  /\ (getPageContext doc st).1
    = JsString.or_else (heap (getContextMetadata doc st).2 !! (getContextMetadata doc st).1
                          ≫= SIDContextMetadata.page) ""
  /\ (getAuthDescription doc st).1
    = JsString.or_else (heap (getContextMetadata doc st).2 !! (getContextMetadata doc st).1
                          ≫= SIDContextMetadata.auth) "".
Proof.
  unfold getAppContext, getPageContext, getAuthDescription, getContextMetadata.
  by destruct (parseContextScript doc st).
Qed.

Lemma or_else_string_field parsed name :
  JsString.or_else (string_field parsed name) "" = stringOr parsed name.
Proof. unfold stringOr. by destruct (string_field parsed name) as [[| c s] |]. Qed.

(** X16. On the first read after start or invalidation the three getters
    return the [app], [page] and [auth] members of the JSON object in the
    metadata block where these are strings, and the empty string where a
    member is missing or is not a string; they return the empty string
    when the block is missing, blank, not a JSON object or not JSON. *)
Theorem context_getters_read_strings (doc : option Dom.Document) (st : State) :
  contextParsed st = false -> cachedContext st = None ->
  (EmptyCase doc ->
     (getAppContext doc st).1 = "" /\ (getPageContext doc st).1 = ""
     /\ (getAuthDescription doc st).1 = "")
  /\ (forall d e children fields,
        doc = Some d ->
        findContextScript d = Some (e, children) ->
        JsString.trim (Dom.textContent children) <> "" ->
        JSON_parse (JsString.trim (Dom.textContent children)) = Some (JObject fields) ->
        (getAppContext doc st).1 = stringOr (JObject fields) "app"
        /\ (getPageContext doc st).1 = stringOr (JObject fields) "page"
        /\ (getAuthDescription doc st).1 = stringOr (JObject fields) "auth").
Proof.
  intros Hparsed Hcached.
  destruct (getters_read doc st) as (-> & -> & ->). split.
  - intros Hcase.
    destruct (first_call_allocates doc st Hparsed Hcached) as (o & c & Hcall & Hshape & Hc).
    specialize (Hc Hcase). subst c. destruct Hshape as [[_ ->] | ?]; [| done].
    rewrite Hcall. cbn. by rewrite lookup_insert_eq.
  - intros d e children fields -> Hfind Hcontent Hjson.
    unfold getContextMetadata, parseContextScript. rewrite Hparsed, Hfind, Hjson.
    assert (negb (JsString.truthy (Dom.textContent children))
            || negb (JsString.truthy (JsString.trim (Dom.textContent children))) = false)
      as ->.
    { destruct (Dom.textContent children) as [| c s] eqn:Htext; [by cbv in Hcontent |].
      cbn [JsString.truthy negb orb].
      by destruct (JsString.trim (String c s)). }
    cbn. rewrite lookup_insert_eq. cbn. by rewrite !or_else_string_field.
Qed.

(** X17. After [clearContextCache] the next read parses the document
    again: the record it returns, and what the getters return, are those
    of a reader that has never read anything, whatever was cached before. *)
Theorem clearContextCache_rereads (doc : option Dom.Document) (st : State) :
  heap (getContextMetadata doc (clearContextCache st)).2
    !! (getContextMetadata doc (clearContextCache st)).1
  = heap (getContextMetadata doc initial).2 !! (getContextMetadata doc initial).1
  /\ (getAppContext doc (clearContextCache st)).1 = (getAppContext doc initial).1
  /\ (getPageContext doc (clearContextCache st)).1 = (getPageContext doc initial).1
  /\ (getAuthDescription doc (clearContextCache st)).1 = (getAuthDescription doc initial).1.
Proof.
  destruct (first_read_content doc (clearContextCache st) initial) as [Heq _]; try done.
  destruct (getters_read doc (clearContextCache st)) as (-> & -> & ->).
  destruct (getters_read doc initial) as (-> & -> & ->).
  by rewrite Heq.
Qed.

End ContextParserFurther.

(** ** Interaction executor, further *)

Section InteractionExecutorFurther.
Context `{Host}.
Import InteractionExecutor.

Ltac prims' :=
  unfold runResolver, runTimerCallback, registered, clearTimeout, pendingDelete,
    pendingSet, perform, setTimeout, newPromise in *;
  cbn [pendingOperations timers nextTimer settled nextPromise clock native fst snd] in *.

Ltac resolve_fields' :=
  repeat match goal with
  | |- context [pendingOperations (resolvePromise ?p ?r ?ex)] =>
      rewrite (proj1 (resolvePromise_fields p r ex))
  | |- context [timers (resolvePromise ?p ?r ?ex)] =>
      rewrite (proj1 (proj2 (resolvePromise_fields p r ex)))
  | |- context [nextTimer (resolvePromise ?p ?r ?ex)] =>
      rewrite (proj1 (proj2 (proj2 (resolvePromise_fields p r ex))))
  | |- context [nextPromise (resolvePromise ?p ?r ?ex)] =>
      rewrite (proj1 (proj2 (proj2 (proj2 (resolvePromise_fields p r ex)))))
  | |- context [clock (resolvePromise ?p ?r ?ex)] =>
      rewrite (proj1 (proj2 (proj2 (proj2 (proj2 (resolvePromise_fields p r ex))))))
  | |- context [native (resolvePromise ?p ?r ?ex)] =>
      rewrite (proj2 (proj2 (proj2 (proj2 (proj2 (resolvePromise_fields p r ex))))))
  | |- context [settled (resolvePromise ?p ?r ?ex) !! ?q] =>
      rewrite (resolvePromise_settled p r ex q)
  end.

(** *** The native dispatch *)

(** Case analysis on the action type compared by [triggerAction]. *)
Ltac case_action_type :=
  repeat match goal with
  | |- context [String.eqb ?t ?s] =>
      is_var t; destruct (String.eqb_spec t s);
      [subst t; cbn [String.eqb Ascii.eqb Bool.eqb andb] |]
  end.

(** X18. A native dispatch that succeeds performs at least one operation,
    acts on the target node only and has one of the six action kinds. A
    hover never throws. A click succeeds on an [HTMLElement] and throws
    the host's [TypeError] on any other node, which has no [click]
    method; every kind but hover throws on a node that is not an
    [HTMLElement]. A fill with a string that is not empty throws the
    host's [InvalidStateError] on a file input. An action type outside the
    six kinds always throws, naming the type. *)
Theorem triggerAction_targets (domElement : Dom.ElementData) (action : InteractionAction.t) :
  (forall ops, triggerAction domElement action = inr ops ->
     ops <> [] /\ Forall (fun op => opTarget op = Dom.nid domElement) ops
     /\ InteractionAction.type action ∈ AttributeParser.VALID_ACTION_TYPES
     /\ (InteractionAction.type action <> "hover" -> Dom.is_HTMLElement domElement = true))
  /\ (InteractionAction.type action = "hover" ->
        exists ops, triggerAction domElement action = inr ops)
  /\ (InteractionAction.type action = "click" ->
        triggerAction domElement action
        = if Dom.is_HTMLElement domElement then inr [Click (Dom.nid domElement)]
          else inl (TypeError_not_a_function "click"))
  /\ (InteractionAction.type action = "fill" ->
        Dom.is_HTMLInputElement domElement = true ->
        Dom.input_type domElement = "file" ->
        value_to_string (InteractionAction.value action) <> "" ->
        triggerAction domElement action = inl InvalidStateError_file_value)
  /\ (InteractionAction.type action ∉ AttributeParser.VALID_ACTION_TYPES ->
        triggerAction domElement action
          = inl ("Invalid action type: " +:+ InteractionAction.type action)).
Proof.
  unfold triggerAction, AttributeParser.VALID_ACTION_TYPES.
  destruct action as [type value]. cbn [InteractionAction.type InteractionAction.value].
  split; [| split; [| split; [| split]]].
  - intros ops Hops. split; [| split; [| split]].
    4: { intros Hhover. destruct (Dom.is_HTMLElement domElement) eqn:Hhtml; [done |].
         exfalso. revert Hops.
         unfold Dom.is_HTMLInputElement, Dom.is_HTMLTextAreaElement, Dom.is_HTMLSelectElement.
         rewrite Hhtml. cbn [andb orb negb].
         case_action_type; done. }
    all: revert Hops.
    all: case_action_type; try discriminate.
    all: repeat match goal with
         | |- context [if ?b then _ else _] => destruct b; try discriminate
         end.
    all: try (destruct value; try discriminate).
    all: intros Heq; apply (inj inr) in Heq; subst ops; try done.
    all: try (rewrite !elem_of_cons; tauto).
    all: unfold executeClick, executeFill, executeSelect, executeCheck, executeHover,
           executeUpload; by repeat (apply Forall_cons; split; [done |]).
  - intros ->. cbn. eauto.
  - intros ->. cbn. by destruct (Dom.is_HTMLElement domElement).
  - intros -> Hinput Hfile Hvalue. cbn [String.eqb Ascii.eqb Bool.eqb andb].
    rewrite Hinput, Hfile. cbn [orb negb andb String.eqb Ascii.eqb Bool.eqb].
    by destruct (value_to_string value).
  - intros Hnot. case_action_type; try done.
    all: exfalso; apply Hnot; rewrite !elem_of_cons; tauto.
Qed.

(** *** Calls that return at once *)

(** X19. On an element whose tracking kind is [none], [navigation] or
    [external], [execute] returns its result at once and registers
    nothing: no pending operation, no timer and no promise. When the
    dispatch succeeds the result has success [true] and the status
    ["completed"], ["navigation"] or ["external"], and the executor only
    gains the native operations; when the dispatch throws the result is
    the error and the executor is as before. *)
Theorem untracked_call_returns_at_once
    (registry : ElementRegistry.t) (document : Dom.Document) (id : string)
    (action : InteractionAction.t) (options : InteractionOptions.t) (ex : t)
    (sidElement : SIDElement.t) (domElement : Dom.ElementData) (kind : string) :
  reaches registry document id sidElement domElement kind ->
  kind = "none" \/ kind = "navigation" \/ kind = "external" ->
  (forall ops, triggerAction domElement action = inr ops ->
     exists message,
       execute registry document id action options ex
       = (Returned (InteractionResult.mk true
                      (if String.eqb kind "none" then "completed" else kind)
                      None (Some message) None),
          perform ops ex))
  /\ (forall msg, triggerAction domElement action = inl msg ->
        execute registry document id action options ex
        = (Returned (errorResult ("Action execution failed: " +:+ msg)), ex)).
Proof.
  intros (Hget & Hdis & Hsel & Hkind) Hcases. unfold execute.
  rewrite Hget, Hdis, Hsel, Hkind. split.
  - intros ops ->. destruct Hcases as [-> | [-> | ->]]; cbn; eauto.
  - intros msg ->. by destruct Hcases as [-> | [-> | ->]].
Qed.

(** *** What a call leaves alone *)

(** X20. A call of [execute] on one identifier leaves the calls that are
    already there alone: the pending operations of other identifiers, the
    timers that are running and the promises already created, settled or
    not, are after the call what they were before it. *)
Theorem execute_leaves_other_calls
    (registry : ElementRegistry.t) (document : Dom.Document) (id : string)
    (action : InteractionAction.t) (options : InteractionOptions.t) (ex : t) :
  reachable ex ->
  let ex' := (execute registry document id action options ex).2 in
  (forall k, k <> id -> pendingOperations ex' !! k = pendingOperations ex !! k)
  /\ (forall tid, tid < nextTimer ex -> timers ex' !! tid = timers ex !! tid)
  /\ (forall p, p < nextPromise ex -> settled ex' !! p = settled ex !! p)
  /\ clock ex' = clock ex.
Proof.
  intros Hreach ex'. subst ex'. pose proof (wf_reachable ex Hreach) as Hwf.
  pose proof (wf_counters ex Hwf) as Hc.
  destruct (execute_cases registry document id action options ex)
    as [-> | [[ops ->] | [[ops ->] | [msg ->]]]]; resolve_fields'; prims'; try done.
  - split; [| split; [| done]].
    + intros k Hk. by rewrite lookup_insert_ne.
    + intros tid Htid. rewrite lookup_insert_ne; [done | lia].
  - split; [| split; [| split; [| done]]].
    + intros k Hk. by rewrite lookup_delete_ne, lookup_insert_ne.
    + intros tid Htid. rewrite lookup_delete_ne, lookup_insert_ne; [done | lia | lia].
    + intros p Hp. resolve_fields'. case_decide; [lia | done].
Qed.

(** *** Every call is accounted for *)

Lemma accounted_create : accounted create.
Proof. split; cbn; intros *; rewrite ?lookup_empty; try done. lia. Qed.

Lemma accounted_perform ops ex : accounted ex -> accounted (perform ops ex).
Proof. intros [? ? ?]. by split. Qed.

Lemma accounted_registered id timeout ex :
  wf ex -> accounted ex -> accounted (registered id timeout ex).
Proof.
  intros Hwf [Hp Ht Hu]. pose proof (wf_counters ex Hwf) as Hc. split; prims'.
  - intros k po Hl. apply lookup_insert_Some in Hl as [[_ <-] | [_ Hl]]; cbn.
    + split; [done |]. rewrite lookup_insert_eq. eauto.
    + destruct (Hp k po Hl) as [Heq [cb Hcb]]. split; [done |].
      destruct (wf_timers ex Hwf _ _ Hcb) as [Hlt _].
      rewrite lookup_insert_ne by lia. eauto.
  - intros tid cb Hl. apply lookup_insert_Some in Hl as [[<- _] | [_ Hl]]; [| eauto].
    destruct (settled ex !! nextTimer ex) eqn:Hs; [| done].
    assert (nextTimer ex < nextPromise ex) by (apply (wf_settled ex Hwf); eauto). lia.
  - intros p Hlt Hs. destruct (decide (p = nextTimer ex)) as [-> | Hne].
    + rewrite lookup_insert_eq. eauto.
    + rewrite lookup_insert_ne by done. apply Hu; [lia | done].
Qed.

(** Settling the call of timer [tid], stored under [k]: what a completion
    signal, a fired timer and a failed dispatch all do. *)
Lemma accounted_settle tid cb k r ex :
  wf ex -> accounted ex ->
  timers ex !! tid = Some cb -> timer_id cb = k ->
  accounted (resolvePromise tid r (pendingDelete k (clearTimeout tid ex))).
Proof.
  intros Hwf [Hp Ht Hu] Htid Hk. split; resolve_fields'; prims'.
  - intros k' po Hl. apply lookup_delete_Some in Hl as [Hne Hl].
    destruct (Hp k' po Hl) as [Heq [cb' Hcb']]. split; [done |].
    rewrite lookup_delete_ne; [eauto |].
    intros Htid'. destruct (wf_pending ex Hwf _ _ Hl) as (_ & _ & _ & Hkey).
    rewrite <- Heq, <- Htid' in Hkey. specialize (Hkey _ Htid). congruence.
  - intros tid' cb' Hl. apply lookup_delete_Some in Hl as [Hne Hl].
    resolve_fields'. case_decide; [congruence | eauto].
  - intros p Hlt. resolve_fields'. case_decide; [done |]. intros Hs.
    rewrite lookup_delete_ne by done. by apply Hu.
Qed.

Lemma accounted_execute registry document id action options ex :
  wf ex -> accounted ex -> accounted (execute registry document id action options ex).2.
Proof.
  intros Hwf Hacc.
  destruct (execute_cases registry document id action options ex)
    as [-> | [[ops ->] | [[ops ->] | [msg ->]]]].
  - done.
  - by apply accounted_perform.
  - by apply accounted_perform, accounted_registered.
  - rewrite <- (wf_counters ex Hwf).
    eapply accounted_settle;
      [by apply wf_registered | by apply accounted_registered
      | prims'; by rewrite lookup_insert_eq | done].
Qed.

Lemma accounted_complete elementId result ex :
  wf ex -> accounted ex -> accounted (complete elementId result ex).
Proof.
  intros Hwf Hacc. unfold complete.
  destruct (pendingOperations ex !! elementId) as [po |] eqn:Hpo; [| done].
  destruct (wf_pending ex Hwf _ _ Hpo) as (Hid & Hprom & _ & Hkey).
  destruct (pending_has_timer ex Hacc _ _ Hpo) as [Heq [cb Hcb]]. rewrite Heq in Hcb.
  unfold runResolver. rewrite Hprom, Hid.
  eapply accounted_settle; [done | done | exact Hcb | by apply Hkey].
Qed.

Lemma accounted_fireTimer ex entry : wf ex -> accounted ex -> accounted (fireTimer ex entry).
Proof.
  intros Hwf Hacc. unfold fireTimer.
  destruct (timers ex !! entry.1) as [cb |] eqn:Hcb; [| done].
  destruct (wf_timers ex Hwf _ _ Hcb) as [_ Hprom].
  unfold runTimerCallback. rewrite Hprom.
  by eapply accounted_settle.
Qed.

Lemma accounted_fold l ex : wf ex -> accounted ex -> accounted (fold_left fireTimer l ex).
Proof.
  revert ex. induction l as [| e l IH]; intros ex Hwf Hacc; cbn; [done |].
  apply IH; [by apply wf_fireTimer | by apply accounted_fireTimer].
Qed.

Lemma accounted_advance dt ex : wf ex -> accounted ex -> accounted (advance dt ex).
Proof.
  intros Hwf Hacc. unfold advance.
  apply accounted_fold; [destruct Hwf; by split | destruct Hacc; by split].
Qed.

Lemma accounted_run evs ex : wf ex -> accounted ex -> accounted (run evs ex).
Proof.
  revert ex. induction evs as [| ev evs IH]; intros ex Hwf Hacc; cbn; [done |].
  apply IH; [by apply wf_step |].
  destruct ev; cbn; auto using accounted_execute, accounted_complete, accounted_advance.
Qed.

Lemma accounted_reachable ex : reachable ex -> accounted ex.
Proof. intros [evs ->]. apply accounted_run; [apply wf_create | apply accounted_create]. Qed.

(** X21. In every state of the executor, a pending operation has its
    timer running and its call is not yet settled; a completion signal
    for its identifier then settles that call with the signaled status,
    message and effects and with success [true], removes the pending
    operation, cancels its timer, and leaves the pending operations of
    other identifiers alone. *)
Theorem pending_operation_is_completed (ex : t) (id : string) (po : PendingOperation)
    (result : CompletionResult.t) :
  reachable ex ->
  pendingOperations ex !! id = Some po ->
  (exists cb, timers ex !! timeoutId po = Some cb /\ timer_id cb = id)
  /\ settled ex !! resolver_promise (resolve po) = None
  /\ settled (complete id result ex) !! resolver_promise (resolve po)
     = Some (InteractionResult.mk true (CompletionResult.status result) None
               (CompletionResult.message result) (CompletionResult.effects result))
  /\ pendingOperations (complete id result ex) !! id = None
  /\ timers (complete id result ex) !! timeoutId po = None
  /\ (forall k, k <> id ->
        pendingOperations (complete id result ex) !! k = pendingOperations ex !! k).
Proof.
  intros Hreach Hpo.
  pose proof (wf_reachable ex Hreach) as Hwf.
  pose proof (accounted_reachable ex Hreach) as Hacc.
  destruct (wf_pending ex Hwf _ _ Hpo) as (Hid & Hprom & _ & Hkey).
  destruct (pending_has_timer ex Hacc _ _ Hpo) as [Heq [cb Hcb]].
  assert (Hunsettled : settled ex !! resolver_promise (resolve po) = None).
  { rewrite Hprom, <- Heq. by eapply timer_unsettled. }
  split. { exists cb. split; [done |]. apply Hkey. by rewrite <- Heq. }
  split; [done |].
  unfold complete. rewrite Hpo. unfold runResolver. resolve_fields'. prims'.
  cbn [CompletionResult.status CompletionResult.message CompletionResult.effects].
  rewrite decide_True, Hunsettled, Hid, lookup_delete_eq, <- Heq, lookup_delete_eq by done.
  split; [done |]. split; [done |]. split; [done |].
  intros k Hk. by rewrite lookup_delete_ne.
Qed.


(** X23. A second completion signal for the same identifier, right after
    the first, does nothing: the first has removed the pending
    operation. *)
Theorem second_signal_is_ignored (ex : t) (id : string) (result1 result2 : CompletionResult.t) :
  reachable ex ->
  complete id result2 (complete id result1 ex) = complete id result1 ex.
Proof.
  intros Hreach. pose proof (wf_reachable ex Hreach) as Hwf.
  assert (Hgone : pendingOperations (complete id result1 ex) !! id = None).
  { unfold complete. destruct (pendingOperations ex !! id) as [po |] eqn:Hpo; [| done].
    destruct (wf_pending ex Hwf _ _ Hpo) as (Hid & _).
    unfold runResolver. resolve_fields'. prims'. by rewrite Hid, lookup_delete_eq. }
  unfold complete at 1. by rewrite Hgone.
Qed.

(** X24. When the native dispatch of a tracked call throws, the call is
    settled at once with success [false], status ["error"] and the message
    of the error; the timer just set is cancelled, so the timers are those
    from before the call; no native operation is logged; and the pending
    operation of the identifier is removed, also when it was the one of an
    earlier call that was still waiting. *)
Theorem failed_dispatch_settles_at_once
    (registry : ElementRegistry.t) (document : Dom.Document) (id : string)
    (action : InteractionAction.t) (options : InteractionOptions.t) (ex : t)
    (sidElement : SIDElement.t) (domElement : Dom.ElementData) (msg : string) :
  reachable ex ->
  reaches registry document id sidElement domElement "async" ->
  triggerAction domElement action = inl msg ->
  exists ex',
    execute registry document id action options ex = (Waiting (nextPromise ex), ex')
    /\ settled ex' !! nextPromise ex
       = Some (InteractionResult.mk false "error"
                 (Some ("Action execution failed: " +:+ msg)) None None)
    /\ pendingOperations ex' !! id = None
    /\ (forall k, k <> id -> pendingOperations ex' !! k = pendingOperations ex !! k)
    /\ timers ex' = timers ex
    /\ native ex' = native ex.
Proof.
  intros Hreach (Hget & Hdis & Hsel & Hkind) Htrigger.
  pose proof (wf_reachable ex Hreach) as Hwf.
  unfold execute. rewrite Hget, Hdis, Hsel, Hkind, Htrigger. cbn [String.eqb Ascii.eqb Bool.eqb].
  eexists. split; [done |]. resolve_fields'. prims'.
  rewrite decide_True by done.
  assert (Hfresh : settled ex !! nextPromise ex = None).
  { destruct (settled ex !! nextPromise ex) eqn:Hs; [| done].
    assert (nextPromise ex < nextPromise ex) by (apply (wf_settled ex Hwf); eauto). lia. }
  rewrite Hfresh, lookup_delete_eq. split; [done |]. split; [done |]. split.
  - intros k Hk. by rewrite lookup_delete_ne, lookup_insert_ne.
  - split; [| done]. apply delete_insert_id.
    destruct (timers ex !! nextTimer ex) as [cb |] eqn:Hcb; [| done].
    destruct (wf_timers ex Hwf _ _ Hcb). lia.
Qed.

End InteractionExecutorFurther.

(** * Closed examples *)

(** ** Instances of the theorems *)

Lemma parseInputAttribute_roundtrip_witness :
  AttributeParser.parseInputAttribute " Email , REQUIRED "
    = Some (InputDefinition.mk "email" true None)
  /\ AttributeParser.parseInputAttribute
       (AttributeParser.encodeInput (InputDefinition.mk "email" true None))
     = Some (InputDefinition.mk "email" true None).
Proof.
  split; [reflexivity |].
  apply (parseInputAttribute_roundtrip " Email , REQUIRED "). reflexivity.
Defined.

Lemma tracker_identifiers_never_reused_witness :
  (OperationTracker.run exampleCalls OperationTracker.create).2 = ["op-1"; "op-2"]
  /\ NoDup (OperationTracker.run exampleCalls OperationTracker.create).2.
Proof.
  destruct tracker_identifiers_never_reused as (_ & _ & Hrun & _).
  destruct (Hrun exampleCalls OperationTracker.create) as (Hids & _ & Hdistinct).
  - vm_compute. discriminate.
  - split; [rewrite Hids; reflexivity | exact Hdistinct].
Defined.

Lemma registry_elements_have_one_action_witness :
  exists el action,
    el ∈ nodesGiven exampleDocument []
    /\ Dom.getAttribute el "data-sid" = Some (SIDElement.id exampleElement)
    /\ ElementRegistry.parseElement (H := exampleHost) el = Some exampleElement
    /\ SIDElement.actions exampleElement = [action]
    /\ ActionDefinition.type action = declaredAction el
    /\ ActionDefinition.type action ∈ AttributeParser.VALID_ACTION_TYPES.
Proof.
  apply (registry_elements_have_one_action (H := exampleHost) true exampleDocument []).
  vm_compute. apply list_elem_of_here.
Defined.

Lemma context_reader_empty_and_cached_witness :
  ContextParser.heap exampleFirstRead.2 !! exampleFirstRead.1 = Some SIDContextMetadata.empty
  /\ Forall (fun r => ContextParser.heap exampleLaterReads.2 !! r
                       = Some SIDContextMetadata.empty) exampleLaterReads.1
  /\ NoDup (exampleFirstRead.1 :: exampleLaterReads.1)
  /\ ContextParser.cachedContext exampleCachedRead.2 = Some exampleCachedRead.1
  /\ Forall (fun r => r = exampleCachedRead.1) exampleCachedLaterReads.1.
Proof.
  destruct (context_reader_empty_and_cached (H := exampleHost) (Some []) [Some []; Some []]
              ContextParser.initial exampleFirstRead.2 exampleLaterReads.2
              exampleFirstRead.1 exampleLaterReads.1)
    as (Hempty & _ & (o & Ho & Hsame) & _ & Hfresh); try reflexivity.
  destruct Hempty as [Hfirst Hnone]; [by apply MissingBlock |].
  rewrite Hfirst in Ho. injection Ho as <-.
  split; [exact Hfirst |]. split; [exact Hsame |]. split; [exact (Hfresh Hnone) |].
  destruct (context_reader_empty_and_cached (H := exampleHost) (Some contextDocument)
              [Some []; None] ContextParser.initial exampleCachedRead.2
              exampleCachedLaterReads.2 exampleCachedRead.1 exampleCachedLaterReads.1)
    as (_ & Hobject & _); try reflexivity.
  destruct (Hobject contextDocument
              (Dom.Build_ElementData Dom.Html 7 "script" [("type", "application/sid+json")])
              [Dom.TextNode exampleContextJson] [("app", JString "Shop")])
    as (Hcached & _ & Hsame' & _); [reflexivity | reflexivity | discriminate | reflexivity |].
  split; [exact Hcached | exact Hsame'].
Defined.

Lemma tracked_call_completed_by_signal_witness :
  InteractionExecutor.settled
    (InteractionExecutor.complete "e1" exampleFailure
       (InteractionExecutor.run (H := exampleHost) [InteractionExecutor.EvAdvance 20]
          exampleWaiting)) !! 0
  = Some (InteractionResult.mk true "error" None (Some "rejected") None).
Proof.
  destruct (tracked_call_completed_by_signal (H := exampleHost)
              exampleRegistry exampleDocument "e1" exampleClick exampleOptions
              InteractionExecutor.create [InteractionExecutor.EvAdvance 20] exampleFailure)
    as (p & tid & Hwaiting & _ & _ & Hsettled & _).
  - exists []. reflexivity.
  - intros tid cb Hcb. vm_compute in Hcb. discriminate.
  - exists exampleElement, (Dom.Build_ElementData Dom.Html 1 "button" [("data-sid", "e1")]), 
      [InteractionExecutor.Click 1].
    repeat split; reflexivity.
  - repeat constructor; cbn; tauto.
  - reflexivity.
  - cbn. split; [reflexivity | exact I].
  - vm_compute in Hwaiting. injection Hwaiting as <-. exact Hsettled.
Defined.


Lemma complete_without_pending_is_noop_witness :
  InteractionExecutor.complete "e1" exampleCompletion InteractionExecutor.create
  = InteractionExecutor.create.
Proof.
  apply complete_without_pending_is_noop. reflexivity.
Defined.

Lemma execute_disabled_element_witness :
  exists error,
    InteractionExecutor.execute (H := exampleHost) lockedRegistry lockedDocument "e1"
      exampleClick InteractionOptions.empty InteractionExecutor.create
    = (InteractionExecutor.Returned (InteractionResult.mk false "error" (Some error) None None),
       InteractionExecutor.create)
    /\ error = "Element is disabled: locked".
Proof.
  destruct (execute_disabled_element (H := exampleHost) lockedRegistry lockedDocument "e1"
              exampleClick InteractionOptions.empty InteractionExecutor.create
              (ElementRegistry.convertToSIDElement (H := exampleHost)
                 (ParsedAttributes.mk "e1" "" None "click" None None "async" None None
                    true (Some "locked"))))
    as (error & Hexecute & Hreason & _).
  - reflexivity.
  - reflexivity.
  - exists error. split; [exact Hexecute |]. apply Hreason; [reflexivity | discriminate].
Defined.

Lemma execute_preconditions_witness :
  InteractionExecutor.execute (H := exampleHost) exampleRegistry exampleDocument "nowhere"
    exampleClick InteractionOptions.empty InteractionExecutor.create
  = (InteractionExecutor.Returned
       (InteractionResult.mk false "error" (Some "Element not found: nowhere") None None),
     InteractionExecutor.create)
  /\ InteractionExecutor.execute (H := exampleHost) exampleRegistry [] "e1"
       exampleClick InteractionOptions.empty InteractionExecutor.create
     = (InteractionExecutor.Returned
          (InteractionResult.mk false "error" (Some "Element not found in DOM: e1") None None),
        InteractionExecutor.create).
Proof.
  split.
  - apply (proj1 (execute_preconditions (H := exampleHost) exampleRegistry exampleDocument
                    "nowhere" exampleClick InteractionOptions.empty
                    InteractionExecutor.create)).
    reflexivity.
  - apply (proj2 (execute_preconditions (H := exampleHost) exampleRegistry []
                    "e1" exampleClick InteractionOptions.empty
                    InteractionExecutor.create) exampleElement); reflexivity.
Defined.

Lemma replaced_call_settles_by_its_timer_witness :
  InteractionExecutor.settled
    (InteractionExecutor.advance (H := exampleHost) 20
       (InteractionExecutor.run (H := exampleHost)
          [InteractionExecutor.EvComplete "e1" exampleCompletion;
           InteractionExecutor.EvAdvance 10]
          exampleReplaced)) !! 0
  = Some (InteractionExecutor.timeoutResult (H := exampleHost) 50).
Proof.
  destruct (replaced_call_settles_by_its_timer (H := exampleHost)
              exampleRegistry exampleRegistry exampleDocument exampleDocument "e1"
              exampleClick exampleClick exampleOptions exampleOptions
              InteractionExecutor.create
              [InteractionExecutor.EvAdvance 20]
              [InteractionExecutor.EvComplete "e1" exampleCompletion;
               InteractionExecutor.EvAdvance 10]
              20)
    as (p1 & p2 & tid2 & Hwaiting & _ & _ & _ & _ & _ & Hsettled).
  - exists []. reflexivity.
  - exists exampleElement, (Dom.Build_ElementData Dom.Html 1 "button" [("data-sid", "e1")]), 
      [InteractionExecutor.Click 1].
    repeat split; reflexivity.
  - exists exampleElement, (Dom.Build_ElementData Dom.Html 1 "button" [("data-sid", "e1")]), 
      [InteractionExecutor.Click 1].
    repeat split; reflexivity.
  - repeat constructor; cbn; tauto.
  - reflexivity.
  - cbn. repeat split; reflexivity.
  - vm_compute. discriminate.
  - vm_compute in Hwaiting. injection Hwaiting as <-. exact Hsettled.
Defined.

(** ** Where the code departs from the specification *)

(** C1. Two tracked calls are made on ["e1"], 20 ms apart, each with a
    timeout of 50 ms. If a completion signal for ["e1"] arrives at once,
    30 ms before the timeout of the first call, it settles the second
    call; the first call is not settled by it and ends with status
    ["timeout"]. If instead the signal arrives 40 ms after the second
    call, 10 ms before the timeout of the second call, it settles nothing:
    the timer of the first call has removed the pending operation, and the
    second call ends with status ["timeout"] too. A call whose
    dispatch throws has its result before any signal: success [false],
    status ["error"]. And a call with a timeout of 2^31 ms, which the
    timer of the browser turns into no delay at all, ends with status
    ["timeout"] at once: a signal that arrives 10 ms after the call,
    long before the timeout has elapsed, does not settle it. *)
Lemma signal_misses_replaced_or_failed_call :
  InteractionExecutor.settled
    (InteractionExecutor.complete "e1" exampleCompletion exampleReplaced) !! 1
  = Some (InteractionResult.mk true "completed" None (Some "ok") None)
  /\ InteractionExecutor.settled
       (InteractionExecutor.complete "e1" exampleCompletion exampleReplaced) !! 0
     = None
  /\ InteractionExecutor.settled
       (InteractionExecutor.advance (H := exampleHost) 30
          (InteractionExecutor.complete "e1" exampleCompletion exampleReplaced)) !! 0
     = Some (InteractionResult.mk true "timeout" None
               (Some "Operation timed out after 50ms") None)
  /\ InteractionExecutor.settled
       (InteractionExecutor.complete "e1" exampleCompletion
          (InteractionExecutor.advance (H := exampleHost) 40 exampleReplaced)) !! 1
     = None
  /\ InteractionExecutor.settled
       (InteractionExecutor.advance (H := exampleHost) 10
          (InteractionExecutor.complete "e1" exampleCompletion
             (InteractionExecutor.advance (H := exampleHost) 40 exampleReplaced))) !! 1
     = Some (InteractionResult.mk true "timeout" None
               (Some "Operation timed out after 50ms") None)
  /\ InteractionExecutor.settled
       (InteractionExecutor.complete "e1" exampleCompletion exampleFailed) !! 0
     = Some (InteractionResult.mk false "error"
               (Some "Action execution failed: Element is not a fillable input element")
               None None)
  /\ InteractionExecutor.settled
       (InteractionExecutor.complete "e1" exampleCompletion
          (InteractionExecutor.advance (H := exampleHost) 10 exampleLongWait)) !! 0
     = Some (InteractionResult.mk true "timeout" None
               (Some "Operation timed out after 2147483648ms") None).
Proof. repeat split; vm_compute; reflexivity. Qed.


(** C5. Two nodes carry the identifier ["e1"], so the locator resolves to
    two live nodes, not to exactly one; [execute] does not report "not
    found in DOM": it clicks the first of the two and reports success. *)
Lemma execute_duplicate_locator_dispatches :
  ElementRegistry.get duplicateRegistry "e1" <> None
  /\ (forall sidElement, ElementRegistry.get duplicateRegistry "e1" = Some sidElement ->
        SIDElement.disabled sidElement = false
        /\ List.length (ElementRegistry.querySelectorAll (H := exampleHost) duplicateDocument
                          (SIDElement.selector sidElement)) = 2)
  /\ InteractionExecutor.execute (H := exampleHost) duplicateRegistry duplicateDocument "e1"
       exampleClick InteractionOptions.empty InteractionExecutor.create
     = (InteractionExecutor.Returned
          (InteractionResult.mk true "completed" None (Some "click executed on e1") None),
        InteractionExecutor.perform [InteractionExecutor.Click 1] InteractionExecutor.create).
Proof.
  split; [discriminate |]. split; [| reflexivity].
  intros sidElement [= <-]. split; reflexivity.
Qed.

(** C6. With the metadata block missing, three calls in a row with no
    invalidation in between return three different objects: the second and
    the third call do not return the object of the first. And once a
    metadata block has been parsed, a call made when the block has gone
    missing returns the cached record, which is not empty. *)
Lemma context_reader_empty_results_are_distinct_objects :
  exampleFirstRead.1 = 0
  /\ exampleLaterReads.1 = [1; 2]
  /\ exampleCachedRead.1 = 0
  /\ ContextParser.getContextMetadata (H := exampleHost) (Some []) exampleCachedRead.2
     = (0, exampleCachedRead.2)
  /\ ContextParser.heap exampleCachedRead.2 !! 0
     = Some (SIDContextMetadata.mk None (Some "Shop") None None).
Proof. repeat split; vm_compute; reflexivity. Qed.

(** C9. After 2^53 calls of [start] the counter has reached 2^53, where
    incrementing it no longer changes it. The next two calls of [start]
    both allocate the identifier ["op-9007199254740992"], and the second
    overwrites the record of the first. *)
Lemma tracker_identifier_reused_at_limit :
  (exists calls,
     starts calls = N.to_nat (2 ^ 53)
     /\ (OperationTracker.run calls OperationTracker.create).1 = exhaustedTracker)
  /\ Operation.id (OperationTracker.start "e1" "click" 0 exhaustedTracker).1
     = "op-9007199254740992"
  /\ Operation.id
       (OperationTracker.start "e2" "fill" 1
          (OperationTracker.start "e1" "click" 0 exhaustedTracker).2).1
     = "op-9007199254740992"
  /\ OperationTracker.operations
       (OperationTracker.start "e2" "fill" 1
          (OperationTracker.start "e1" "click" 0 exhaustedTracker).2).2
       !! "op-9007199254740992"
     = Some (Operation.mk "op-9007199254740992" "e2" "fill" "pending" None 1 None None).
Proof.
  split; [| repeat split; vm_compute; reflexivity].
  exists (replicate (N.to_nat (2 ^ 53)) (OperationTracker.CallStart "e0" "click" 0)
          ++ [OperationTracker.CallClear]).
  split.
  - apply starts_replicate_clear.
  - rewrite starts_then_clear; rewrite N2Nat.id; [reflexivity | apply N.le_refl].
Qed.

(** C8. The first of two tracked calls on ["e1"], made 20 ms apart with a
    timeout of 50 ms each, is waiting when the second replaces its pending
    operation, and is settled 30 ms later, when its own timer fires. *)
Lemma replaced_call_is_settled :
  InteractionExecutor.pendingOperations exampleReplaced !! "e1"
    = Some (InteractionExecutor.mkPending (InteractionExecutor.mkResolver 1 "e1" 1) 1)
  /\ InteractionExecutor.settled exampleReplaced !! 0 = None
  /\ InteractionExecutor.settled (InteractionExecutor.advance (H := exampleHost) 30 exampleReplaced) !! 0
     = Some (InteractionResult.mk true "timeout" None
               (Some "Operation timed out after 50ms") None).
Proof. repeat split; vm_compute; reflexivity. Qed.


(** ** Instances of the further properties *)

Lemma parseInputAttribute_accepts_witness :
  countChar ","%char " Email , REQUIRED " = 1
  /\ "email" ∈ AttributeParser.VALID_INPUT_DATA_TYPES.
Proof.
  destruct (parseInputAttribute_accepts " Email , REQUIRED "
              (InputDefinition.mk "email" true None)) as (Hcount & Htype & _).
  - reflexivity.
  - split; [exact Hcount | exact Htype].
Defined.

Lemma parseOptionsAttribute_entries_witness :
  Forall (fun o => o <> EmptyString /\ JsString.trim o = o /\ countChar ","%char o = 0)
    ["red"; "dark green"].
Proof.
  destruct (parseOptionsAttribute_entries (Some " red, ,dark green ,") ["red"; "dark green"])
    as [_ Hentries].
  - reflexivity.
  - exact Hentries.
Defined.

Lemma parseHumanInputAttribute_shape_witness :
  exists reason,
    json_get (JObject [("reason", JString "Card"); ("schema", JObject [])]) "reason"
    = Some (JString reason).
Proof.
  destruct (parseHumanInputAttribute_shape (H := humanInputHost) (" " +:+ humanInputJson)
              (JObject [("reason", JString "Card"); ("schema", JObject [])]))
    as (_ & _ & Hreason & _).
  - reflexivity.
  - exact Hreason.
Defined.

Lemma parseAttributes_valid_witness :
  ParsedAttributes.action exampleFieldAttributes ∈ AttributeParser.VALID_ACTION_TYPES
  /\ ParsedAttributes.tracking exampleFieldAttributes ∈ AttributeParser.VALID_TRACKING_TYPES
  /\ ParsedAttributes.disabled exampleFieldAttributes = true.
Proof.
  destruct (proj2 (parseAttributes_valid (H := exampleHost) exampleField)
              exampleFieldAttributes)
    as (_ & _ & Haction & Htracking & _ & _ & _ & _ & Hdisabled).
  - reflexivity.
  - split; [exact Haction | split; [exact Htracking |]].
    apply Hdisabled. reflexivity.
Defined.

Lemma scanDocument_last_wins_witness :
  ElementRegistry.get
    (ElementRegistry.scanDocument (H := exampleHost) duplicateDocument exampleRegistry) "e1"
  = ElementRegistry.parseElement (H := exampleHost)
      (Dom.Build_ElementData Dom.Html 2 "button" [("data-sid", "e1"); ("data-sid-tracking", "none")]).
Proof.
  rewrite (scanDocument_last_wins (H := exampleHost) duplicateDocument exampleRegistry "e1").
  - reflexivity.
  - discriminate.
Defined.

Lemma added_node_is_indexed_witness :
  ElementRegistry.get
    (ElementRegistry.handleMutations (H := exampleHost) []
       [ElementRegistry.ChildList [Dom.Element examplePanel duplicateDocument] []]
       lockedRegistry) "e1"
  = ElementRegistry.parseElement (H := exampleHost)
      (Dom.Build_ElementData Dom.Html 2 "button"
         [("data-sid", "e1"); ("data-sid-tracking", "none")])
  /\ ElementRegistry.handleMutations (H := exampleHost) []
       [ElementRegistry.ChildList [Dom.Element exampleIcon []] []] exampleRegistry
     = exampleRegistry.
Proof.
  destruct (added_node_is_indexed (H := exampleHost) [] examplePanel duplicateDocument
              lockedRegistry "e1") as [Hindexed _].
  - discriminate.
  - destruct (added_node_is_indexed (H := exampleHost) [] exampleIcon []
                exampleRegistry "icon") as [_ Hskipped].
    + discriminate.
    + split; [rewrite Hindexed; reflexivity | apply Hskipped; reflexivity].
Defined.

Lemma removed_node_is_dropped_witness :
  ElementRegistry.get
    (ElementRegistry.handleMutations (H := exampleHost) []
       [ElementRegistry.ChildList [] [Dom.Element examplePanel duplicateDocument]]
       exampleRegistry) "e1"
  = None
  /\ ElementRegistry.handleMutations (H := exampleHost) []
       [ElementRegistry.ChildList [] [Dom.Element exampleDrawing duplicateDocument]]
       exampleRegistry
     = exampleRegistry.
Proof.
  destruct (removed_node_is_dropped (H := exampleHost) [] examplePanel duplicateDocument
              exampleRegistry "e1") as [Hdropped _].
  - discriminate.
  - destruct (removed_node_is_dropped (H := exampleHost) [] exampleDrawing duplicateDocument
                exampleRegistry "e1") as [_ Hskipped].
    + discriminate.
    + split; [rewrite Hdropped; reflexivity | apply Hskipped; reflexivity].
Defined.

Lemma removed_identifier_keeps_entry_witness :
  ElementRegistry.handleMutations (H := exampleHost) [Dom.Element strippedButton []]
    [ElementRegistry.Attributes (Dom.Element strippedButton []) (Some "data-sid")]
    exampleRegistry
  = exampleRegistry
  /\ ElementRegistry.get exampleRegistry "e1" = Some exampleElement.
Proof.
  split; [| reflexivity].
  apply (removed_identifier_keeps_entry (H := exampleHost) [Dom.Element strippedButton []]
           strippedButton [] exampleRegistry).
  - reflexivity.
  - intros ec Hin _. vm_compute in Hin. apply list_elem_of_singleton in Hin. by subst ec.
Defined.

Lemma attribute_change_keeps_other_entries_witness :
  ElementRegistry.get
    (ElementRegistry.handleMutations (H := exampleHost) [Dom.Element renamedButton []]
       [ElementRegistry.Attributes (Dom.Element renamedButton []) (Some "data-sid")]
       exampleRegistry) "e1"
  = Some exampleElement
  /\ is_Some (ElementRegistry.get
                (ElementRegistry.handleMutations (H := exampleHost)
                   [Dom.Element renamedButton []]
                   [ElementRegistry.Attributes (Dom.Element renamedButton [])
                      (Some "data-sid")]
                   exampleRegistry) "e2").
Proof.
  destruct (attribute_change_keeps_other_entries (H := exampleHost)
              [Dom.Element renamedButton []] renamedButton [] "data-sid" "e2" exampleRegistry)
    as (Hother & Hself & _).
  - discriminate.
  - reflexivity.
  - discriminate.
  - split.
    + rewrite Hother by discriminate. reflexivity.
    + apply Hself; [reflexivity | by left].
Defined.

Lemma registry_identifiers_unique_witness :
  NoDup (SIDElement.id <$> ElementRegistry.getAll exampleRegistry)
  /\ ElementRegistry.get exampleRegistry (SIDElement.id exampleElement) = Some exampleElement.
Proof.
  destruct (registry_identifiers_unique (H := exampleHost) true exampleDocument [])
    as (Hunique & _ & Hlisted).
  split; [exact Hunique |]. apply Hlisted. vm_compute. apply list_elem_of_here.
Defined.

Lemma start_overwrites_nothing_witness :
  OperationTracker.operations (OperationTracker.start "e2" "fill" 120 exampleTracker).2 !! "op-1"
  = Some exampleOperation.
Proof.
  destruct (start_overwrites_nothing [OperationTracker.CallStart "e1" "click" 100]
              "e2" "fill" 120) as (_ & _ & Hbelow).
  destruct Hbelow as [_ Hkept]; [reflexivity |].
  apply Hkept. reflexivity.
Defined.

Lemma complete_first_wins_witness :
  OperationTracker.complete "op-1" "error" (Some "late") None 170 exampleCompletedTracker
  = exampleCompletedTracker.
Proof.
  apply (complete_first_wins exampleTracker "op-1" "success" "error" (Some "done") (Some "late")
           None None 130 170).
  discriminate.
Defined.

Lemma poll_outcomes_witness :
  OperationTracker.poll (H := exampleHost) "op-7" 100 exampleTracker 100 []
  = OperationTracker.PollNotFound (OperationTracker.notFoundMessage "op-7")
  /\ OperationTracker.poll (H := exampleHost) "op-1" 100 exampleCompletedTracker 140 []
     = OperationTracker.PollResolved
         (Operation.mk "op-1" "e1" "click" "success" (Some "done") 100 (Some 130%N) None).
Proof.
  split.
  - apply (proj1 (poll_outcomes (H := exampleHost) "op-7" 100 exampleTracker 100 [])). reflexivity.
  - apply (proj1 (proj2 (poll_outcomes (H := exampleHost) "op-1" 100 exampleCompletedTracker 140 []))).
    + reflexivity.
    + reflexivity.
Defined.

Lemma poll_resolves_after_complete_witness :
  exists op',
    OperationTracker.poll (H := exampleHost) "op-1" 10 exampleTracker 100 [(exampleCompletedTracker, 900%N)]
    = OperationTracker.PollResolved op'
    /\ Operation.status op' = "success".
Proof.
  destruct (poll_resolves_after_complete (H := exampleHost) exampleTracker "op-1" "success" exampleOperation
              (Some "done") None 10 100 130 900 [])
    as (op' & Hpoll & Hstatus & _).
  - reflexivity.
  - reflexivity.
  - by left.
  - exists op'. split; [exact Hpoll | exact Hstatus].
Defined.

Lemma context_getters_read_strings_witness :
  (ContextParser.getAppContext (H := exampleHost) (Some contextDocument)
     ContextParser.initial).1 = "Shop"
  /\ (ContextParser.getPageContext (H := exampleHost) (Some contextDocument)
        ContextParser.initial).1 = ""
  /\ (ContextParser.getAppContext (H := exampleHost) (Some []) ContextParser.initial).1 = "".
Proof.
  destruct (context_getters_read_strings (H := exampleHost) (Some contextDocument)
              ContextParser.initial) as [_ Hread]; [reflexivity | reflexivity |].
  destruct (Hread contextDocument
              (Dom.Build_ElementData Dom.Html 7 "script" [("type", "application/sid+json")])
              [Dom.TextNode exampleContextJson] [("app", JString "Shop")])
    as (Happ & Hpage & _); [reflexivity | reflexivity | discriminate | reflexivity |].
  destruct (context_getters_read_strings (H := exampleHost) (Some [])
              ContextParser.initial) as [Hempty _]; [reflexivity | reflexivity |].
  destruct Hempty as (Hnone & _); [by apply MissingBlock |].
  split; [exact Happ | split; [exact Hpage | exact Hnone]].
Defined.

Lemma triggerAction_targets_witness :
  Forall (fun op => opTarget op = 3)
    [InteractionExecutor.SetValue 3 "a@b.com";
     InteractionExecutor.DispatchEvent 3 (InteractionExecutor.NewEvent "input" true true);
     InteractionExecutor.DispatchEvent 3 (InteractionExecutor.NewEvent "change" true true)]
  /\ InteractionExecutor.triggerAction (H := exampleHost) exampleIcon exampleClick
     = inl "el.click is not a function"
  /\ InteractionExecutor.triggerAction (H := exampleHost) exampleFileInput exampleFill
     = inl "This input element accepts a filename"
  /\ InteractionExecutor.triggerAction (H := exampleHost) exampleField
       (InteractionAction.mk "press" InteractionAction.Undefined)
     = inl "Invalid action type: press".
Proof.
  destruct (triggerAction_targets (H := exampleHost) exampleField exampleFill) as (Hok & _).
  destruct (Hok [InteractionExecutor.SetValue 3 "a@b.com";
                 InteractionExecutor.DispatchEvent 3
                   (InteractionExecutor.NewEvent "input" true true);
                 InteractionExecutor.DispatchEvent 3
                   (InteractionExecutor.NewEvent "change" true true)] eq_refl)
    as (_ & Htargets & _).
  destruct (triggerAction_targets (H := exampleHost) exampleIcon exampleClick)
    as (_ & _ & Hclick & _).
  destruct (triggerAction_targets (H := exampleHost) exampleFileInput exampleFill)
    as (_ & _ & _ & Hfill & _).
  destruct (triggerAction_targets (H := exampleHost) exampleField
              (InteractionAction.mk "press" InteractionAction.Undefined))
    as (_ & _ & _ & _ & Hinvalid).
  split; [exact Htargets |]. split; [exact (Hclick eq_refl) |].
  split; [apply Hfill; [reflexivity | reflexivity | reflexivity | discriminate] |].
  apply Hinvalid.
  unfold AttributeParser.VALID_ACTION_TYPES. cbn [InteractionAction.type].
  rewrite !elem_of_cons, elem_of_nil. intuition discriminate.
Defined.

Lemma untracked_call_returns_at_once_witness :
  exists message,
    InteractionExecutor.execute (H := exampleHost) duplicateRegistry duplicateDocument "e1"
      exampleClick exampleOptions exampleWaiting
    = (InteractionExecutor.Returned
         (InteractionResult.mk true "completed" None (Some message) None),
       InteractionExecutor.perform [InteractionExecutor.Click 1] exampleWaiting).
Proof.
  apply (proj1 (untracked_call_returns_at_once (H := exampleHost) duplicateRegistry
                  duplicateDocument "e1" exampleClick exampleOptions exampleWaiting
                  (ElementRegistry.convertToSIDElement (H := exampleHost)
                     (ParsedAttributes.mk "e1" "" None "click" None None "none" None None
                        false None))
                  (Dom.Build_ElementData Dom.Html 1 "button"
                     [("data-sid", "e1"); ("data-sid-tracking", "none")])
                  "none"
                  ltac:(repeat split; reflexivity) ltac:(by left))
           [InteractionExecutor.Click 1]).
  reflexivity.
Defined.

Lemma execute_leaves_other_calls_witness :
  InteractionExecutor.timers exampleReplaced !! 0 = InteractionExecutor.timers exampleWaiting !! 0
  /\ InteractionExecutor.settled exampleReplaced !! 0 = None.
Proof.
  destruct (execute_leaves_other_calls (H := exampleHost) exampleRegistry exampleDocument "e1"
              exampleClick exampleOptions (InteractionExecutor.advance (H := exampleHost) 20 exampleWaiting))
    as (_ & Htimers & Hsettled & _).
  - exists [InteractionExecutor.EvExecute exampleRegistry exampleDocument "e1" exampleClick
              exampleOptions;
            InteractionExecutor.EvAdvance 20].
    reflexivity.
  - split.
    + apply (Htimers 0). vm_compute. lia.
    + apply (Hsettled 0). vm_compute. lia.
Defined.

Lemma pending_operation_is_completed_witness :
  InteractionExecutor.settled
    (InteractionExecutor.complete "e1" exampleCompletion exampleWaiting) !! 0
  = Some (InteractionResult.mk true "completed" None (Some "ok") None)
  /\ InteractionExecutor.pendingOperations
       (InteractionExecutor.complete "e1" exampleCompletion exampleWaiting) !! "e1"
     = None.
Proof.
  destruct (pending_operation_is_completed (H := exampleHost) exampleWaiting "e1"
              (InteractionExecutor.mkPending (InteractionExecutor.mkResolver 0 "e1" 0) 0)
              exampleCompletion)
    as (_ & _ & Hsettled & Hremoved & _).
  - exists [InteractionExecutor.EvExecute exampleRegistry exampleDocument "e1" exampleClick
              exampleOptions].
    reflexivity.
  - reflexivity.
  - split; [exact Hsettled | exact Hremoved].
Defined.


Lemma second_signal_is_ignored_witness :
  InteractionExecutor.complete "e1" exampleFailure
    (InteractionExecutor.complete "e1" exampleCompletion exampleWaiting)
  = InteractionExecutor.complete "e1" exampleCompletion exampleWaiting.
Proof.
  apply (second_signal_is_ignored (H := exampleHost)).
  exists [InteractionExecutor.EvExecute exampleRegistry exampleDocument "e1" exampleClick
            exampleOptions].
  reflexivity.
Defined.

Lemma failed_dispatch_settles_at_once_witness :
  exists ex',
    InteractionExecutor.execute (H := exampleHost) exampleRegistry exampleDocument "e1"
      exampleFill exampleOptions exampleWaiting
    = (InteractionExecutor.Waiting 1, ex')
    /\ InteractionExecutor.settled ex' !! 1
       = Some (InteractionResult.mk false "error"
                 (Some "Action execution failed: Element is not a fillable input element")
                 None None)
    /\ InteractionExecutor.pendingOperations ex' !! "e1" = None
    /\ InteractionExecutor.timers ex' = InteractionExecutor.timers exampleWaiting.
Proof.
  destruct (failed_dispatch_settles_at_once (H := exampleHost) exampleRegistry exampleDocument
              "e1" exampleFill exampleOptions exampleWaiting exampleElement
              (Dom.Build_ElementData Dom.Html 1 "button" [("data-sid", "e1")])
              "Element is not a fillable input element")
    as (ex' & Hexecute & Hsettled & Hremoved & _ & Htimers & _).
  - exists [InteractionExecutor.EvExecute exampleRegistry exampleDocument "e1" exampleClick
              exampleOptions].
    reflexivity.
  - repeat split; reflexivity.
  - reflexivity.
  - exists ex'. split; [exact Hexecute |]. split; [exact Hsettled |].
    split; [exact Hremoved | exact Htimers].
Defined.
